(** * decaffeinate-parser: the tree converter of [src/parser.js]

    A shallow embedding of [src/parser.js]: the location algebra
    ([mergeLocations], [locationContainingNodes], the two
    [expandLocation...Through] functions), the node builder ([makeNode]) and
    the recursive converter ([convert]) with its sub-converters, followed by
    the properties of the specification stated on them.

    - JavaScript numbers that hold line numbers, columns and offsets are
      [Z]; strings are [string], one character for one code unit.
    - A thrown exception is the [Err] branch of [result]; [null] is [None].
    - An upstream node is a value of [CSNode] and holds the address of its
      [locationData] object in a store, so that two nodes can hold the same
      object.  The upstream tree is a tree: no node is held twice.
    - A normalized node is a [Node]: the fields [makeNode] sets and the
      attributes in insertion order.
    - The line/column mapper, the literal classifier and [JSON.parse] are
      imported by [parser.js]; they are parameters of the converter. *)

From Stdlib Require Import ZArith List String Ascii Bool Lia.
Import ListNotations.
Open Scope string_scope.
Open Scope list_scope.
Open Scope Z_scope.

(** ** JavaScript string primitives used by the parser *)

Module JsString.

Definition length (s : string) : Z := Z.of_nat (String.length s).

Fixpoint drop (n : nat) (s : string) : string :=
  match n, s with
  | O, _ => s
  | S _, EmptyString => EmptyString
  | S n', String _ s' => drop n' s'
  end.

Fixpoint take (n : nat) (s : string) : string :=
  match n, s with
  | O, _ => EmptyString
  | S _, EmptyString => EmptyString
  | S n', String c s' => String c (take n' s')
  end.

(** [String.prototype.slice(start, end)]: negative indices count from the
    end of the string, both are clamped to the string, and an empty string
    is returned when the interval is empty. *)
Definition slice (s : string) (start stop : Z) : string :=
  let len := length s in
  let from := if start <? 0 then Z.max (len + start) 0 else Z.min start len in
  let to := if stop <? 0 then Z.max (len + stop) 0 else Z.min stop len in
  let span := Z.max (to - from) 0 in
  take (Z.to_nat span) (drop (Z.to_nat from) s).

(** [occurs_at s pat k]: [pat] occurs in [s] starting at index [k]. *)
Definition occurs_at (s pat : string) (k : nat) : bool :=
  (k <=? String.length s)%nat && String.prefix pat (drop k s).

Fixpoint search_up (p : nat -> bool) (k fuel : nat) : option nat :=
  match fuel with
  | O => None
  | S fuel' => if p k then Some k else search_up p (S k) fuel'
  end.

Fixpoint search_down (p : nat -> bool) (k : nat) : option nat :=
  if p k then Some k
  else match k with
       | O => None
       | S k' => search_down p k'
       end.

(** [String.prototype.indexOf(pat, position)]: the search starts at
    [min(max(position, 0), len)]; the result is [-1] when nothing is
    found. *)
Definition indexOf (s pat : string) (position : Z) : Z :=
  let len := String.length s in
  let start := Z.to_nat (Z.min (Z.max position 0) (Z.of_nat len)) in
  match search_up (occurs_at s pat) start (S (len - start)) with
  | Some k => Z.of_nat k
  | None => -1
  end.

(** [String.prototype.lastIndexOf(pat, position)]: the search runs
    backwards from [min(max(position, 0), len - patLen)]. *)
Definition lastIndexOf (s pat : string) (position : Z) : Z :=
  let len := length s in
  let start := Z.min (Z.max position 0) (len - length pat) in
  if start <? 0 then -1
  else match search_down (occurs_at s pat) (Z.to_nat start) with
       | Some k => Z.of_nat k
       | None => -1
       end.

End JsString.

(** ** Upstream data: location data and CoffeeScript nodes *)

(** The [locationData] object of an upstream node (0-based, end inclusive). *)
Record LocationData := mkLoc {
  first_line : Z;
  first_column : Z;
  last_line : Z;
  last_column : Z
}.

(** Upstream nodes hold a reference to their [locationData] object, and two
    nodes may hold the same object: the [If] case of [convert] compares the
    references with [===].  [LocRef] is the address of such an object and a
    [LocStore] gives the object at every address. *)
Definition LocRef := nat.
Definition LocStore := LocRef -> LocationData.

(** Induction over nodes reaches the nodes held in lists, options, sums and
    pairs. *)
Scheme All for list.
Scheme All for option.
Scheme All for sum.
Scheme All for prod.

(** The upstream node classes, with the fields [parser.js] reads.  A field
    tested for truthiness before use is an [option]; [Other] stands for every
    upstream class without a case of its own in [convert]. *)
Inductive CSNode :=
| Value (loc : option LocRef) (base : CSNode) (properties : list CSNode)
| Literal (loc : option LocRef) (value : string)
| Call (loc : option LocRef) (variable : CSNode) (args : list CSNode)
| Op (loc : option LocRef) (operator : string) (first : CSNode)
     (second : option CSNode)
| Assign (loc : option LocRef) (context : option string)
         (variable : CSNode) (value : CSNode)
| Obj (loc : option LocRef) (properties : list CSNode)
| Arr (loc : option LocRef) (objects : list CSNode)
| Parens (loc : option LocRef) (body : CSNode)
| If (loc : option LocRef) (condition : CSNode) (body : CSNode)
     (elseBody : option CSNode)
| Code (loc : option LocRef) (bound : bool) (body : option CSNode)
       (params : list CSNode)
| Param (loc : option LocRef) (name : CSNode) (value : option CSNode)
| Block (loc : option LocRef) (expressions : list CSNode)
| Bool (loc : option LocRef) (val : string)
| Null (loc : option LocRef)
| While (loc : option LocRef) (condition : CSNode) (body : CSNode)
| Class (loc : option LocRef) (variable : option CSNode)
        (body : option CSNode) (parent : option CSNode)
| Switch (loc : option LocRef) (subject : CSNode)
         (cases : list ((CSNode + list CSNode) * CSNode))
         (otherwise : option CSNode)
| Access (loc : option LocRef) (name : CSNode)
| Index (loc : option LocRef) (index : CSNode)
| Other (loc : option LocRef) (className : string).

(** [type(node)]: the name of the node's class. *)
Definition type (node : CSNode) : string :=
  match node with
  | Value _ _ _ => "Value"
  | Literal _ _ => "Literal"
  | Call _ _ _ => "Call"
  | Op _ _ _ _ => "Op"
  | Assign _ _ _ _ => "Assign"
  | Obj _ _ => "Obj"
  | Arr _ _ => "Arr"
  | Parens _ _ => "Parens"
  | If _ _ _ _ => "If"
  | Code _ _ _ _ => "Code"
  | Param _ _ _ => "Param"
  | Block _ _ => "Block"
  | Bool _ _ => "Bool"
  | Null _ => "Null"
  | While _ _ _ => "While"
  | Class _ _ _ _ => "Class"
  | Switch _ _ _ _ => "Switch"
  | Access _ _ => "Access"
  | Index _ _ => "Index"
  | Other _ className => className
  end.

(** [node.locationData], as a reference. *)
Definition locationData (node : CSNode) : option LocRef :=
  match node with
  | Value loc _ _ | Literal loc _ | Call loc _ _ | Op loc _ _ _
  | Assign loc _ _ _ | Obj loc _ | Arr loc _ | Parens loc _ | If loc _ _ _
  | Code loc _ _ _ | Param loc _ _ | Block loc _ | Bool loc _ | Null loc
  | While loc _ _ | Class loc _ _ _ | Switch loc _ _ _ | Access loc _
  | Index loc _ | Other loc _ => loc
  end.

(** [a === b] on two [locationData] fields: the same object, or both null. *)
Definition same_object (a b : option LocRef) : bool :=
  match a, b with
  | Some r, Some r' => Nat.eqb r r'
  | None, None => true
  | _, _ => false
  end.

(** ** Normalized nodes *)

(** Scalar values stored in attributes: the results of [JSON.parse] on
    numeric and boolean tokens, decoded strings and names.  A finite number
    is the rational [num/den] it denotes; [JSON.parse] returns [Infinity]
    for a numeric token too large for a double ([1e400]). *)
Inductive JsValue :=
| JNumber (num : Z) (den : positive)
| JInfinity (negative : bool)
| JNaN
| JString (s : string)
| JBool (b : bool)
| JNull.

(** The value of an attribute of a normalized node. *)
Inductive Attr (N : Type) :=
| AUndefined
| ANull
| ANode (n : N)
| ANodes (l : list (option N))
| AData (v : JsValue).
Scheme All for Attr.
Arguments AUndefined {N}.
Arguments ANull {N}.
Arguments ANode {N} n.
Arguments ANodes {N} l.
Arguments AData {N} v.

(** The object built by [makeNode].  [node_type] is [None] when [makeNode]
    is called with an undefined type; [line], [column], [range] and [raw] are
    absent on a node built without a location, which has [virtual] instead;
    [attrs] are the attributes in insertion order. *)
Inductive Node := mkNode {
  node_type : option string;
  line : option Z;
  column : option Z;
  range : option (Z * Z);
  virtual : bool;
  raw : option string;
  attrs : list (string * Attr Node)
}.

(** ** Exceptions *)

Inductive Error :=
| UnknownNodeType (typeName : string) (node : CSNode)
    (* `unknown node type: ${type(node)}\n${JSON.stringify(node, null, 2)}` *)
| UnknownPropertyType (typeName : string) (prop : CSNode)
    (* `unknown property type: ${type(prop)}\n` followed by
       JSON.stringify(prop, null, 2) *)
| UnimplementedNodeType (value : JsValue)
    (* `unimplemented node type for ${JSON.stringify(value)}` *)
| NotFollowedBy (line1 column1 : Z) (anchor : string)
    (* `unable to expand location ending at ${line1}:${column1} because it
       is not followed by ${JSON.stringify(anchor)}` *)
| NotPrecededBy (line1 column1 : Z) (anchor : string)
    (* `unable to expand location starting at ${line1}:${column1} because it
       is not preceded by ${JSON.stringify(anchor)}` *)
| TypeError
    (* a property read on null or undefined *)
| SyntaxError.
    (* thrown by JSON.parse *)

Inductive result (A : Type) :=
| Ok (a : A)
| Err (e : Error).
Arguments Ok {A} a.
Arguments Err {A} e.

Definition bind {A B : Type} (m : result A) (f : A -> result B) : result B :=
  match m with
  | Ok a => f a
  | Err e => Err e
  end.

Notation "x <- m ;; k" := (bind m (fun x => k))
  (at level 61, m at next level, right associativity).

(** [array.map(f)] where [f] may throw. *)
Definition mapResult {A B : Type} (f : A -> result B)
  : list A -> result (list B) :=
  fix go (l : list A) : result (list B) :=
    match l with
    | [] => Ok []
    | x :: l' =>
        y <- f x;;
        ys <- go l';;
        Ok (y :: ys)
    end.

(** [array.forEach(f)] and [array.reduce(f, init)] where [f] updates the
    state [S] and may throw. *)
Definition foldResult {A S : Type} (f : S -> A -> result S)
  : list A -> S -> result S :=
  fix go (l : list A) (s : S) : result S :=
    match l with
    | [] => Ok s
    | x :: l' =>
        s' <- f s x;;
        go l' s'
    end.

(** ** Location algebra *)

Definition mergeLocations (left right : LocationData) : LocationData :=
  let '(fl, fc) :=
    if first_line left <? first_line right then
      (first_line left, first_column left)
    else if first_line left >? first_line right then
      (first_line right, first_column right)
    else if first_column left <? first_column right then
      (first_line left, first_column left)
    else
      (first_line right, first_column right) in
  let '(ll, lc) :=
    if last_line left <? last_line right then
      (last_line right, last_column right)
    else if last_line left >? last_line right then
      (last_line left, last_column left)
    else if last_column left <? last_column right then
      (last_line right, last_column right)
    else
      (last_line left, last_column left) in
  mkLoc fl fc ll lc.

(** [mergeLocations] on two values that may be null: reading [first_line]
    of null throws. *)
Definition mergeLocations_nullable (left right : option LocationData)
  : result (option LocationData) :=
  match left, right with
  | Some l, Some r => Ok (Some (mergeLocations l r))
  | _, _ => Err TypeError
  end.

(** ** The line/column mapper

    [lineColumnMapper(source)] is imported by [parser.js]: a function from a
    0-based line and column to an offset, with its inverse as the [invert]
    property. *)
Record Mapper := mkMapper {
  offsetOf : Z -> Z -> Z;
  invert : Z -> Z * Z
}.

(** ** Literals *)

Definition is_digit (c : ascii) : bool :=
  let n := nat_of_ascii c in ((48 <=? n) && (n <=? 57))%nat.

Fixpoint rev_chars (s : string) (acc : list ascii) : list ascii :=
  match s with
  | EmptyString => acc
  | String c s' => rev_chars s' (c :: acc)
  end.

Fixpoint skip_digits (l : list ascii) : list ascii :=
  match l with
  | c :: l' => if is_digit c then skip_digits l' else l
  | [] => []
  end.

(** [/^\d+|(\d+)?\.\d+$/.test(value)]: the value starts with a digit, or it
    ends with a dot followed by one or more digits. *)
Definition looks_numeric (value : string) : bool :=
  let starts :=
    match value with
    | String c _ => is_digit c
    | EmptyString => false
    end in
  let ends :=
    match rev_chars value [] with
    | c :: l =>
        is_digit c &&
        match skip_digits l with
        | d :: _ => Ascii.eqb d "."%char
        | [] => false
        end
    | [] => false
    end in
  starts || ends.

(** [Math.floor(value) === value] on the rational [num/den]. *)
Definition is_integral (num : Z) (den : positive) : bool :=
  num mod Z.pos den =? 0.

(** [typeof value === 'number'] holds of the finite numbers, of the two
    infinities and of NaN.  [Math.floor] leaves an infinity as it is, and
    NaN is not [===] to itself. *)
Definition nodeTypeForLiteral (value : JsValue) : result string :=
  match value with
  | JNumber num den => Ok (if is_integral num den then "Int" else "Float")
  | JInfinity _ => Ok "Int"
  | JNaN => Ok "Float"
  | JString _ | JBool _ | JNull => Err (UnimplementedNodeType value)
  end.

(** ** Reading attributes of normalized nodes *)

Fixpoint lookup {A : Type} (key : string) (l : list (string * A)) : option A :=
  match l with
  | [] => None
  | (k, v) :: l' => if String.eqb k key then Some v else lookup key l'
  end.

(** [node[key]]; a missing key reads as undefined. *)
Definition attr (node : Node) (key : string) : Attr Node :=
  match lookup key (attrs node) with
  | Some v => v
  | None => AUndefined
  end.

(** A converted child as an attribute value: [convert] returns a node or
    null. *)
Definition attr_of (child : option Node) : Attr Node :=
  match child with
  | Some n => ANode n
  | None => ANull
  end.

(** The nodes an attribute value gives to the range computation of
    [makeNode]. *)
Definition attr_children (value : Attr Node) : list Node :=
  match value with
  | ANode n => [n]
  | ANodes l =>
      flat_map (fun o => match o with Some n => [n] | None => [] end) l
  | _ => []
  end.

(** All nodes held directly in the attributes of a node. *)
Definition children (node : Node) : list Node :=
  flat_map (fun kv => attr_children (snd kv)) (attrs node).

(** ** Vocabulary of the properties of spans and trees *)

(** The nodes an upstream node holds in its fields. *)
Definition optionalNode (node : option CSNode) : list CSNode :=
  match node with
  | Some n => [n]
  | None => []
  end.

(** The conditions of a switch case as a list:
    [if (!Array.isArray(conditions)) conditions = [conditions]]. *)
Definition conditionsOf (conditions : CSNode + list CSNode) : list CSNode :=
  match conditions with
  | inl c => [c]
  | inr cs => cs
  end.

Definition csChildren (node : CSNode) : list CSNode :=
  match node with
  | Value _ base properties => base :: properties
  | Call _ variable args => variable :: args
  | Op _ _ first second => first :: optionalNode second
  | Assign _ _ variable value => [variable; value]
  | Obj _ properties => properties
  | Arr _ objects => objects
  | Parens _ body => [body]
  | If _ condition body elseBody => condition :: body :: optionalNode elseBody
  | Code _ _ body params => optionalNode body ++ params
  | Param _ name value => name :: optionalNode value
  | Block _ expressions => expressions
  | While _ condition body => [condition; body]
  | Class _ variable body parent =>
      optionalNode variable ++ optionalNode body ++ optionalNode parent
  | Switch _ subject cases otherwise =>
      subject ::
      flat_map (fun case => conditionsOf (fst case) ++ [snd case]) cases
      ++ optionalNode otherwise
  | Access _ name => [name]
  | Index _ index => [index]
  | Literal _ _ | Bool _ _ | Null _ | Other _ _ => []
  end.

(** [Deep P node]: [P] holds of [node] and of every node below it. *)
Inductive Deep (P : CSNode -> Prop) : CSNode -> Prop :=
| Deep_intro (node : CSNode) :
    P node -> (forall c, In c (csChildren node) -> Deep P c) -> Deep P node.

(** Positions (line, column) in lexicographic order. *)
Definition startOf (loc : LocationData) : Z * Z :=
  (first_line loc, first_column loc).

Definition endOf (loc : LocationData) : Z * Z :=
  (last_line loc, last_column loc).

Definition pos_lt (p q : Z * Z) : Prop :=
  fst p < fst q \/ (fst p = fst q /\ snd p < snd q).

Definition pos_le (p q : Z * Z) : Prop :=
  pos_lt p q \/ p = q.

Definition pos_ltb (p q : Z * Z) : bool :=
  (fst p <? fst q) || ((fst p =? fst q) && (snd p <? snd q)).

(** [covers outer inner]: the span [outer] starts no later and ends no
    earlier than [inner]. *)
Definition covers (outer inner : LocationData) : Prop :=
  pos_le (startOf outer) (startOf inner) /\ pos_le (endOf inner) (endOf outer).

(** The earlier of two starts and the later of two ends, as
    [mergeLocations] chooses them. *)
Definition earlier (p q : Z * Z) : Z * Z := if pos_ltb p q then p else q.
Definition later (p q : Z * Z) : Z * Z := if pos_ltb p q then q else p.

(** [pat] occurs in [s] at the offset [k]. *)
Definition occursAt (s pat : string) (k : Z) : Prop :=
  0 <= k /\ JsString.occurs_at s pat (Z.to_nat k) = true.

(** [d] is held, directly or not, in the attributes of [p]. *)
Inductive descendant : Node -> Node -> Prop :=
| descendant_child (p c : Node) :
    In c (children p) -> descendant p c
| descendant_step (p c d : Node) :
    In c (children p) -> descendant c d -> descendant p d.

(** [d] is reached from [p] through nodes that all carry a range. *)
Inductive rangedDescendant : Node -> Node -> Prop :=
| rangedDescendant_child (p c : Node) :
    In c (children p) -> range c <> None -> rangedDescendant p c
| rangedDescendant_step (p c d : Node) :
    In c (children p) -> range c <> None -> rangedDescendant c d ->
    rangedDescendant p d.

(** [outer] and [inner] both carry a range and the first contains the
    second. *)
Definition rangeContains (outer inner : Node) : Prop :=
  match range outer, range inner with
  | Some (o0, o1), Some (i0, i1) => o0 <= i0 /\ i1 <= o1
  | _, _ => False
  end.

(** [n] is [top] or a node held, directly or not, in the fields of [top]. *)
Inductive inTree (n : CSNode) : CSNode -> Prop :=
| inTree_here : inTree n n
| inTree_below (top c : CSNode) :
    In c (csChildren top) -> inTree n c -> inTree n top.

(** The upstream classes without a case of their own in [convert]. *)
Definition hasNoCase (node : CSNode) : bool :=
  match node with
  | Access _ _ | Index _ _ | Other _ _ => true
  | _ => false
  end.

(** The property classes [accessOpForProperty] has a case for. *)
Definition isAccessor (prop : CSNode) : bool :=
  match prop with
  | Access _ _ | Index _ _ => true
  | _ => false
  end.

(** The nodes that hold nothing to convert: an empty block, and a
    parenthesized expression, a parameter without a default or a value
    without properties around such a node. *)
Fixpoint holdsNothing (node : CSNode) : bool :=
  match node with
  | Block _ [] => true
  | Parens _ (Block _ (expression :: _)) => holdsNothing expression
  | Param _ name None => holdsNothing name
  | Value _ base [] => holdsNothing base
  | _ => false
  end.

(** What the two errors that carry a node say, for a conversion within the
    tree [top]: the node carried is a node of [top] and the class name is
    its class; an unknown node type is a class [convert] has no case for,
    and an unknown property type is a property of a [Value] that is neither
    an [Access] nor an [Index]. *)
Definition carriesTreeNode {A : Type} (top : CSNode) (r : result A) : Prop :=
  forall e, r = Err e ->
    match e with
    | UnknownNodeType typeName node =>
        typeName = type node /\ hasNoCase node = true /\ inTree node top
    | UnknownPropertyType typeName prop =>
        typeName = type prop /\ isAccessor prop = false /\
        exists loc base properties,
          inTree (Value loc base properties) top /\ In prop properties
    | _ => True
    end.
(** A computation that raises neither of the two errors. *)
Definition quiet {A : Type} (r : result A) : Prop :=
  forall e, r = Err e ->
    match e with
    | UnknownNodeType _ _ | UnknownPropertyType _ _ => False
    | _ => True
    end.

(** A conversion that returns a node or throws. *)
Definition neverNull (r : result (option Node)) : Prop := r <> Ok None.

(** ** The converter *)

Section Converter.

(** [parseLiteral(value)]: the decoded string when the token is a string. *)
Variable parseLiteral : string -> option string.
(** [JSON.parse(text)] on a numeric or boolean token; [None] is a thrown
    SyntaxError. *)
Variable JSON_parse : string -> option JsValue.
(** The [locationData] objects of the upstream tree. *)
Variable locations : LocStore.
Variable source : string.
Variable mapper : Mapper.

(** The contents of [node.locationData]. *)
Definition locationOf (node : CSNode) : option LocationData :=
  option_map locations (locationData node).

Fixpoint locationContainingNodes (nodes : list CSNode)
  : result (option LocationData) :=
  match nodes with
  | [] => Ok None
  | [n0] => Ok (locationOf n0)
  | [n0; n1] => mergeLocations_nullable (locationOf n0) (locationOf n1)
  | n0 :: rest =>
      inner <- locationContainingNodes rest;;
      mergeLocations_nullable (locationOf n0) inner
  end.

(** *** [makeNode] *)

(** The body of the [forEach] in [makeNode], for a child that is not null:
    the range grows to contain the child's range, when the child has one. *)
Definition expandRange (rng : Z * Z) (child : Node) : Z * Z :=
  match range child with
  | Some (c0, c1) =>
      let r0 := if fst rng >? c0 then c0 else fst rng in
      let r1 := if snd rng <? c1 then c1 else snd rng in
      (r0, r1)
  | None => rng
  end.

(** The [forEach] over an array value: reading [range] of a null element
    throws. *)
Fixpoint expandRangeAll (rng : Z * Z) (l : list (option Node))
  : result (Z * Z) :=
  match l with
  | [] => Ok rng
  | Some child :: l' => expandRangeAll (expandRange rng child) l'
  | None :: _ => Err TypeError
  end.

(** One attribute, on a node that has a range.  Null and undefined are
    falsy and skipped; a scalar is skipped when falsy and has no [range]
    otherwise. *)
Definition expandRangeForAttr (rng : Z * Z) (value : Attr Node)
  : result (Z * Z) :=
  match value with
  | ANode child => Ok (expandRange rng child)
  | ANodes l => expandRangeAll rng l
  | AUndefined | ANull | AData _ => Ok rng
  end.

Fixpoint expandRangeForAttrs (rng : Z * Z) (l : list (string * Attr Node))
  : result (Z * Z) :=
  match l with
  | [] => Ok rng
  | (_, value) :: l' =>
      rng' <- expandRangeForAttr rng value;;
      expandRangeForAttrs rng' l'
  end.

(** Shrink to be within the size of the source. *)
Definition shrinkRange (rng : Z * Z) : Z * Z :=
  let r0 := if fst rng <? 0 then 0 else fst rng in
  let r1 :=
    if snd rng >? JsString.length source then JsString.length source
    else snd rng in
  (r0, r1).

Definition makeNode (nodeType : option string) (loc : option LocationData)
  (attributes : list (string * Attr Node)) : result Node :=
  match loc with
  | Some l =>
      let start := offsetOf mapper (first_line l) (first_column l) in
      let stop := offsetOf mapper (last_line l) (last_column l) + 1 in
      rng <- expandRangeForAttrs (start, stop) attributes;;
      let rng' := shrinkRange rng in
      Ok (mkNode nodeType
                 (Some (first_line l + 1)) (Some (first_column l + 1))
                 (Some rng') false
                 (Some (JsString.slice source (fst rng') (snd rng')))
                 attributes)
  | None => Ok (mkNode nodeType None None None true None attributes)
  end.

(** [makeNode] where a node or null is expected. *)
Definition makeNode_some (nodeType : string) (loc : option LocationData)
  (attributes : list (string * Attr Node)) : result (option Node) :=
  n <- makeNode (Some nodeType) loc attributes;;
  Ok (Some n).

(** *** Expanding a location through an anchor *)

Definition expandLocationRightThrough (loc : LocationData) (anchor : string)
  : result LocationData :=
  let offset := offsetOf mapper (last_line loc) (last_column loc) + 1 in
  let offset := JsString.indexOf source anchor offset in
  if offset <? 0 then
    Err (NotFollowedBy (last_line loc + 1) (last_column loc + 1) anchor)
  else
    let newLoc := invert mapper (offset + JsString.length anchor - 1) in
    Ok (mkLoc (first_line loc) (first_column loc) (fst newLoc) (snd newLoc)).

Definition expandLocationLeftThrough (loc : LocationData) (anchor : string)
  : result LocationData :=
  let offset := offsetOf mapper (first_line loc) (first_column loc) in
  let offset := JsString.lastIndexOf source anchor offset in
  if offset <? 0 then
    Err (NotPrecededBy (first_line loc + 1) (first_column loc + 1) anchor)
  else
    let newLoc := invert mapper offset in
    Ok (mkLoc (fst newLoc) (snd newLoc) (last_line loc) (last_column loc)).

(** The same on a location that may be null: reading a field of null
    throws. *)
Definition expandLocationRightThrough_nullable (loc : option LocationData)
  (anchor : string) : result (option LocationData) :=
  match loc with
  | Some l => l' <- expandLocationRightThrough l anchor;; Ok (Some l')
  | None => Err TypeError
  end.

Definition expandLocationLeftThrough_nullable (loc : option LocationData)
  (anchor : string) : result (option LocationData) :=
  match loc with
  | Some l => l' <- expandLocationLeftThrough l anchor;; Ok (Some l')
  | None => Err TypeError
  end.

(** *** Pieces of [convert] that do not recurse *)

(** The [Literal] case. *)
Definition convertLiteral (loc : option LocationData) (value : string)
  : result (option Node) :=
  if looks_numeric value then
    match JSON_parse value with
    | Some data =>
        nodeType <- nodeTypeForLiteral data;;
        makeNode_some nodeType loc [("data", AData data)]
    | None => Err SyntaxError
    end
  else if String.eqb value "this" then
    makeNode_some "This" loc []
  else
    match parseLiteral value with
    | Some data => makeNode_some "String" loc [("data", AData (JString data))]
    | None => makeNode_some "Identifier" loc [("data", AData (JString value))]
    end.

(** The [Bool] case. *)
Definition convertBool (loc : option LocationData) (val : string)
  : result (option Node) :=
  match JSON_parse val with
  | Some data => makeNode_some "Bool" loc [("data", AData data)]
  | None => Err SyntaxError
  end.

(** The two [switch] statements of [convertOperator].  Neither has a default
    case: for any other operator [nodeType] stays undefined. *)
Definition binaryNodeType (operator : string) : option string :=
  if String.eqb operator "+" then Some "PlusOp"
  else if String.eqb operator "-" then Some "SubtractOp"
  else if String.eqb operator "*" then Some "MultiplyOp"
  else if String.eqb operator "/" then Some "DivideOp"
  else if String.eqb operator "%" then Some "RemOp"
  else None.

Definition unaryNodeType (operator : string) : option string :=
  if String.eqb operator "+" then Some "UnaryPlusOp"
  else if String.eqb operator "-" then Some "UnaryNegateOp"
  else if String.eqb operator "typeof" then Some "TypeofOp"
  else None.

(** [node.context === 'object'] *)
Definition isObjectContext (context : option string) : bool :=
  match context with
  | Some c => String.eqb c "object"
  | None => false
  end.

(** [prop.name.value] of an [Access]; upstream the name is a [Literal]. *)
Definition memberNameOf (name : CSNode) : Attr Node :=
  match name with
  | Literal _ value => AData (JString value)
  | _ => AUndefined
  end.

(** The accumulators of the [Class] case: the [statements] array of the
    [reduce], [ctor] and [boundMembers]. *)
Record ClassState := mkClassState {
  statements : list (option Node);
  ctor : option Node;
  boundMembers : list (option Node)
}.

(** [key.data === 'constructor'] *)
Definition isConstructorKey (key : Node) : bool :=
  match attr key "data" with
  | AData (JString s) => String.eqb s "constructor"
  | _ => false
  end.

(** [key.type === 'MemberAccessOp' && key.expression.type === 'This'] *)
Definition isThisMember (key : Node) : result bool :=
  match node_type key with
  | Some t =>
      if String.eqb t "MemberAccessOp" then
        match attr key "expression" with
        | ANode e =>
            Ok match node_type e with
               | Some t' => String.eqb t' "This"
               | None => false
               end
        | ANull | AUndefined => Err TypeError
        | ANodes _ | AData _ => Ok false
        end
      else Ok false
  | None => Ok false
  end.

(** [value.type === 'BoundFunction'] *)
Definition isBoundFunction (value : option Node) : result bool :=
  match value with
  | Some v =>
      Ok match node_type v with
         | Some t => String.eqb t "BoundFunction"
         | None => false
         end
  | None => Err TypeError
  end.

(** One property of an object in a class body, once its key and value are
    converted. *)
Definition classMember (st : ClassState) (propLoc : option LocationData)
  (key value : option Node) : result ClassState :=
  match key with
  | None => Err TypeError
  | Some k =>
      st' <-
        (if isConstructorKey k then
           member <- makeNode (Some "Constructor") propLoc
                       [("expression", attr_of value)];;
           Ok (mkClassState (statements st ++ [Some member]) (Some member)
                            (boundMembers st))
         else
           this <- isThisMember k;;
           if this : bool then
             member <- makeNode (Some "AssignOp") propLoc
                         [("assignee", ANode k);
                          ("expression", attr_of value)];;
             Ok (mkClassState (statements st ++ [Some member]) (ctor st)
                              (boundMembers st))
           else
             member <- makeNode (Some "ClassProtoAssignOp") propLoc
                         [("assignee", ANode k);
                          ("expression", attr_of value)];;
             Ok (mkClassState (statements st ++ [Some member]) (ctor st)
                              (boundMembers st)));;
      bound <- isBoundFunction value;;
      if bound : bool then
        Ok (mkClassState (statements st') (ctor st')
                         (boundMembers st' ++ [last (statements st') None]))
      else Ok st'
  end.

(** *** [convert]

    [convert node ancestors] is [convert(node, source, mapper, ancestors)].
    [convertChild], [convertOperator] and [accessOpForProperty] are the
    closures of the same names; [convertOperator] takes the parts of the
    operator node apart from the node, so that the [If] case can call it on
    the condition whose [locationData] it has just set to null. *)
Fixpoint convert (node : CSNode) (ancestors : list CSNode) {struct node}
  : result (option Node) :=
  let convertChild := fun child => convert child (ancestors ++ [node]) in
  let convertOptional := fun (child : option CSNode) =>
    match child with
    | Some c => convert c (ancestors ++ [node])
    | None => Ok None
    end in
  let convertOperator :=
    fun (op : CSNode) (opLoc : option LocationData) (operator : string)
        (first : CSNode) (second : option CSNode)
        (opAncestors : list CSNode) =>
      match second with
      | Some second' =>
          let nodeType := binaryNodeType operator in
          left <- convert first (opAncestors ++ [op]);;
          right <- convert second' (opAncestors ++ [op]);;
          n <- makeNode nodeType opLoc
                 [("left", attr_of left); ("right", attr_of right)];;
          Ok (Some n)
      | None =>
          let nodeType := unaryNodeType operator in
          expression <- convert first (opAncestors ++ [op]);;
          n <- makeNode nodeType opLoc [("expression", attr_of expression)];;
          Ok (Some n)
      end in
  match ancestors with
  | [] =>
      match node with
      | Block _ expressions =>
          stmts <- mapResult convertChild expressions;;
          block <- makeNode (Some "Block") (locationOf node)
                     [("statements", ANodes stmts)];;
          makeNode_some "Program" (locationOf node) [("body", ANode block)]
      | _ => Err TypeError
      end
  | _ :: _ =>
      match node with
      | Value _ base properties =>
          value <- convertChild base;;
          foldResult
            (fun value prop =>
               (* accessOpForProperty(value, prop, node.base.locationData) *)
               match prop with
               | Access _ name =>
                   loc <- mergeLocations_nullable (locationOf base)
                            (locationOf prop);;
                   makeNode_some "MemberAccessOp" loc
                     [("expression", attr_of value);
                      ("memberName", memberNameOf name)]
               | Index _ index =>
                   merged <- mergeLocations_nullable (locationOf base)
                               (locationOf prop);;
                   loc <- expandLocationRightThrough_nullable merged "]";;
                   indexingExpr <- convert index (ancestors ++ [node; prop]);;
                   makeNode_some "DynamicMemberAccessOp" loc
                     [("expression", attr_of value);
                      ("indexingExpr", attr_of indexingExpr)]
               | _ => Err (UnknownPropertyType (type prop) prop)
               end)
            properties value

      | Literal _ value => convertLiteral (locationOf node) value

      | Call _ variable args =>
          function <- convertChild variable;;
          arguments <- mapResult convertChild args;;
          makeNode_some "FunctionApplication" (locationOf node)
            [("function", attr_of function); ("arguments", ANodes arguments)]

      | Op _ operator first second =>
          convertOperator node (locationOf node) operator first second
                          ancestors

      | Assign _ context variable value =>
          if isObjectContext context then
            key <- convertChild variable;;
            expression <- convertChild value;;
            makeNode_some "ObjectInitialiserMember" (locationOf node)
              [("key", attr_of key); ("expression", attr_of expression)]
          else
            assignee <- convertChild variable;;
            expression <- convertChild value;;
            makeNode_some "AssignOp" (locationOf node)
              [("assignee", attr_of assignee);
               ("expression", attr_of expression)]

      | Obj _ properties =>
          members <-
            mapResult
              (fun property =>
                 match property with
                 | Value _ _ _ =>
                     (* shorthand property *)
                     keyValue <- convert property (ancestors ++ [node]);;
                     makeNode_some "ObjectInitialiserMember"
                       (locationOf property)
                       [("key", attr_of keyValue);
                        ("expression", attr_of keyValue)]
                 | _ => convert property (ancestors ++ [node])
                 end)
              properties;;
          makeNode_some "ObjectInitialiser" (locationOf node)
            [("members", ANodes members)]

      | Arr _ objects =>
          members <- mapResult convertChild objects;;
          makeNode_some "ArrayInitialiser" (locationOf node)
            [("members", ANodes members)]

      | Parens _ body =>
          match body with
          | Block _ (expression :: _) => convertChild expression
          | _ => Err TypeError
          end

      | If loc condition body elseBody =>
          cond <-
            match condition with
            | Op condLoc operator first second =>
                if String.eqb operator "!" && same_object loc condLoc then
                  (* Virtual node for `unless` condition:
                     node.condition.locationData = null *)
                  convertOperator (Op None operator first second) None
                                  operator first second (ancestors ++ [node])
                else convertChild condition
            | _ => convertChild condition
            end;;
          consequent <- convertChild body;;
          alternate <- convertOptional elseBody;;
          makeNode_some "Conditional" (locationOf node)
            [("condition", attr_of cond);
             ("consequent", attr_of consequent);
             ("alternate", attr_of alternate)]

      | Code _ bound body params =>
          body' <- convertOptional body;;
          parameters <- mapResult convertChild params;;
          makeNode_some (if bound then "BoundFunction" else "Function")
            (locationOf node)
            [("body", attr_of body'); ("parameters", ANodes parameters)]

      | Param _ name value =>
          param <- convertChild name;;
          match value with
          | Some value' =>
              default <- convertChild value';;
              makeNode_some "DefaultParam" (locationOf node)
                [("default", attr_of default); ("param", attr_of param)]
          | None => Ok param
          end

      | Block _ expressions =>
          match expressions with
          | [] => Ok None
          | _ :: _ =>
              stmts <- mapResult convertChild expressions;;
              makeNode_some "Block" (locationOf node)
                [("statements", ANodes stmts)]
          end

      | Bool _ val => convertBool (locationOf node) val

      | Null _ => makeNode_some "Null" (locationOf node) []

      | While _ condition body =>
          loc <- locationContainingNodes [node; condition; body];;
          cond <- convertChild condition;;
          body' <- convertChild body;;
          makeNode_some "While" loc
            [("condition", attr_of cond); ("body", attr_of body')]

      | Class _ variable body parent =>
          nameNode <- convertOptional variable;;
          bodyAndState <-
            match body with
            | None => Ok (None, mkClassState [] None [])
            | Some (Block _ []) => Ok (None, mkClassState [] None [])
            | Some (Block _ expressions as bodyNode) =>
                st <-
                  foldResult
                    (fun st expr =>
                       match expr with
                       | Value _ (Obj _ properties) _ =>
                           foldResult
                             (fun st property =>
                                keyAndValue <-
                                  match property with
                                  | Value _ _ _ =>
                                      (* shorthand property *)
                                      kv <- convert property
                                              (ancestors ++ [node]);;
                                      Ok (kv, kv)
                                  | Assign _ _ variable' value' =>
                                      k <- convert variable'
                                             (ancestors ++ [node]);;
                                      v <- convert value'
                                             (ancestors ++ [node]);;
                                      Ok (k, v)
                                  | Call _ variable' _ =>
                                      _ <- convert variable'
                                             (ancestors ++ [node]);;
                                      Err TypeError
                                  | Class _ (Some variable') _ _ =>
                                      _ <- convert variable'
                                             (ancestors ++ [node]);;
                                      Err TypeError
                                  | _ => Err TypeError
                                  end;;
                                classMember st (locationOf property)
                                  (fst keyAndValue) (snd keyAndValue))
                             properties st
                       | _ =>
                           s <- convert expr (ancestors ++ [node]);;
                           Ok (mkClassState (statements st ++ [s])
                                            (ctor st) (boundMembers st))
                       end)
                    expressions (mkClassState [] None []);;
                block <- makeNode (Some "Block") (locationOf bodyNode)
                           [("statements", ANodes (statements st))];;
                Ok (Some block, st)
            | Some _ => Err TypeError
            end;;
          parent' <- convertOptional parent;;
          makeNode_some "Class" (locationOf node)
            [("name", attr_of nameNode);
             ("nameAssignee", attr_of nameNode);
             ("body", attr_of (fst bodyAndState));
             ("boundMembers", ANodes (boundMembers (snd bodyAndState)));
             ("parent", attr_of parent');
             ("ctor", attr_of (ctor (snd bodyAndState)))]

      | Switch _ subject cases otherwise =>
          expression <- convertChild subject;;
          cases' <-
            mapResult
              (fun case : (CSNode + list CSNode) * CSNode =>
                 let (conditions, body) := case in
                 first <-
                   match conditions with
                   | inl c => Ok c
                   | inr (c :: _) => Ok c
                   | inr [] => Err TypeError
                   end;;
                 merged <- locationContainingNodes [first; body];;
                 loc <- expandLocationLeftThrough_nullable merged "when ";;
                 conds <-
                   match conditions with
                   | inl c =>
                       c' <- convert c (ancestors ++ [node]);;
                       Ok [c']
                   | inr cs => mapResult convertChild cs
                   end;;
                 consequent <- convert body (ancestors ++ [node]);;
                 makeNode_some "SwitchCase" loc
                   [("conditions", ANodes conds);
                    ("consequent", attr_of consequent)])
              cases;;
          alternate <- convertOptional otherwise;;
          makeNode_some "Switch" (locationOf node)
            [("expression", attr_of expression);
             ("cases", ANodes cases');
             ("alternate", attr_of alternate)]

      | Access _ _ | Index _ _ | Other _ _ =>
          Err (UnknownNodeType (type node) node)
      end
  end.

(** [parse(source)], given the tree [csParse(source)] returns. *)
Definition parse (tree : CSNode) : result (option Node) :=
  if JsString.length source =? 0 then
    Ok (Some (mkNode (Some "Program") (Some 1) (Some 1) (Some (0, 0)) false
                     (Some source) [("body", ANull)]))
  else convert tree [].

(** *** Vocabulary of the properties *)

(** The trees the node builder produces: a node returned by [makeNode] whose
    attribute nodes were produced in the same way. *)
Inductive Built : Node -> Prop :=
| Built_makeNode (nodeType : option string) (loc : option LocationData)
    (attributes : list (string * Attr Node)) (n : Node) :
    (forall c, In c (flat_map (fun kv => attr_children (snd kv)) attributes)
               -> Built c) ->
    makeNode nodeType loc attributes = Ok n ->
    Built n.

(** A node or null, where the node is a tree of built nodes. *)
Definition BuiltOption (o : option Node) : Prop :=
  forall n, o = Some n -> Built n.

(** A conversion that, when it returns a node, returns a tree of built
    nodes. *)
Definition BuiltResult (r : result (option Node)) : Prop :=
  forall o, r = Ok o -> BuiltOption o.

(** The accumulators of the [Class] case hold trees of built nodes. *)
Definition BuiltClassState (st : ClassState) : Prop :=
  Forall BuiltOption (statements st) /\
  BuiltOption (ctor st) /\
  Forall BuiltOption (boundMembers st).

(** [convert] reads its [ancestors] only to tell the root from the other
    nodes. *)
Definition ancestorsIrrelevant (node : CSNode) : Prop :=
  forall a anc b anc', convert node (a :: anc) = convert node (b :: anc').

(** Whatever [convert] returns for [node] is a tree of built nodes. *)
Definition convertsToBuilt (node : CSNode) : Prop :=
  forall ancestors, BuiltResult (convert node ancestors).

(** The span of a switch case in the words of the specification, to be
    compared with the span [convert] computes: the merge of the spans of all
    the conditions of the case and of the span of its body, then expanded to
    the left through "when ". *)
Definition specifiedCaseSpan (conditions : CSNode + list CSNode)
  (body : CSNode) : result (option LocationData) :=
  merged <- locationContainingNodes (conditionsOf conditions ++ [body]);;
  expandLocationLeftThrough_nullable merged "when ".

(** The conditions of a case are written between its first condition and
    its body: each condition after the first has location data, within the
    merge of the spans of the first condition and of the body. *)
Definition conditionsWithinCase (conditions : CSNode + list CSNode)
  (body : CSNode) : Prop :=
  forall first others firstLoc bodyLoc,
    conditionsOf conditions = first :: others ->
    locationOf first = Some firstLoc ->
    locationOf body = Some bodyLoc ->
    forall c, In c others ->
      exists l, locationOf c = Some l /\
                covers (mergeLocations firstLoc bodyLoc) l.

End Converter.

(** ** Vocabulary of the properties of converted trees *)

(** The operator of an operator node is one [convertOperator] has a case
    for. *)
Definition recognizedOperator (node : CSNode) : Prop :=
  match node with
  | Op _ operator _ (Some _) => binaryNodeType operator <> None
  | Op _ operator _ None => unaryNodeType operator <> None
  | _ => True
  end.

(** A tree of nodes that all have a type. *)
Inductive Typed : Node -> Prop :=
| Typed_intro (n : Node) :
    node_type n <> None -> (forall c, In c (children n) -> Typed c) ->
    Typed n.

Definition TypedOption (o : option Node) : Prop :=
  forall n, o = Some n -> Typed n.

Definition TypedResult (r : result (option Node)) : Prop :=
  forall o, r = Ok o -> TypedOption o.

Definition TypedClassState (st : ClassState) : Prop :=
  Forall TypedOption (statements st) /\
  TypedOption (ctor st) /\
  Forall TypedOption (boundMembers st).

(** Whatever [convert] returns for [node] is a tree of nodes that all have
    a type. *)
Definition convertsToTyped (parseLiteral : string -> option string)
  (JSON_parse : string -> option JsValue) (locations : LocStore)
  (source : string) (mapper : Mapper) (node : CSNode) : Prop :=
  forall ancestors,
    TypedResult
      (convert parseLiteral JSON_parse locations source mapper node ancestors).

(** ** A position mapper and sample trees *)

Fixpoint lineStarts (s : string) (pos : Z) : list Z :=
  match s with
  | EmptyString => []
  | String c s' =>
      if Ascii.eqb c "010"%char then (pos + 1) :: lineStarts s' (pos + 1)
      else lineStarts s' (pos + 1)
  end.

Fixpoint positionFrom (starts : list Z) (line start offset : Z) : Z * Z :=
  match starts with
  | next :: rest =>
      if next <=? offset then positionFrom rest (line + 1) next offset
      else (line, offset - start)
  | [] => (line, offset - start)
  end.

(** Modelled from the spec: the Position Mapper ([./util/lineColumnMapper]
    is imported by [parser.js] and is not part of it).  It converts between
    0-based (line, column) pairs and offsets into the source, in both
    directions: the offset of a position is the offset of the start of its
    line plus its column. *)
Definition lineColumnMapper (source : string) : Mapper :=
  let starts := 0 :: lineStarts source 0 in
  mkMapper
    (fun line column => nth (Z.to_nat line) starts 0 + column)
    (fun offset => positionFrom (lineStarts source 0) 0 0 offset).

(** A store holding the given objects at addresses 0, 1, ... *)
Definition storeOf (objects : list LocationData) : LocStore :=
  fun r => nth r objects (mkLoc 0 0 0 0).

(** Sample externals: decimal integers for [JSON.parse], and a literal
    classifier that takes every token for an identifier. *)
Definition sample_parseLiteral (value : string) : option string := None.

Fixpoint decimalValue (s : string) (acc : Z) : option Z :=
  match s with
  | EmptyString => Some acc
  | String c s' =>
      if is_digit c then
        decimalValue s' (10 * acc + Z.of_nat (nat_of_ascii c) - 48)
      else None
  end.

Definition sample_JSON_parse (text : string) : option JsValue :=
  if String.eqb text "true" then Some (JBool true)
  else if String.eqb text "false" then Some (JBool false)
  else match text with
       | EmptyString => None
       | _ => option_map (fun n => JNumber n 1%positive) (decimalValue text 0)
       end.

(** [convert] with the sample externals and the mapper of the source. *)
Notation sample_convert locations source :=
  (convert sample_parseLiteral sample_JSON_parse locations source
           (lineColumnMapper source)).

(** An identifier as the upstream parser gives it: a [Value] around a
    [Literal], with the same location data. *)
Definition identifier (loc : LocRef) (name : string) : CSNode :=
  Value (Some loc) (Literal (Some loc) name) [].

(** [a && b]: an operator outside the recognized set. *)
Definition and_source : string := "a && b".

Definition and_locations : LocStore :=
  storeOf [mkLoc 0 0 0 5; mkLoc 0 0 0 5; mkLoc 0 0 0 0; mkLoc 0 5 0 5].

Definition and_op : CSNode :=
  Op (Some 1%nat) "&&" (identifier 2%nat "a") (Some (identifier 3%nat "b")).

Definition and_tree : CSNode := Block (Some 0%nat) [and_op].

(** [b unless a]: upstream the conditional and the negation it makes of the
    condition hold the same location data object, here at address 1.
    Address 4 holds another object with the same coordinates, and address 5
    a span that stops before the condition. *)
Definition unless_source : string := "b unless a".

Definition unless_locations : LocStore :=
  storeOf [mkLoc 0 0 0 9; mkLoc 0 0 0 9; mkLoc 0 0 0 0; mkLoc 0 9 0 9;
           mkLoc 0 0 0 9; mkLoc 0 0 0 7].

Definition unless_operand : CSNode := identifier 3%nat "a".

Definition unless_body : CSNode := Block (Some 2%nat) [identifier 2%nat "b"].

(** The tree of [b unless a], the conditional and its negation holding the
    objects at the given addresses. *)
Definition unless_tree (loc condLoc : LocRef) : CSNode :=
  Block (Some 0%nat)
    [If (Some loc) (Op (Some condLoc) "!" unless_operand None)
        unless_body None].

(** A switch with two cases, the second with two conditions. *)
Definition switch_source : string :=
  String.append "switch x"
    (String "010"%char
       (String.append "  when 1 then y"
          (String "010"%char "  when 2, 3 then z"))).

Definition switch_locations : LocStore :=
  storeOf [mkLoc 0 0 2 17; mkLoc 0 7 0 7; mkLoc 1 7 1 7; mkLoc 1 14 1 14;
           mkLoc 2 7 2 7; mkLoc 2 10 2 10; mkLoc 2 17 2 17].

Definition switch_subject : CSNode := identifier 1%nat "x".

Definition switch_second_body : CSNode :=
  Block (Some 6%nat) [identifier 6%nat "z"].

Definition switch_cases (secondConditions : list CSNode)
  : list ((CSNode + list CSNode) * CSNode) :=
  [(inl (identifier 2%nat "1"), Block (Some 3%nat) [identifier 3%nat "y"]);
   (inr secondConditions, switch_second_body)].

(** The conditions of the second case as the source has them, and with a
    second condition whose location data lies in the first case. *)
Definition switch_conditions : list CSNode :=
  [identifier 4%nat "2"; identifier 5%nat "3"].

Definition switch_conditions_astray : list CSNode :=
  [identifier 4%nat "2"; identifier 2%nat "3"].

(** [a[b]]: the span of the indexed access ends before the bracket. *)
Definition index_source : string := "a[b]".

(** [a[b]]: upstream the span of the index property stops before the
    closing bracket. *)
Definition index_locations : LocStore :=
  storeOf [mkLoc 0 0 0 3; mkLoc 0 0 0 0; mkLoc 0 1 0 2; mkLoc 0 2 0 2].

(** [b while a]: the span of the loop starts at its keyword, after the
    body. *)
Definition while_source : string := "b while a".

Definition while_locations : LocStore :=
  storeOf [mkLoc 0 0 0 8; mkLoc 0 2 0 8; mkLoc 0 8 0 8; mkLoc 0 0 0 0].

(** [{a, b: c}]: an object with a shorthand member. *)
Definition object_source : string := "{a, b: c}".

Definition object_locations : LocStore :=
  storeOf [mkLoc 0 0 0 8; mkLoc 0 1 0 1; mkLoc 0 4 0 7; mkLoc 0 4 0 4;
           mkLoc 0 7 0 7].

Definition object_properties : list CSNode :=
  [identifier 1%nat "a";
   Assign (Some 2%nat) (Some "object") (identifier 3%nat "b")
          (identifier 4%nat "c")].

(** [[a, b]] *)
Definition array_source : string := "[a, b]".

Definition array_locations : LocStore :=
  storeOf [mkLoc 0 0 0 5; mkLoc 0 1 0 1; mkLoc 0 4 0 4].

(** [[a...]]: the splat is of a class [convert] has no case for. *)
Definition splat_source : string := "[a...]".

Definition splat : CSNode := Other (Some 1%nat) "Splat".

(** A class with a constructor and a bound method. *)
Definition class_source : string :=
  String.append "class A"
    (String "010"%char
       (String.append "  constructor: -> a"
          (String "010"%char "  b: => c"))).

Definition class_locations : LocStore :=
  storeOf [mkLoc 0 0 2 8; mkLoc 0 6 0 6; mkLoc 1 2 2 8;
           mkLoc 1 2 1 18; mkLoc 1 2 1 12; mkLoc 1 15 1 18; mkLoc 1 18 1 18;
           mkLoc 2 2 2 8; mkLoc 2 2 2 2; mkLoc 2 5 2 8; mkLoc 2 8 2 8].

Definition class_members : list CSNode :=
  [Assign (Some 3%nat) (Some "object") (identifier 4%nat "constructor")
     (Code (Some 5%nat) false
           (Some (Block (Some 6%nat) [identifier 6%nat "a"])) []);
   Assign (Some 7%nat) (Some "object") (identifier 8%nat "b")
     (Code (Some 9%nat) true
           (Some (Block (Some 10%nat) [identifier 10%nat "c"])) [])].

Definition class_body : CSNode :=
  Block (Some 2%nat)
    [Value (Some 2%nat) (Obj (Some 2%nat) class_members) []].

(** [a + b]: an operator of the recognized set. *)
Definition plus_source : string := "a + b".

Definition plus_locations : LocStore :=
  storeOf [mkLoc 0 0 0 4; mkLoc 0 0 0 0; mkLoc 0 4 0 4].

(** * Properties *)

(** ** The primitives on examples *)

Example slice_mid : JsString.slice "switch x" 1 4 = "wit".
Proof. reflexivity. Qed.

Example slice_negative_end : JsString.slice "switch x" 0 (-2) = "switch".
Proof. reflexivity. Qed.

Example indexOf_found : JsString.indexOf "a[b][c]" "]" 4 = 6.
Proof. reflexivity. Qed.

Example indexOf_missing : JsString.indexOf "a[b][c]" "]" 7 = -1.
Proof. reflexivity. Qed.

Example indexOf_empty_past_end : JsString.indexOf "abc" "" 10 = 3.
Proof. reflexivity. Qed.

Example lastIndexOf_found : JsString.lastIndexOf "when a when b" "when " 9 = 7.
Proof. reflexivity. Qed.

Example lastIndexOf_before : JsString.lastIndexOf "when a when b" "when " 6 = 0.
Proof. reflexivity. Qed.

Example lastIndexOf_missing : JsString.lastIndexOf "x when b" "when " 1 = -1.
Proof. reflexivity. Qed.

Example looks_numeric_int : looks_numeric "42" = true.
Proof. reflexivity. Qed.

Example looks_numeric_fraction : looks_numeric ".5" = true.
Proof. reflexivity. Qed.

Example looks_numeric_identifier : looks_numeric "a1" = false.
Proof. reflexivity. Qed.

Example lineColumnMapper_offset :
  offsetOf (lineColumnMapper switch_source) 2 7 = 32.
Proof. reflexivity. Qed.

Example lineColumnMapper_invert :
  invert (lineColumnMapper switch_source) 27 = (2, 2).
Proof. reflexivity. Qed.


(** ** The location algebra *)

Lemma pos_ltb_spec (p q : Z * Z) : pos_ltb p q = true <-> pos_lt p q.
Proof.
  unfold pos_ltb, pos_lt.
  rewrite orb_true_iff, andb_true_iff, Z.ltb_lt, Z.eqb_eq, Z.ltb_lt.
  tauto.
Qed.

Lemma pos_ltb_false (p q : Z * Z) : pos_ltb p q = false <-> pos_le q p.
Proof.
  unfold pos_ltb, pos_le, pos_lt. destruct p as [a b], q as [c d]; simpl.
  rewrite orb_false_iff, andb_false_iff, Z.ltb_ge, Z.eqb_neq, Z.ltb_ge.
  split.
  - intros [H1 [H2 | H2]].
    + left. lia.
    + destruct (Z.eq_dec a c) as [-> | Hac];
        [destruct (Z.eq_dec b d) as [-> | Hbd] |].
      * now right.
      * left. lia.
      * left. lia.
  - intros [H | H].
    + lia.
    + injection H as -> ->. lia.
Qed.

Lemma mergeLocations_fields (left right : LocationData) :
  mergeLocations left right =
  let first :=
    if first_line left <? first_line right then
      (first_line left, first_column left)
    else if first_line left >? first_line right then
      (first_line right, first_column right)
    else if first_column left <? first_column right then
      (first_line left, first_column left)
    else
      (first_line right, first_column right) in
  let last :=
    if last_line left <? last_line right then
      (last_line right, last_column right)
    else if last_line left >? last_line right then
      (last_line left, last_column left)
    else if last_column left <? last_column right then
      (last_line right, last_column right)
    else
      (last_line left, last_column left) in
  mkLoc (fst first) (snd first) (fst last) (snd last).
Proof.
  unfold mergeLocations.
  repeat match goal with
         | |- context [if ?c then _ else _] => destruct c
         end; reflexivity.
Qed.

(** [mergeLocations] takes the earlier start and the later end. *)
Lemma mergeLocations_earlier_later (a b : LocationData) :
  startOf (mergeLocations a b) = earlier (startOf a) (startOf b) /\
  endOf (mergeLocations a b) = later (endOf a) (endOf b).
Proof.
  rewrite mergeLocations_fields.
  unfold startOf, endOf, earlier, later, pos_ltb; simpl.
  destruct a as [al ac al' ac'], b as [bl bc bl' bc']; simpl.
  split.
  - destruct (al <? bl) eqn:E1; simpl; [reflexivity |].
    destruct (al >? bl) eqn:E2; simpl.
    + rewrite Z.gtb_ltb in E2. apply Z.ltb_lt in E2.
      assert (H : (al =? bl) = false) by (apply Z.eqb_neq; lia).
      now rewrite H.
    + apply Z.ltb_ge in E1. rewrite Z.gtb_ltb in E2. apply Z.ltb_ge in E2.
      assert (H : (al =? bl) = true) by (apply Z.eqb_eq; lia).
      rewrite H; simpl. now destruct (ac <? bc).
  - destruct (al' <? bl') eqn:E1; simpl; [reflexivity |].
    destruct (al' >? bl') eqn:E2; simpl.
    + rewrite Z.gtb_ltb in E2. apply Z.ltb_lt in E2.
      assert (H : (al' =? bl') = false) by (apply Z.eqb_neq; lia).
      now rewrite H.
    + apply Z.ltb_ge in E1. rewrite Z.gtb_ltb in E2. apply Z.ltb_ge in E2.
      assert (H : (al' =? bl') = true) by (apply Z.eqb_eq; lia).
      rewrite H; simpl. now destruct (ac' <? bc').
Qed.

Lemma location_eq (a b : LocationData) :
  startOf a = startOf b -> endOf a = endOf b -> a = b.
Proof.
  destruct a, b; unfold startOf, endOf; simpl.
  intros H1 H2. injection H1 as -> ->. injection H2 as -> ->. reflexivity.
Qed.

Lemma pos_le_refl (p : Z * Z) : pos_le p p.
Proof. now right. Qed.

Lemma pos_le_trans (p q r : Z * Z) : pos_le p q -> pos_le q r -> pos_le p r.
Proof.
  unfold pos_le, pos_lt. destruct p, q, r; simpl.
  intros [H1 | H1] [H2 | H2]; try injection H1 as -> ->;
    try injection H2 as -> ->; auto; left; lia.
Qed.

Lemma pos_lt_le (p q : Z * Z) : pos_lt p q -> pos_le p q.
Proof. now left. Qed.

Lemma pos_le_antisym (p q : Z * Z) : pos_le p q -> pos_le q p -> p = q.
Proof.
  unfold pos_le, pos_lt. destruct p, q; simpl.
  intros [H1 | H1] [H2 | H2]; auto; try (f_equal; lia).
Qed.

Lemma earlier_le_l (p q : Z * Z) : pos_le (earlier p q) p.
Proof.
  unfold earlier. destruct (pos_ltb p q) eqn:E.
  - apply pos_le_refl.
  - apply pos_ltb_false, E.
Qed.

Lemma earlier_le_r (p q : Z * Z) : pos_le (earlier p q) q.
Proof.
  unfold earlier. destruct (pos_ltb p q) eqn:E.
  - apply pos_lt_le, pos_ltb_spec, E.
  - apply pos_le_refl.
Qed.

Lemma earlier_greatest (p q r : Z * Z) :
  pos_le r p -> pos_le r q -> pos_le r (earlier p q).
Proof. unfold earlier. now destruct (pos_ltb p q). Qed.

Lemma later_ge_l (p q : Z * Z) : pos_le p (later p q).
Proof.
  unfold later. destruct (pos_ltb p q) eqn:E.
  - apply pos_lt_le, pos_ltb_spec, E.
  - apply pos_le_refl.
Qed.

Lemma later_ge_r (p q : Z * Z) : pos_le q (later p q).
Proof.
  unfold later. destruct (pos_ltb p q) eqn:E.
  - apply pos_le_refl.
  - apply pos_ltb_false, E.
Qed.

Lemma later_least (p q r : Z * Z) :
  pos_le p r -> pos_le q r -> pos_le (later p q) r.
Proof. unfold later. now destruct (pos_ltb p q). Qed.

Create HintDb spans.

#[local] Hint Resolve pos_le_refl earlier_le_l earlier_le_r earlier_greatest
  later_ge_l later_ge_r later_least : spans.

Lemma earlier_comm (p q : Z * Z) : earlier p q = earlier q p.
Proof. apply pos_le_antisym; auto with spans. Qed.

Lemma later_comm (p q : Z * Z) : later p q = later q p.
Proof. apply pos_le_antisym; auto with spans. Qed.

Lemma earlier_assoc (p q r : Z * Z) :
  earlier p (earlier q r) = earlier (earlier p q) r.
Proof.
  assert (Hq : pos_le (earlier p (earlier q r)) q)
    by (apply pos_le_trans with (earlier q r); auto with spans).
  assert (Hr : pos_le (earlier p (earlier q r)) r)
    by (apply pos_le_trans with (earlier q r); auto with spans).
  assert (Hp : pos_le (earlier (earlier p q) r) p)
    by (apply pos_le_trans with (earlier p q); auto with spans).
  assert (Hq' : pos_le (earlier (earlier p q) r) q)
    by (apply pos_le_trans with (earlier p q); auto with spans).
  apply pos_le_antisym; auto with spans.
Qed.

Lemma later_assoc (p q r : Z * Z) :
  later p (later q r) = later (later p q) r.
Proof.
  assert (Hq : pos_le q (later p (later q r)))
    by (apply pos_le_trans with (later q r); auto with spans).
  assert (Hr : pos_le r (later p (later q r)))
    by (apply pos_le_trans with (later q r); auto with spans).
  assert (Hp : pos_le p (later (later p q) r))
    by (apply pos_le_trans with (later p q); auto with spans).
  assert (Hq' : pos_le q (later (later p q) r))
    by (apply pos_le_trans with (later p q); auto with spans).
  apply pos_le_antisym; auto with spans.
Qed.

Lemma mergeLocations_assoc (a b c : LocationData) :
  mergeLocations a (mergeLocations b c) = mergeLocations (mergeLocations a b) c.
Proof.
  apply location_eq.
  - rewrite !(proj1 (mergeLocations_earlier_later _ _)). apply earlier_assoc.
  - rewrite !(proj2 (mergeLocations_earlier_later _ _)). apply later_assoc.
Qed.

(** C6: for all spans [a] and [b], [mergeLocations a b] is the smallest span
    covering both.  Its start is the lexicographically earlier of the two
    starts, and the second operand's when neither is earlier; its end is the
    lexicographically later of the two ends, and the first operand's when
    neither is later.  It covers [a] and [b], and every span that covers
    both covers it. *)
Theorem mergeLocations_smallest_cover (a b : LocationData) :
  startOf (mergeLocations a b)
    = (if pos_ltb (startOf a) (startOf b) then startOf a else startOf b) /\
  endOf (mergeLocations a b)
    = (if pos_ltb (endOf a) (endOf b) then endOf b else endOf a) /\
  covers (mergeLocations a b) a /\
  covers (mergeLocations a b) b /\
  (forall s, covers s a -> covers s b -> covers s (mergeLocations a b)).
Proof.
  destruct (mergeLocations_earlier_later a b) as [Hs He].
  split; [exact Hs |]. split; [exact He |].
  unfold covers. rewrite Hs, He.
  repeat split; auto with spans.
  - destruct H as [H _], H0 as [H0 _]. auto with spans.
  - destruct H as [_ H], H0 as [_ H0]. auto with spans.
Qed.

(** On two spans of one line: the second covers both, so it covers their
    merge. *)
Lemma mergeLocations_smallest_cover_witness :
  let a := mkLoc 1 7 1 7 in
  let b := mkLoc 1 4 1 9 in
  covers b a /\ covers b b /\ covers b (mergeLocations a b).
Proof.
  intros a b.
  assert (Ha : covers b a).
  { split; [left; right; simpl; lia | left; right; simpl; lia]. }
  assert (Hb : covers b b) by (split; apply pos_le_refl).
  split; [exact Ha |]. split; [exact Hb |].
  exact (proj2 (proj2 (proj2 (proj2 (mergeLocations_smallest_cover a b))))
           b Ha Hb).
Defined.

(** C9: [mergeLocations] is commutative on the values of spans. *)
Theorem mergeLocations_comm (a b : LocationData) :
  mergeLocations a b = mergeLocations b a.
Proof.
  apply location_eq.
  - rewrite !(proj1 (mergeLocations_earlier_later _ _)). apply earlier_comm.
  - rewrite !(proj2 (mergeLocations_earlier_later _ _)). apply later_comm.
Qed.

Section LocationContainingNodes.

Variable locations : LocStore.

Lemma locationContainingNodes_cons (n0 n1 : CSNode) (rest : list CSNode) :
  locationContainingNodes locations (n0 :: n1 :: rest) =
  (inner <- locationContainingNodes locations (n1 :: rest);;
   mergeLocations_nullable (locationOf locations n0) inner).
Proof. destruct rest; reflexivity. Qed.

Lemma fold_left_mergeLocations_shift (ls : list LocationData)
  (a b : LocationData) :
  mergeLocations a (fold_left mergeLocations ls b)
  = fold_left mergeLocations ls (mergeLocations a b).
Proof.
  revert b. induction ls as [| c ls IH]; intros b; simpl.
  - reflexivity.
  - rewrite IH. now rewrite mergeLocations_assoc.
Qed.

(** C7: [locationContainingNodes] returns null for no node and the location
    data of the node, unchanged, for one node; for nodes that all have
    location data it returns the left fold of [mergeLocations] over their
    spans in order (for two nodes this is their merge, and for more than two
    the nested merges the code makes from the right give the same span). *)
Theorem locationContainingNodes_left_fold :
  locationContainingNodes locations [] = Ok None /\
  (forall n, locationContainingNodes locations [n]
             = Ok (locationOf locations n)) /\
  (forall n0 rest l0 ls,
      locationOf locations n0 = Some l0 ->
      map (locationOf locations) rest = map Some ls ->
      locationContainingNodes locations (n0 :: rest)
      = Ok (Some (fold_left mergeLocations ls l0))).
Proof.
  split; [reflexivity |]. split; [reflexivity |].
  intros n0 rest. revert n0.
  induction rest as [| n1 rest IH]; intros n0 l0 ls H0 Hrest.
  - destruct ls; [| discriminate]. simpl. now rewrite H0.
  - destruct ls as [| l1 ls]; [discriminate |].
    simpl in Hrest. injection Hrest as H1 Hrest.
    rewrite locationContainingNodes_cons.
    rewrite (IH n1 l1 ls H1 Hrest). simpl.
    rewrite H0. simpl.
    now rewrite fold_left_mergeLocations_shift.
Qed.

End LocationContainingNodes.

(** On four nodes. *)
Lemma locationContainingNodes_left_fold_witness :
  let locations :=
    storeOf [mkLoc 2 2 2 8; mkLoc 2 8 2 13; mkLoc 3 4 3 9; mkLoc 2 0 2 1] in
  let nodes := [Null (Some 0%nat); Null (Some 1%nat); Null (Some 2%nat);
                Null (Some 3%nat)] in
  locationContainingNodes locations nodes = Ok (Some (mkLoc 2 0 3 9)).
Proof.
  intros locations nodes.
  exact (proj2 (proj2 (locationContainingNodes_left_fold locations))
           (Null (Some 0%nat))
           [Null (Some 1%nat); Null (Some 2%nat); Null (Some 3%nat)]
           (mkLoc 2 2 2 8)
           [mkLoc 2 8 2 13; mkLoc 3 4 3 9; mkLoc 2 0 2 1]
           eq_refl eq_refl).
Defined.

(** ** The node builder *)

Section NodeBuilder.

Variable source : string.
Variable mapper : Mapper.

Lemma expandRange_grows (rng : Z * Z) (child : Node) :
  fst (expandRange rng child) <= fst rng /\
  snd rng <= snd (expandRange rng child).
Proof.
  unfold expandRange. destruct (range child) as [[c0 c1] |]; simpl.
  - destruct (fst rng >? c0) eqn:E0, (snd rng <? c1) eqn:E1;
      rewrite ?Z.gtb_ltb in E0;
      rewrite ?Z.ltb_lt, ?Z.ltb_ge in E0, E1; lia.
  - lia.
Qed.

Lemma expandRange_contains (rng : Z * Z) (child : Node) (c0 c1 : Z) :
  range child = Some (c0, c1) ->
  fst (expandRange rng child) <= c0 /\ c1 <= snd (expandRange rng child).
Proof.
  unfold expandRange. intros ->; simpl.
  destruct (fst rng >? c0) eqn:E0, (snd rng <? c1) eqn:E1;
    rewrite ?Z.gtb_ltb in E0;
    rewrite ?Z.ltb_lt, ?Z.ltb_ge in E0, E1; lia.
Qed.

Lemma expandRangeAll_grows (l : list (option Node)) (rng rng' : Z * Z) :
  expandRangeAll rng l = Ok rng' ->
  fst rng' <= fst rng /\ snd rng <= snd rng'.
Proof.
  revert rng. induction l as [| [c |] l IH]; intros rng H; simpl in H.
  - injection H as <-. lia.
  - apply IH in H. pose proof (expandRange_grows rng c). lia.
  - discriminate.
Qed.

Lemma expandRangeAll_contains (l : list (option Node)) (rng rng' : Z * Z)
  (child : Node) (c0 c1 : Z) :
  expandRangeAll rng l = Ok rng' ->
  In (Some child) l ->
  range child = Some (c0, c1) ->
  fst rng' <= c0 /\ c1 <= snd rng'.
Proof.
  revert rng. induction l as [| [c |] l IH]; intros rng H Hin Hr; simpl in H.
  - destruct Hin.
  - destruct Hin as [Heq | Hin].
    + injection Heq as ->.
      apply expandRangeAll_grows in H.
      pose proof (expandRange_contains rng child c0 c1 Hr). lia.
    + eapply IH; eauto.
  - discriminate.
Qed.

Lemma attr_children_ANodes (l : list (option Node)) (child : Node) :
  In child (attr_children (ANodes l)) <-> In (Some child) l.
Proof.
  simpl. rewrite in_flat_map. split.
  - intros [[c |] [Hin Hc]]; simpl in Hc; [| destruct Hc].
    destruct Hc as [-> | []]. exact Hin.
  - intros Hin. exists (Some child). split; [exact Hin | now left].
Qed.

Lemma expandRangeForAttr_grows (value : Attr Node) (rng rng' : Z * Z) :
  expandRangeForAttr rng value = Ok rng' ->
  fst rng' <= fst rng /\ snd rng <= snd rng'.
Proof.
  destruct value; simpl; intros H; try (injection H as <-; lia).
  - injection H as <-. apply expandRange_grows.
  - now apply expandRangeAll_grows in H.
Qed.

Lemma expandRangeForAttr_contains (value : Attr Node) (rng rng' : Z * Z)
  (child : Node) (c0 c1 : Z) :
  expandRangeForAttr rng value = Ok rng' ->
  In child (attr_children value) ->
  range child = Some (c0, c1) ->
  fst rng' <= c0 /\ c1 <= snd rng'.
Proof.
  destruct value; intros H Hin Hr; try (now destruct Hin).
  - simpl in H, Hin. destruct Hin as [-> | []]. injection H as <-.
    now apply expandRange_contains.
  - apply attr_children_ANodes in Hin. simpl in H.
    eapply expandRangeAll_contains; eauto.
Qed.

Lemma expandRangeForAttrs_grows (l : list (string * Attr Node))
  (rng rng' : Z * Z) :
  expandRangeForAttrs rng l = Ok rng' ->
  fst rng' <= fst rng /\ snd rng <= snd rng'.
Proof.
  revert rng. induction l as [| [key value] l IH]; intros rng H; simpl in H.
  - injection H as <-. lia.
  - destruct (expandRangeForAttr rng value) as [rng1 |] eqn:E; simpl in H;
      [| discriminate].
    apply IH in H. apply expandRangeForAttr_grows in E. lia.
Qed.

Lemma expandRangeForAttrs_contains (l : list (string * Attr Node))
  (rng rng' : Z * Z) (child : Node) (c0 c1 : Z) :
  expandRangeForAttrs rng l = Ok rng' ->
  In child (flat_map (fun kv => attr_children (snd kv)) l) ->
  range child = Some (c0, c1) ->
  fst rng' <= c0 /\ c1 <= snd rng'.
Proof.
  revert rng. induction l as [| [key value] l IH]; intros rng H Hin Hr;
    simpl in H, Hin.
  - destruct Hin.
  - destruct (expandRangeForAttr rng value) as [rng1 |] eqn:E; simpl in H;
      [| discriminate].
    apply in_app_or in Hin. destruct Hin as [Hin | Hin].
    + pose proof (expandRangeForAttr_contains _ _ _ _ _ _ E Hin Hr).
      apply expandRangeForAttrs_grows in H. lia.
    + eapply IH; eauto.
Qed.

Lemma shrinkRange_within (rng : Z * Z) :
  0 <= fst (shrinkRange source rng) /\
  snd (shrinkRange source rng) <= JsString.length source.
Proof.
  unfold shrinkRange; simpl.
  destruct (fst rng <? 0) eqn:E0, (snd rng >? JsString.length source) eqn:E1;
    rewrite ?Z.gtb_ltb in E1;
    rewrite ?Z.ltb_lt, ?Z.ltb_ge in E0, E1; lia.
Qed.

Lemma shrinkRange_contains (rng : Z * Z) (c0 c1 : Z) :
  0 <= c0 -> c1 <= JsString.length source ->
  fst rng <= c0 -> c1 <= snd rng ->
  fst (shrinkRange source rng) <= c0 /\ c1 <= snd (shrinkRange source rng).
Proof.
  unfold shrinkRange; simpl.
  destruct (fst rng <? 0) eqn:E0, (snd rng >? JsString.length source) eqn:E1;
    rewrite ?Z.gtb_ltb in E1;
    rewrite ?Z.ltb_lt, ?Z.ltb_ge in E0, E1; lia.
Qed.

(** What [makeNode] returns. *)
Lemma makeNode_inv (nodeType : option string) (loc : option LocationData)
  (attributes : list (string * Attr Node)) (n : Node) :
  makeNode source mapper nodeType loc attributes = Ok n ->
  node_type n = nodeType /\ attrs n = attributes /\
  match loc with
  | None =>
      virtual n = true /\ line n = None /\ column n = None /\
      range n = None /\ raw n = None
  | Some l =>
      exists rng,
        expandRangeForAttrs
          (offsetOf mapper (first_line l) (first_column l),
           offsetOf mapper (last_line l) (last_column l) + 1) attributes
        = Ok rng /\
        virtual n = false /\
        line n = Some (first_line l + 1) /\
        column n = Some (first_column l + 1) /\
        range n = Some (shrinkRange source rng) /\
        raw n = Some (JsString.slice source (fst (shrinkRange source rng))
                                     (snd (shrinkRange source rng)))
  end.
Proof.
  unfold makeNode. destruct loc as [l |].
  - destruct (expandRangeForAttrs _ attributes) as [rng |] eqn:E; simpl;
      [| discriminate].
    intros H. injection H as <-. simpl.
    split; [reflexivity |]. split; [reflexivity |].
    exists rng. repeat split; reflexivity.
  - intros H. injection H as <-. simpl. repeat split; reflexivity.
Qed.

Lemma makeNode_virtual_iff (nodeType : option string)
  (loc : option LocationData) (attributes : list (string * Attr Node))
  (n : Node) :
  makeNode source mapper nodeType loc attributes = Ok n ->
  (virtual n = true <-> range n = None) /\ (virtual n = true <-> loc = None).
Proof.
  intros H. apply makeNode_inv in H. destruct H as (_ & _ & H).
  destruct loc as [l |].
  - destruct H as (rng & _ & Hv & _ & _ & Hr & _). rewrite Hv, Hr.
    split; split; discriminate.
  - destruct H as (Hv & _ & _ & Hr & _). rewrite Hv, Hr.
    split; split; reflexivity.
Qed.

(** A node with a range has its range and its raw text within the source. *)
Lemma makeNode_raw (nodeType : option string) (loc : option LocationData)
  (attributes : list (string * Attr Node)) (n : Node) :
  makeNode source mapper nodeType loc attributes = Ok n ->
  virtual n = false ->
  exists a b,
    range n = Some (a, b) /\
    raw n = Some (JsString.slice source a b) /\
    0 <= a /\ b <= JsString.length source.
Proof.
  intros H Hv. apply makeNode_inv in H. destruct H as (_ & _ & H).
  destruct loc as [l |].
  - destruct H as (rng & _ & _ & _ & _ & Hr & Hraw).
    exists (fst (shrinkRange source rng)), (snd (shrinkRange source rng)).
    rewrite Hr, Hraw. rewrite <- surjective_pairing.
    repeat split; apply shrinkRange_within.
  - destruct H as (Hv' & _). congruence.
Qed.

Lemma Built_inv (n : Node) :
  Built source mapper n ->
  (exists nodeType loc,
      makeNode source mapper nodeType loc (attrs n) = Ok n) /\
  (forall c, In c (children n) -> Built source mapper c).
Proof.
  intros [nodeType loc attributes n' Hc H].
  pose proof (makeNode_inv _ _ _ _ H) as (_ & Ha & _).
  unfold children. rewrite Ha. split; [| exact Hc].
  now exists nodeType, loc.
Qed.

Lemma Built_descendant (n d : Node) :
  Built source mapper n -> descendant n d -> Built source mapper d.
Proof.
  intros Hn Hd. induction Hd as [p c Hin | p c d Hin _ IH].
  - now apply (proj2 (Built_inv p Hn)).
  - apply IH. now apply (proj2 (Built_inv p Hn)).
Qed.

Lemma Built_raw (n : Node) :
  Built source mapper n ->
  virtual n = false ->
  exists a b,
    range n = Some (a, b) /\
    raw n = Some (JsString.slice source a b) /\
    0 <= a /\ b <= JsString.length source.
Proof.
  intros Hn. destruct (Built_inv n Hn) as [(nodeType & loc & H) _].
  now apply makeNode_raw with nodeType loc (attrs n).
Qed.

Lemma Built_range_within (n : Node) (a b : Z) :
  Built source mapper n ->
  range n = Some (a, b) ->
  0 <= a /\ b <= JsString.length source.
Proof.
  intros Hn Hr. destruct (Built_inv n Hn) as [(nodeType & loc & H) _].
  pose proof (makeNode_virtual_iff _ _ _ _ H) as [Hv _].
  assert (Hnv : virtual n = false).
  { destruct (virtual n); [| reflexivity].
    rewrite (proj1 Hv eq_refl) in Hr. discriminate. }
  destruct (makeNode_raw _ _ _ _ H Hnv) as (a' & b' & Hr' & _ & H0 & H1).
  rewrite Hr in Hr'. injection Hr' as -> ->. now split.
Qed.

(** The range of a built node contains the range of each of its
    children. *)
Lemma Built_contains_child (p c : Node) :
  Built source mapper p ->
  range p <> None ->
  In c (children p) ->
  range c <> None ->
  rangeContains p c.
Proof.
  intros Hp Hrp Hin Hrc.
  destruct (Built_inv p Hp) as [(nodeType & loc & H) Hch].
  pose proof (Hch c Hin) as Hc.
  unfold rangeContains.
  destruct (range c) as [[c0 c1] |] eqn:Ec; [| congruence].
  destruct (Built_range_within c c0 c1 Hc Ec) as [H0 H1].
  pose proof (makeNode_inv _ _ _ _ H) as (_ & _ & Hloc).
  destruct loc as [l |].
  - destruct Hloc as (rng & Hrng & _ & _ & _ & Hr & _).
    rewrite Hr.
    pose proof (expandRangeForAttrs_contains _ _ _ c c0 c1 Hrng Hin Ec)
      as [Hlo Hhi].
    pose proof (shrinkRange_contains rng c0 c1 H0 H1 Hlo Hhi) as [G0 G1].
    destruct (shrinkRange source rng) as [s0 s1]. simpl in G0, G1.
    now split.
  - destruct Hloc as (_ & _ & _ & Hr & _). congruence.
Qed.

Lemma rangeContains_trans (a b c : Node) :
  rangeContains a b -> rangeContains b c -> rangeContains a c.
Proof.
  unfold rangeContains.
  destruct (range a) as [[a0 a1] |], (range b) as [[b0 b1] |],
    (range c) as [[c0 c1] |]; try tauto. lia.
Qed.

(** C5: every non-virtual node the node builder produces has
    [raw = source.slice(range[0], range[1])] with [0 <= range[0]] and
    [range[1] <= source.length].  The builder stores the attributes it is
    given as they are, so the same holds, unchanged, for every node of a
    tree of built nodes. *)
Theorem makeNode_raw_slice_exact :
  (forall nodeType loc attributes n,
      makeNode source mapper nodeType loc attributes = Ok n ->
      attrs n = attributes /\
      (virtual n = false ->
       exists a b,
         range n = Some (a, b) /\
         raw n = Some (JsString.slice source a b) /\
         0 <= a /\ b <= JsString.length source)) /\
  (forall n d,
      Built source mapper n ->
      d = n \/ descendant n d ->
      virtual d = false ->
      exists a b,
        range d = Some (a, b) /\
        raw d = Some (JsString.slice source a b) /\
        0 <= a /\ b <= JsString.length source).
Proof.
  split.
  - intros nodeType loc attributes n H. split.
    + apply (makeNode_inv _ _ _ _ H).
    + now apply makeNode_raw with nodeType loc attributes.
  - intros n d Hn [-> | Hd].
    + now apply Built_raw.
    + apply Built_raw. now apply Built_descendant with n.
Qed.


End NodeBuilder.

(** ** The converter *)

(** *** Results, maps and folds *)

(** Two computations that agree step by step are equal. *)
Lemma bind_ext {A B : Type} (m m' : result A) (k k' : A -> result B) :
  m = m' -> (forall x, k x = k' x) -> bind m k = bind m' k'.
Proof. intros -> H. destruct m'; simpl; [apply H | reflexivity]. Qed.

(** The hypotheses of the induction principle of [CSNode], read as
    statements about the members of a list or an option. *)
Lemma list_all_In {A : Type} (P : A -> Prop) (l : list A) :
  list_all A P l -> forall x, In x l -> P x.
Proof.
  induction 1 as [| a Ha l Hl IH]; intros x Hin.
  - destruct Hin.
  - destruct Hin as [<- | Hin]; [exact Ha | now apply IH].
Qed.

Lemma option_all_In (P : CSNode -> Prop) (o : option CSNode) :
  option_all CSNode P o -> forall x, In x (optionalNode o) -> P x.
Proof.
  intros [a Ha |] x Hin; simpl in Hin.
  - destruct Hin as [<- | []]. exact Ha.
  - destruct Hin.
Qed.

Lemma mapResult_ext_in {A B : Type} (f g : A -> result B) (l : list A) :
  (forall x, In x l -> f x = g x) -> mapResult f l = mapResult g l.
Proof.
  induction l as [| x l IH]; intros H; simpl.
  - reflexivity.
  - rewrite (H x (or_introl eq_refl)). apply bind_ext; [reflexivity |].
    intros y. rewrite IH; [reflexivity |]. intros z Hz. apply H. now right.
Qed.

Lemma foldResult_ext_in {A S : Type} (f g : S -> A -> result S) (l : list A) :
  (forall s x, In x l -> f s x = g s x) ->
  forall s, foldResult f l s = foldResult g l s.
Proof.
  induction l as [| x l IH]; intros H s; simpl.
  - reflexivity.
  - rewrite (H s x (or_introl eq_refl)). apply bind_ext; [reflexivity |].
    intros s'. apply IH. intros s0 z Hz. apply H. now right.
Qed.

Lemma Deep_here (P : CSNode -> Prop) (n : CSNode) : Deep P n -> P n.
Proof. now intros []. Qed.

(** Case analysis on a membership in a list given by its elements. *)
Ltac split_In :=
  repeat match goal with
         | Hc : In _ (_ :: _) |- _ => destruct Hc as [<- | Hc]
         | Hc : In _ [] |- _ => destruct Hc
         | Hc : In _ (_ ++ _) |- _ =>
             apply in_app_or in Hc; destruct Hc as [Hc | Hc]
         end.

(** Closes a goal about a member of a list or option of nodes from the
    induction hypothesis for that list or option. *)
Ltac from_all :=
  match goal with
  | H : list_all _ _ ?l, Hc : In _ ?l |- _ => exact (list_all_In _ _ H _ Hc)
  | H : option_all _ _ ?o, Hc : In _ (optionalNode ?o) |- _ =>
      exact (option_all_In _ _ H _ Hc)
  end.

Lemma cases_all_In (P : CSNode -> Prop)
  (cases : list ((CSNode + list CSNode) * CSNode)) :
  list_all _ (prod_all _ (sum_all _ P _ (list_all _ P)) _ P) cases ->
  forall conds body c,
    In (conds, body) cases -> In c (conditionsOf conds ++ [body]) -> P c.
Proof.
  induction 1 as [| case Hcase cases Hcases IH]; intros conds body c Hin Hc.
  - destruct Hin.
  - destruct Hin as [-> | Hin]; [| now apply IH with conds body].
    inversion Hcase as [conds' Hconds body' Hbody]; subst.
    apply in_app_or in Hc. destruct Hc as [Hc | [<- | []]]; [| exact Hbody].
    inversion Hconds as [c' Hc' | cs Hcs]; subst; simpl in Hc.
    + destruct Hc as [<- | []]. exact Hc'.
    + now apply (list_all_In _ _ Hcs).
Qed.

(** Induction over upstream nodes with the property available for every
    node below the current one, not only for its direct fields: [convert]
    reads fields of fields (the index of an [Index] property, the members of
    an object in a class body). *)
Lemma CSNode_deep_ind (P : CSNode -> Prop) :
  (forall n, (forall c, In c (csChildren n) -> Deep P c) -> P n) ->
  forall n, Deep P n.
Proof.
  intros step.
  assert (close : forall n,
             (forall c, In c (csChildren n) -> Deep P c) -> Deep P n).
  { intros n H. constructor; [now apply step | exact H]. }
  induction n using CSNode_ind; apply close; cbn [csChildren]; intros c Hc;
    split_In; try assumption; try from_all.
  apply in_flat_map in Hc. destruct Hc as [[conds body] [Hcase Hc]].
  now apply (cases_all_In _ _ H conds body).
Qed.

Lemma Deep_children (P : CSNode -> Prop) (n : CSNode) :
  Deep P n -> Forall (Deep P) (csChildren n).
Proof. intros [n' _ H]. now apply Forall_forall. Qed.

(** Brings the induction hypotheses in reach: splits [Forall] over the
    fields of a node, follows memberships, and opens [Deep] on a node whose
    class is known. *)
Ltac deep_expand :=
  repeat match goal with
  | H : context [fst (_, _)] |- _ => cbn [fst snd] in H
  | H : context [snd (_, _)] |- _ => cbn [fst snd] in H
  | H : context [conditionsOf (inl _)] |- _ => cbn [conditionsOf] in H
  | H : context [conditionsOf (inr _)] |- _ => cbn [conditionsOf] in H
  | H : Forall _ (_ :: _) |- _ => apply Forall_cons_iff in H; destruct H
  | H : Forall _ (_ ++ _) |- _ => apply Forall_app in H; destruct H
  | H : Forall _ [] |- _ => clear H
  | H : Forall _ (flat_map _ _) |- _ => rewrite Forall_flat_map in H
  | H : Forall _ (optionalNode (Some _)) |- _ => cbn [optionalNode] in H
  | H : Forall _ (optionalNode None) |- _ => clear H
  | Hin : In _ (_ :: _) |- _ => destruct Hin as [<- | Hin]
  | Hin : In _ [] |- _ => destruct Hin
  | H : Forall ?P ?l, Hin : In ?x ?l |- _ =>
      let H' := fresh "Hdeep" in
      pose proof (proj1 (Forall_forall P l) H x Hin) as H';
      cbn [fst snd] in H'; clear Hin
  | H : Deep ?P ?n |- _ =>
      tryif is_var n then fail else
        (let Hh := fresh "Hhere" in
         let Hc := fresh "Hbelow" in
         pose proof (Deep_here P n H) as Hh;
         pose proof (Deep_children P n H) as Hc;
         cbn [csChildren optionalNode conditionsOf] in Hc; clear H)
  end.

Section ConverterProperties.

Variable parseLiteral : string -> option string.
Variable JSON_parse : string -> option JsValue.
Variable locations : LocStore.
Variable source : string.
Variable mapper : Mapper.

(** Primed names are the definitions at the externals of this section. *)
Local Notation convert' :=
  (convert parseLiteral JSON_parse locations source mapper).
Local Notation irrelevant :=
  (ancestorsIrrelevant parseLiteral JSON_parse locations source mapper).
Local Notation convertsToBuilt' :=
  (convertsToBuilt parseLiteral JSON_parse locations source mapper).
Local Notation Built' := (Built source mapper).
Local Notation BuiltOption' := (BuiltOption source mapper).
Local Notation BuiltResult' := (BuiltResult source mapper).
Local Notation BuiltClassState' := (BuiltClassState source mapper).
Local Notation makeNode' := (makeNode source mapper).
Local Notation makeNode_some' := (makeNode_some source mapper).

(** *** The ancestors only tell the root from the other nodes, and every
    converted node is built *)

(** One step of comparing two runs of [convert] that differ only in their
    ancestors. *)
Ltac irrel :=
  match goal with
  | |- ?x = ?x => reflexivity
  | H : Deep irrelevant ?n
    |- convert _ _ _ _ _ ?n _ = convert _ _ _ _ _ ?n _ =>
      apply (Deep_here _ _ H)
  | H : irrelevant ?n
    |- convert _ _ _ _ _ ?n _ = convert _ _ _ _ _ ?n _ =>
      apply H
  | |- bind _ _ = bind _ _ => apply bind_ext; [| intros ?]
  | |- mapResult _ ?l = mapResult _ ?l => apply mapResult_ext_in; intros ? ?
  | |- foldResult _ ?l ?s = foldResult _ ?l ?s =>
      apply foldResult_ext_in; intros ? ? ?
  | |- (if ?c then _ else _) = (if ?c then _ else _) => destruct c
  | |- match ?x with _ => _ end = match ?x with _ => _ end => destruct x
  | |- (let (_, _) := ?x in _) = _ => destruct x
  end; deep_expand.

(** A node that is not the root is converted in the same way under any
    ancestors. *)
Lemma convert_ancestors_irrelevant (node : CSNode) : Deep irrelevant node.
Proof.
  revert node. apply (CSNode_deep_ind irrelevant). intros node IH.
  apply Forall_forall in IH.
  intros a anc b anc'.
  destruct node; cbn [convert app csChildren optionalNode] in *;
    deep_expand; repeat irrel.
Qed.

Lemma BuiltOption_None : BuiltOption' None.
Proof. intros n H. discriminate. Qed.

Lemma makeNode_BuiltOption nodeType loc attributes n :
  makeNode' nodeType loc attributes = Ok n ->
  (forall c, In c (flat_map (fun kv => attr_children (snd kv)) attributes) ->
             Built' c) ->
  BuiltOption' (Some n).
Proof.
  intros H Hc n' Hn. injection Hn as <-.
  now apply Built_makeNode with nodeType loc attributes.
Qed.

Lemma makeNode_some_BuiltResult nodeType loc attributes :
  (forall c, In c (flat_map (fun kv => attr_children (snd kv)) attributes) ->
             Built' c) ->
  BuiltResult' (makeNode_some' nodeType loc attributes).
Proof.
  intros Hc o H. unfold makeNode_some in H.
  destruct (makeNode' (Some nodeType) loc attributes) as [n |] eqn:E;
    simpl in H; [| discriminate].
  injection H as <-.
  now apply makeNode_BuiltOption with (Some nodeType) loc attributes.
Qed.

Lemma In_attr_of (o : option Node) (c : Node) :
  In c (attr_children (attr_of o)) -> o = Some c.
Proof.
  destruct o; simpl; intros H; [destruct H as [-> | []] | destruct H].
  reflexivity.
Qed.

Lemma In_ANodes (l : list (option Node)) (c : Node) :
  In c (attr_children (ANodes l)) -> In (Some c) l.
Proof.
  simpl. rewrite in_flat_map.
  intros [[c' |] [Hin Hc]]; simpl in Hc; [| destruct Hc].
  destruct Hc as [-> | []]. exact Hin.
Qed.

Lemma mapResult_BuiltOption {A : Type} (f : A -> result (option Node))
  (l : list A) (rs : list (option Node)) :
  mapResult f l = Ok rs ->
  (forall x, In x l -> BuiltResult' (f x)) ->
  Forall BuiltOption' rs.
Proof.
  revert rs. induction l as [| x l IH]; intros rs H Hf; simpl in H.
  - injection H as <-. constructor.
  - destruct (f x) as [y |] eqn:E; simpl in H; [| discriminate].
    destruct (mapResult f l) as [ys |] eqn:E'; simpl in H; [| discriminate].
    injection H as <-. constructor.
    + apply (Hf x (or_introl eq_refl) y E).
    + apply IH; [reflexivity |]. intros z Hz. apply Hf. now right.
Qed.

Lemma foldResult_invariant {A S : Type} (Inv : S -> Prop)
  (f : S -> A -> result S) (l : list A) :
  (forall s x s', In x l -> Inv s -> f s x = Ok s' -> Inv s') ->
  forall s s', Inv s -> foldResult f l s = Ok s' -> Inv s'.
Proof.
  induction l as [| x l IH]; intros Hf s s' Hs H; simpl in H.
  - now injection H as <-.
  - destruct (f s x) as [s1 |] eqn:E; simpl in H; [| discriminate].
    apply IH with s1; auto.
    + intros s0 z s0' Hz. apply Hf. now right.
    + apply Hf with s x; auto. now left.
Qed.

Lemma BuiltResult_Err e : BuiltResult' (Err e).
Proof. intros o H. discriminate. Qed.

Lemma BuiltResult_Ok o : BuiltOption' o -> BuiltResult' (Ok o).
Proof. intros Ho o' H. now injection H as <-. Qed.

Lemma BuiltResult_bind {A : Type} (m : result A)
  (k : A -> result (option Node)) :
  (forall x, m = Ok x -> BuiltResult' (k x)) -> BuiltResult' (bind m k).
Proof.
  intros H o Ho. destruct m as [x |]; simpl in Ho; [| discriminate].
  now apply (H x eq_refl).
Qed.

Lemma BuiltResult_foldResult {A : Type}
  (f : option Node -> A -> result (option Node))
  (l : list A) (s : option Node) :
  BuiltOption' s ->
  (forall s x, In x l -> BuiltOption' s -> BuiltResult' (f s x)) ->
  BuiltResult' (foldResult f l s).
Proof.
  intros Hs Hf o H.
  apply (foldResult_invariant BuiltOption' f l) with s; auto.
  intros s0 x s' Hx Hs0 E. now apply (Hf s0 x Hx Hs0).
Qed.

Lemma Forall_BuiltOption_In (l : list (option Node)) (c : Node) :
  Forall BuiltOption' l -> In c (attr_children (ANodes l)) -> Built' c.
Proof.
  intros Hl Hc. apply In_ANodes in Hc.
  now apply (proj1 (Forall_forall _ _) Hl (Some c) Hc c).
Qed.

Lemma BuiltOption_In (o : option Node) (c : Node) :
  BuiltOption' o -> In c (attr_children (attr_of o)) -> Built' c.
Proof. intros Ho Hc. apply Ho. now apply In_attr_of. Qed.

Lemma convertLiteral_Built loc value :
  BuiltResult' (convertLiteral parseLiteral JSON_parse source mapper loc value).
Proof.
  unfold convertLiteral.
  destruct (looks_numeric value).
  - destruct (JSON_parse value); [| apply BuiltResult_Err].
    apply BuiltResult_bind. intros x _.
    apply makeNode_some_BuiltResult. simpl. tauto.
  - destruct (value =? "this")%string.
    + apply makeNode_some_BuiltResult. simpl. tauto.
    + destruct (parseLiteral value);
        apply makeNode_some_BuiltResult; simpl; tauto.
Qed.

Lemma convertBool_Built loc val :
  BuiltResult' (convertBool JSON_parse source mapper loc val).
Proof.
  unfold convertBool. destruct (JSON_parse val); [| apply BuiltResult_Err].
  apply makeNode_some_BuiltResult. simpl. tauto.
Qed.

Lemma classMember_Built st propLoc key value st' :
  BuiltClassState' st -> BuiltOption' key -> BuiltOption' value ->
  classMember source mapper st propLoc key value = Ok st' ->
  BuiltClassState' st'.
Proof.
  intros (Hs & Hct & Hb) Hk Hv H. unfold classMember in H.
  destruct key as [k |]; [| discriminate].
  assert (Bk : Built' k) by now apply Hk.
  assert (step : forall ty attributes member,
             makeNode' (Some ty) propLoc attributes = Ok member ->
             (forall c,
                 In c (flat_map (fun kv => attr_children (snd kv))
                                attributes) -> Built' c) ->
             BuiltOption' (Some member)).
  { intros ty attributes member Hm Hch.
    now apply makeNode_BuiltOption with (Some ty) propLoc attributes. }
  assert (Hval : forall c, In c (attr_children (attr_of value)) -> Built' c)
    by (intros c; apply BuiltOption_In, Hv).
  match type of H with
  | bind ?m _ = _ => destruct m as [st1 |] eqn:E; simpl in H; [| discriminate]
  end.
  assert (H1 : BuiltClassState' st1).
  { destruct (isConstructorKey k).
    - destruct (makeNode' (Some "Constructor") propLoc _) as [member |] eqn:Em;
        simpl in E; [| discriminate].
      injection E as <-.
      assert (Bm : BuiltOption' (Some member)).
      { apply (step _ _ _ Em). simpl. intros c Hc.
        rewrite app_nil_r in Hc. now apply Hval. }
      repeat split; simpl; auto.
      apply Forall_app. split; [exact Hs | now constructor].
    - destruct (isThisMember k) as [[|] |]; simpl in E; [| | discriminate].
      + destruct (makeNode' (Some "AssignOp") propLoc _) as [member |] eqn:Em;
          simpl in E; [| discriminate].
        injection E as <-.
        assert (Bm : BuiltOption' (Some member)).
        { apply (step _ _ _ Em). simpl. intros c [<- | Hc]; [exact Bk |].
          rewrite app_nil_r in Hc. now apply Hval. }
        repeat split; simpl; auto.
        apply Forall_app. split; [exact Hs | now constructor].
      + destruct (makeNode' (Some "ClassProtoAssignOp") propLoc _)
          as [member |] eqn:Em;
          simpl in E; [| discriminate].
        injection E as <-.
        assert (Bm : BuiltOption' (Some member)).
        { apply (step _ _ _ Em). simpl. intros c [<- | Hc]; [exact Bk |].
          rewrite app_nil_r in Hc. now apply Hval. }
        repeat split; simpl; auto.
        apply Forall_app. split; [exact Hs | now constructor]. }
  destruct (isBoundFunction value) as [[|] |]; simpl in H; [| | discriminate];
    injection H as <-; [| exact H1].
  destruct H1 as (Hs1 & Hc1 & Hb1). repeat split; simpl; auto.
  apply Forall_app. split; [exact Hb1 |]. constructor; [| constructor].
  destruct (statements st1) as [| s0 ss _] using rev_ind.
  - simpl. apply BuiltOption_None.
  - rewrite last_last. apply Forall_app in Hs1. destruct Hs1 as [_ Hl].
    now inversion Hl.
Qed.

Lemma BuiltOption_ANode (n c : Node) :
  BuiltOption' (Some n) -> In c (attr_children (ANode n)) -> Built' c.
Proof. intros Hn [<- | []]. now apply Hn. Qed.

Lemma BuiltResult_bind_option (m : result (option Node))
  (k : option Node -> result (option Node)) :
  BuiltResult' m -> (forall x, BuiltOption' x -> BuiltResult' (k x)) ->
  BuiltResult' (bind m k).
Proof.
  intros Hm Hk. apply BuiltResult_bind. intros x E. apply Hk. now apply Hm.
Qed.

Lemma BuiltClassState_push (st : ClassState) (s : option Node) :
  BuiltClassState' st -> BuiltOption' s ->
  BuiltClassState'
    (mkClassState (statements st ++ [s]) (ctor st) (boundMembers st)).
Proof.
  intros (Hs & Hc & Hb) H. repeat split; simpl; auto.
  apply Forall_app. split; [exact Hs | now constructor].
Qed.

Lemma BuiltClassState_empty : BuiltClassState' (mkClassState [] None []).
Proof. repeat split; simpl; auto. apply BuiltOption_None. Qed.

Lemma BuiltClassState_foldResult {A : Type}
  (f : ClassState -> A -> result ClassState) (l : list A) (s s' : ClassState) :
  foldResult f l s = Ok s' ->
  (forall s x s', In x l -> BuiltClassState' s -> f s x = Ok s' ->
                  BuiltClassState' s') ->
  BuiltClassState' s ->
  BuiltClassState' s'.
Proof.
  intros H Hf Hs. now apply (foldResult_invariant BuiltClassState' f l Hf s).
Qed.

(** The nodes placed in the attributes of a new node are built: each comes
    from a conversion or a [makeNode] already known to give built nodes. *)
Ltac kids :=
  repeat match goal with
  | Hc : context [fst (_, _)] |- _ => cbn [fst snd] in Hc
  | Hc : context [snd (_, _)] |- _ => cbn [fst snd] in Hc
  | Hc : context [boundMembers (mkClassState _ _ _)] |- _ =>
      cbn [boundMembers] in Hc
  | Hc : context [statements (mkClassState _ _ _)] |- _ =>
      cbn [statements] in Hc
  | Hc : context [ctor (mkClassState _ _ _)] |- _ => cbn [ctor] in Hc
  | Hc : In _ (_ ++ _) |- _ => apply in_app_or in Hc; destruct Hc as [Hc | Hc]
  | Hc : In _ [] |- _ => destruct Hc
  | Hc : In _ (attr_children (ANodes [])) |- _ => destruct Hc
  | Hc : In ?c (attr_children (attr_of ?o)), H : BuiltOption' ?o |- Built' ?c =>
      exact (BuiltOption_In o c H Hc)
  | Hc : In ?c (attr_children (attr_of (ctor ?st))), H : BuiltClassState' ?st
    |- Built' ?c => exact (BuiltOption_In _ c (proj1 (proj2 H)) Hc)
  | Hc : In ?c (attr_children (ANodes (statements ?st))),
    H : BuiltClassState' ?st
    |- Built' ?c => exact (Forall_BuiltOption_In _ c (proj1 H) Hc)
  | Hc : In ?c (attr_children (ANodes (boundMembers ?st))),
    H : BuiltClassState' ?st
    |- Built' ?c => exact (Forall_BuiltOption_In _ c (proj2 (proj2 H)) Hc)
  | Hc : In ?c (attr_children (attr_of None)) |- _ => destruct Hc
  | Hc : In ?c (attr_children (ANodes ?l)), H : Forall BuiltOption' ?l
    |- Built' ?c => exact (Forall_BuiltOption_In l c H Hc)
  | Hc : In ?c (attr_children (ANodes [?o])), H : BuiltOption' ?o
    |- Built' ?c =>
      exact (Forall_BuiltOption_In [o] c
               (Forall_cons o H (Forall_nil BuiltOption')) Hc)
  | Hc : In ?c (attr_children (ANode ?n)), H : BuiltOption' (Some ?n)
    |- Built' ?c => exact (BuiltOption_ANode n c H Hc)
  | Hc : In _ (attr_children (AData _)) |- _ => destruct Hc
  | Hc : In _ (attr_children (memberNameOf ?name)) |- _ =>
      destruct name; destruct Hc
  end.

(** Turns what is known of the steps already run (a conversion, a
    [makeNode], a map or a fold that returned) into facts about built
    nodes. *)
Ltac facts :=
  repeat match goal with
  | _ => progress deep_expand
  | E : Ok _ = Ok _ |- _ => injection E as E; try subst
  | E : Err _ = Ok _ |- _ => discriminate E
  | E : convert _ _ _ _ _ ?n _ = Ok ?x, H : Deep convertsToBuilt' ?n |- _ =>
      pose proof (Deep_here _ _ H _ _ E); clear E
  | E : convert _ _ _ _ _ ?n _ = Ok ?x, H : convertsToBuilt' ?n |- _ =>
      pose proof (H _ _ E); clear E
  | E : makeNode _ _ _ _ _ = Ok ?n |- _ =>
      apply makeNode_BuiltOption in E;
      [| solve [cbn [flat_map snd]; intros ? ?; kids]]
  | E : mapResult _ _ = Ok ?rs |- _ =>
      apply mapResult_BuiltOption in E; [| clear E; intros ? ?; cbn beta]
  | E : classMember _ _ _ _ _ _ = Ok _ |- _ =>
      apply classMember_Built in E; [| assumption | assumption | assumption]
  | E : foldResult _ _ _ = Ok ?st |- _ =>
      apply BuiltClassState_foldResult in E;
      [| clear E; intros ? ? ? ? ? ?; cbn beta in *
       | first [assumption | apply BuiltClassState_empty]]
  | E : bind ?m _ = Ok _ |- _ =>
      let E' := fresh "E" in
      destruct m eqn:E'; cbn [bind] in E; [| discriminate E]
  | E : match ?x with _ => _ end = Ok _ |- _ => destruct x
  | E : context [fst (_, _)] |- _ => cbn [fst snd] in E
  | E : context [snd (_, _)] |- _ => cbn [fst snd] in E
  end.

(** One step through the body of [convert], following its binds and
    case analyses. *)
Ltac br :=
  match goal with
  | |- BuiltResult' (Err _) => apply BuiltResult_Err
  | |- BuiltResult' (Ok None) => apply BuiltResult_Ok, BuiltOption_None
  | H : BuiltOption' ?o |- BuiltResult' (Ok ?o) => apply BuiltResult_Ok, H
  | |- BuiltResult' (bind _ _) =>
      first [ apply BuiltResult_bind_option; [| intros ? ?]
            | apply BuiltResult_bind; intros ? ? ]
  | |- BuiltResult' (makeNode_some _ _ _ _ _) =>
      apply makeNode_some_BuiltResult; cbn [flat_map snd]; intros ? ?; kids
  | |- BuiltResult' (convertLiteral _ _ _ _ _ _) => apply convertLiteral_Built
  | |- BuiltResult' (convertBool _ _ _ _ _) => apply convertBool_Built
  | H : Deep convertsToBuilt' ?n |- BuiltResult' (convert _ _ _ _ _ ?n _) =>
      apply (Deep_here _ _ H)
  | H : convertsToBuilt' ?n |- BuiltResult' (convert _ _ _ _ _ ?n _) =>
      apply H
  | |- BuiltResult' (foldResult _ _ _) =>
      apply BuiltResult_foldResult; [assumption | intros ? ? ? ?]
  | |- BuiltResult' (if ?c then _ else _) => destruct c
  | |- BuiltResult' (match ?x with _ => _ end) => destruct x
  | |- BuiltResult' (let (_, _) := ?x in _) => destruct x
  | |- BuiltClassState' _ =>
      first [ assumption | apply BuiltClassState_push; assumption ]
  end; deep_expand; facts; deep_expand.

(** Every node [convert] returns is a tree of built nodes, so the
    properties of the node builder hold of the converted tree. *)
Lemma convert_Built (node : CSNode) : Deep convertsToBuilt' node.
Proof.
  revert node. apply (CSNode_deep_ind convertsToBuilt'). intros node IH.
  apply Forall_forall in IH.
  intros anc.
  destruct anc as [| a anc];
  destruct node; cbn [convert app csChildren optionalNode] in *;
    deep_expand.
  all: repeat br.
Qed.


(** *** The claims about [convert] *)

(** C10: a parenthesized expression that is not the root converts to the
    conversion of the first expression of its body, whatever follows it in
    the body: the other expressions are not converted and raise nothing. *)
Theorem convert_Parens_first_expression (loc bodyLoc : option LocRef)
  (expression : CSNode) (rest : list CSNode)
  (a b : CSNode) (ancestors ancestors' : list CSNode) :
  convert' (Parens loc (Block bodyLoc (expression :: rest))) (a :: ancestors)
  = convert' expression (b :: ancestors').
Proof.
  cbn [convert app].
  apply (Deep_here _ _ (convert_ancestors_irrelevant expression)).
Qed.

(** [convertOperator] on an operator node whose operands convert: the node
    type is whatever the [switch] left in [nodeType]. *)
Lemma convert_Op_unary (loc : option LocRef) (operator : string)
  (first : CSNode) (a : CSNode) (ancestors : list CSNode) :
  convert' (Op loc operator first None) (a :: ancestors) =
  (expression <- convert' first
                   (a :: ancestors ++ [Op loc operator first None]);;
   n <- makeNode' (unaryNodeType operator)
          (locationOf locations (Op loc operator first None))
          [("expression", attr_of expression)];;
   Ok (Some n)).
Proof. reflexivity. Qed.

Lemma convert_Op_binary (loc : option LocRef) (operator : string)
  (first second : CSNode) (a : CSNode) (ancestors : list CSNode) :
  convert' (Op loc operator first (Some second)) (a :: ancestors) =
  (left <- convert' first
             (a :: ancestors ++ [Op loc operator first (Some second)]);;
   right <- convert' second
              (a :: ancestors ++ [Op loc operator first (Some second)]);;
   n <- makeNode' (binaryNodeType operator)
          (locationOf locations (Op loc operator first (Some second)))
          [("left", attr_of left); ("right", attr_of right)];;
   Ok (Some n)).
Proof. reflexivity. Qed.

(** A node whose attributes are single values is always built: only a null
    element of an array makes [makeNode] throw. *)
Lemma expandRangeForAttrs_attr_of (l : list (string * option Node))
  (rng : Z * Z) :
  exists rng',
    expandRangeForAttrs rng (map (fun kv => (fst kv, attr_of (snd kv))) l)
    = Ok rng'.
Proof.
  revert rng. induction l as [| [key [child |]] l IH]; intros rng; simpl.
  - now exists rng.
  - apply IH.
  - apply IH.
Qed.

Lemma makeNode_attr_of (nodeType : option string)
  (loc : option LocationData) (l : list (string * option Node)) :
  exists n,
    makeNode' nodeType loc (map (fun kv => (fst kv, attr_of (snd kv))) l)
    = Ok n.
Proof.
  unfold makeNode. destruct loc as [loc |]; [| eauto].
  destruct (expandRangeForAttrs_attr_of l
              (offsetOf mapper (first_line loc) (first_column loc),
               offsetOf mapper (last_line loc) (last_column loc) + 1))
    as [rng ->].
  simpl. eauto.
Qed.

(** An operator outside the recognized set is converted, when its operands
    are, into a node without a type: no error is raised for it. *)
Lemma convert_Op_unrecognized (loc : option LocRef) (operator : string)
  (first : CSNode) (second : option CSNode) (a : CSNode)
  (ancestors : list CSNode) :
  match second with
  | Some _ => binaryNodeType operator = None
  | None => unaryNodeType operator = None
  end ->
  (forall c, In c (first :: optionalNode second) ->
             exists r, convert' c (a :: ancestors) = Ok r) ->
  exists n,
    convert' (Op loc operator first second) (a :: ancestors) = Ok (Some n) /\
    node_type n = None.
Proof.
  intros Hop Hc.
  assert (sub : forall c l, In c (first :: optionalNode second) ->
                            exists r, convert' c (a :: l) = Ok r).
  { intros c l Hin. destruct (Hc c Hin) as [r Hr]. exists r.
    rewrite <- Hr.
    apply (Deep_here _ _ (convert_ancestors_irrelevant c)). }
  destruct second as [second |].
  - rewrite convert_Op_binary, Hop.
    destruct (sub first (ancestors ++ [Op loc operator first (Some second)])
                (or_introl eq_refl)) as [l ->].
    destruct (sub second (ancestors ++ [Op loc operator first (Some second)])
                (or_intror (or_introl eq_refl))) as [r ->].
    cbn [bind].
    destruct (makeNode_attr_of None
                (locationOf locations (Op loc operator first (Some second)))
                [("left", l); ("right", r)]) as [n Hn].
    cbn [map fst snd] in Hn. rewrite Hn. cbn [bind].
    exists n. split; [reflexivity |].
    apply (makeNode_inv _ _ _ _ _ _ Hn).
  - rewrite convert_Op_unary, Hop.
    destruct (sub first (ancestors ++ [Op loc operator first None])
                (or_introl eq_refl)) as [e ->].
    cbn [bind].
    destruct (makeNode_attr_of None
                (locationOf locations (Op loc operator first None))
                [("expression", e)]) as [n Hn].
    cbn [map fst snd] in Hn. rewrite Hn. cbn [bind].
    exists n. split; [reflexivity |].
    apply (makeNode_inv _ _ _ _ _ _ Hn).
Qed.

(** The [If] case: what is converted for the condition. *)
Lemma convert_If (loc : option LocRef) (condition body : CSNode)
  (elseBody : option CSNode) (a : CSNode) (ancestors : list CSNode) :
  convert' (If loc condition body elseBody) (a :: ancestors) =
  (cond <-
     match condition with
     | Op condLoc operator first second =>
         if String.eqb operator "!" && same_object loc condLoc then
           convert' (Op None operator first second)
                   (a :: ancestors ++ [If loc condition body elseBody])
         else convert' condition
                      (a :: ancestors ++ [If loc condition body elseBody])
     | _ => convert' condition
                    (a :: ancestors ++ [If loc condition body elseBody])
     end;;
   consequent <- convert' body
                   (a :: ancestors ++ [If loc condition body elseBody]);;
   alternate <-
     match elseBody with
     | Some c => convert' c (a :: ancestors ++ [If loc condition body elseBody])
     | None => Ok None
     end;;
   makeNode_some' "Conditional"
     (locationOf locations (If loc condition body elseBody))
     [("condition", attr_of cond);
      ("consequent", attr_of consequent);
      ("alternate", attr_of alternate)]).
Proof.
  cbn [convert app].
  destruct condition; reflexivity.
Qed.

Lemma convert_Op_node (loc : option LocRef) (operator : string)
  (first : CSNode) (second : option CSNode) (a : CSNode)
  (ancestors : list CSNode) (r : option Node) :
  convert' (Op loc operator first second) (a :: ancestors) = Ok r ->
  exists n nodeType attributes,
    r = Some n /\
    makeNode' nodeType (locationOf locations (Op loc operator first second))
             attributes = Ok n.
Proof.
  destruct second as [second |].
  - rewrite convert_Op_binary. intros H.
    destruct (convert' first _) as [l |]; cbn [bind] in H; [| discriminate].
    destruct (convert' second _) as [r' |]; cbn [bind] in H; [| discriminate].
    destruct (makeNode' _ _ _) as [n |] eqn:E; cbn [bind] in H;
      [| discriminate].
    injection H as <-. eauto.
  - rewrite convert_Op_unary. intros H.
    destruct (convert' first _) as [e |]; cbn [bind] in H; [| discriminate].
    destruct (makeNode' _ _ _) as [n |] eqn:E; cbn [bind] in H;
      [| discriminate].
    injection H as <-. eauto.
Qed.

(** What the [If] case makes of a condition that is a logical-not operator
    node.  When the condition holds the very same location data object as
    the conditional (reference identity, as [===] tests it), the condition of
    the produced Conditional is virtual: no line, column, range or raw.  When
    it holds another object, it is not virtual. *)
Lemma convert_If_negation_virtual (loc condLoc : option LocRef)
  (first : CSNode) (second : option CSNode) (body : CSNode)
  (elseBody : option CSNode) (a : CSNode) (ancestors : list CSNode)
  (n : Node) :
  convert' (If loc (Op condLoc "!" first second) body elseBody)
          (a :: ancestors) = Ok (Some n) ->
  exists c,
    attr n "condition" = ANode c /\
    (same_object loc condLoc = true ->
     virtual c = true /\ line c = None /\ column c = None /\
     range c = None /\ raw c = None) /\
    (forall r, condLoc = Some r -> loc <> Some r ->
               virtual c = false /\ range c <> None).
Proof.
  rewrite convert_If. cbn [String.eqb Ascii.eqb Bool.eqb andb].
  intros H.
  match type of H with
  | bind ?m _ = _ => destruct m as [cond |] eqn:Ec; cbn [bind] in H;
                     [| discriminate]
  end.
  destruct (convert' body _) as [consequent |]; cbn [bind] in H;
    [| discriminate].
  match type of H with
  | bind ?m _ = _ => destruct m as [alternate |]; cbn [bind] in H;
                     [| discriminate]
  end.
  unfold makeNode_some in H.
  destruct (makeNode' _ _ _) as [n' |] eqn:En; cbn [bind] in H;
    [| discriminate].
  injection H as ->.
  pose proof (makeNode_inv _ _ _ _ _ _ En) as (_ & Ha & _).
  assert (Hattr : attr n "condition" = attr_of cond).
  { unfold attr. rewrite Ha. reflexivity. }
  destruct (same_object loc condLoc) eqn:Esame.
  - apply convert_Op_node in Ec.
    destruct Ec as (c & nodeType & attributes & -> & Hc).
    exists c. split; [exact Hattr |]. split.
    + intros _. cbn [locationOf locationData option_map] in Hc.
      apply (proj2 (proj2 (makeNode_inv _ _ _ _ _ _ Hc))).
    + intros r -> Hne. exfalso. apply Hne.
      destruct loc as [r' |]; simpl in Esame; [| discriminate].
      apply Nat.eqb_eq in Esame. now subst.
  - apply convert_Op_node in Ec.
    destruct Ec as (c & nodeType & attributes & -> & Hc).
    exists c. split; [exact Hattr |]. split.
    + discriminate.
    + intros r -> _. cbn [locationOf locationData option_map] in Hc.
      destruct (proj2 (proj2 (makeNode_inv _ _ _ _ _ _ Hc)))
        as (rng & _ & Hv & _ & _ & Hr & _).
      rewrite Hr. split; [exact Hv | discriminate].
Qed.

Lemma mapResult_Forall2 {A B : Type} (f : A -> result B) (l : list A)
  (rs : list B) :
  mapResult f l = Ok rs -> Forall2 (fun x r => f x = Ok r) l rs.
Proof.
  revert rs. induction l as [| x l IH]; intros rs H; simpl in H.
  - injection H as <-. constructor.
  - destruct (f x) as [y |] eqn:E; cbn [bind] in H; [| discriminate].
    destruct (mapResult f l) as [ys |]; cbn [bind] in H; [| discriminate].
    injection H as <-. constructor; [exact E | now apply IH].
Qed.

(** The span the [Switch] case computes for each case that is converted:
    the merge of the span of the case's first condition and of the span of
    its body, expanded to the left through "when ".  The node is built by
    [makeNode] at that span, which gives its line and its column. *)
Lemma convert_Switch_case_span (loc : option LocRef) (subject : CSNode)
  (cases : list ((CSNode + list CSNode) * CSNode))
  (otherwise : option CSNode) (a : CSNode) (ancestors : list CSNode)
  (n : Node) :
  convert' (Switch loc subject cases otherwise) (a :: ancestors)
  = Ok (Some n) ->
  exists cs,
    attr n "cases" = ANodes cs /\
    Forall2
      (fun case c =>
         exists first others firstLoc bodyLoc span node conds consequent,
           conditionsOf (fst case) = first :: others /\
           locationOf locations first = Some firstLoc /\
           locationOf locations (snd case) = Some bodyLoc /\
           expandLocationLeftThrough source mapper
             (mergeLocations firstLoc bodyLoc) "when " = Ok span /\
           c = Some node /\
           makeNode' (Some "SwitchCase") (Some span)
             [("conditions", ANodes conds);
              ("consequent", attr_of consequent)] = Ok node /\
           line node = Some (first_line span + 1) /\
           column node = Some (first_column span + 1))
      cases cs.
Proof.
  cbn [convert app]. intros H.
  destruct (convert' subject _) as [expression |]; cbn [bind] in H;
    [| discriminate].
  match type of H with
  | bind ?m _ = _ => destruct m as [cs |] eqn:Ecs; cbn [bind] in H;
                     [| discriminate]
  end.
  match type of H with
  | bind ?m _ = _ => destruct m as [alternate |]; cbn [bind] in H;
                     [| discriminate]
  end.
  unfold makeNode_some in H.
  destruct (makeNode' _ _ _) as [n' |] eqn:En; cbn [bind] in H;
    [| discriminate].
  injection H as ->.
  pose proof (makeNode_inv _ _ _ _ _ _ En) as (_ & Ha & _).
  exists cs. split.
  { unfold attr. rewrite Ha. reflexivity. }
  apply mapResult_Forall2 in Ecs.
  clear En Ha.
  induction Ecs as [| [conditions body] c cases' cs' Hcase _ IH];
    constructor; [| exact IH].
  clear IH. cbn [fst snd].
  match type of Hcase with
  | bind ?m _ = _ => destruct m as [first |] eqn:Efirst; cbn [bind] in Hcase;
                     [| discriminate]
  end.
  assert (Hconds : exists others, conditionsOf conditions = first :: others).
  { destruct conditions as [c0 | [| c0 others]]; simpl in Efirst;
      try discriminate; injection Efirst as ->; simpl; eauto. }
  destruct Hconds as [others Hconds].
  cbn [locationContainingNodes] in Hcase.
  unfold mergeLocations_nullable in Hcase.
  destruct (locationOf locations first) as [firstLoc |] eqn:E1;
    [| discriminate].
  destruct (locationOf locations body) as [bodyLoc |] eqn:E2;
    [| discriminate].
  cbn [bind expandLocationLeftThrough_nullable] in Hcase.
  destruct (expandLocationLeftThrough source mapper _ "when ")
    as [span |] eqn:Espan; cbn [bind] in Hcase; [| discriminate].
  match type of Hcase with
  | bind ?m _ = _ => destruct m as [conds |]; cbn [bind] in Hcase;
                     [| discriminate]
  end.
  destruct (convert' body _) as [consequent |]; cbn [bind] in Hcase;
    [| discriminate].
  unfold makeNode_some in Hcase.
  destruct (makeNode' _ _ _) as [node |] eqn:Enode; cbn [bind] in Hcase;
    [| discriminate].
  injection Hcase as <-.
  exists first, others, firstLoc, bodyLoc, span, node, conds, consequent.
  repeat split; try reflexivity; try assumption.
  - destruct (proj2 (proj2 (makeNode_inv _ _ _ _ _ _ Enode)))
      as (rng & _ & _ & Hl & _). exact Hl.
  - destruct (proj2 (proj2 (makeNode_inv _ _ _ _ _ _ Enode)))
      as (rng & _ & _ & _ & Hc & _). exact Hc.
Qed.

End ConverterProperties.

(** ** Searching the source for an anchor *)

Lemma search_up_Some (p : nat -> bool) (fuel k j : nat) :
  JsString.search_up p k fuel = Some j ->
  (k <= j < k + fuel)%nat /\ p j = true /\
  (forall i, (k <= i < j)%nat -> p i = false).
Proof.
  revert k. induction fuel as [| fuel IH]; intros k H; simpl in H.
  - discriminate.
  - destruct (p k) eqn:E.
    + injection H as <-. split; [lia |]. split; [exact E |].
      intros i Hi. lia.
    + apply IH in H. destruct H as (Hj & Hp & Hmin).
      split; [lia |]. split; [exact Hp |].
      intros i Hi. destruct (Nat.eq_dec i k) as [-> | Hne]; [exact E |].
      apply Hmin. lia.
Qed.

Lemma search_up_None (p : nat -> bool) (fuel k : nat) :
  JsString.search_up p k fuel = None ->
  forall i, (k <= i < k + fuel)%nat -> p i = false.
Proof.
  revert k. induction fuel as [| fuel IH]; intros k H i Hi; simpl in H.
  - lia.
  - destruct (p k) eqn:E; [discriminate |].
    destruct (Nat.eq_dec i k) as [-> | Hne]; [exact E |].
    apply (IH (S k) H). lia.
Qed.

Lemma search_down_Some (p : nat -> bool) (k j : nat) :
  JsString.search_down p k = Some j ->
  (j <= k)%nat /\ p j = true /\ (forall i, (j < i <= k)%nat -> p i = false).
Proof.
  induction k as [| k IH]; simpl; intros H.
  - destruct (p 0%nat) eqn:E; [| discriminate].
    injection H as <-. split; [lia |]. split; [exact E |]. intros i Hi. lia.
  - destruct (p (S k)) eqn:E.
    + injection H as <-. split; [lia |]. split; [exact E |].
      intros i Hi. lia.
    + apply IH in H. destruct H as (Hj & Hp & Hmax).
      split; [lia |]. split; [exact Hp |].
      intros i Hi. destruct (Nat.eq_dec i (S k)) as [-> | Hne]; [exact E |].
      apply Hmax. lia.
Qed.

Lemma search_down_None (p : nat -> bool) (k : nat) :
  JsString.search_down p k = None -> forall i, (i <= k)%nat -> p i = false.
Proof.
  induction k as [| k IH]; simpl; intros H i Hi.
  - destruct (p 0%nat) eqn:E; [discriminate |].
    assert (i = 0)%nat as -> by lia. exact E.
  - destruct (p (S k)) eqn:E; [discriminate |].
    destruct (Nat.eq_dec i (S k)) as [-> | Hne]; [exact E |].
    apply (IH H). lia.
Qed.

Lemma prefix_length (a b : string) :
  String.prefix a b = true -> (String.length a <= String.length b)%nat.
Proof.
  revert b. induction a as [| c a IH]; intros b H; simpl.
  - lia.
  - destruct b as [| d b]; simpl in H; [discriminate |].
    destruct (ascii_dec c d); [| discriminate].
    apply IH in H. simpl. lia.
Qed.

Lemma drop_length (k : nat) (s : string) :
  String.length (JsString.drop k s) = (String.length s - k)%nat.
Proof.
  revert s. induction k as [| k IH]; intros s; simpl.
  - lia.
  - destruct s as [| c s]; simpl; [reflexivity | apply IH].
Qed.

(** An occurrence lies within the string. *)
Lemma occurs_at_within (s pat : string) (k : nat) :
  JsString.occurs_at s pat k = true ->
  (k + String.length pat <= String.length s)%nat.
Proof.
  unfold JsString.occurs_at. rewrite andb_true_iff, Nat.leb_le.
  intros [Hk Hp]. apply prefix_length in Hp. rewrite drop_length in Hp. lia.
Qed.

Lemma occursAt_nat (s pat : string) (k : Z) :
  occursAt s pat k <->
  exists j, k = Z.of_nat j /\ JsString.occurs_at s pat j = true.
Proof.
  unfold occursAt. split.
  - intros [Hk H]. exists (Z.to_nat k). split; [lia | exact H].
  - intros (j & -> & H). rewrite Nat2Z.id. split; [lia | exact H].
Qed.

(** [indexOf]: the first occurrence at or after the clamped position. *)
Lemma indexOf_spec (s pat : string) (position : Z) :
  let start := Z.min (Z.max position 0) (JsString.length s) in
  (JsString.indexOf s pat position = -1 /\
   forall k, start <= k -> ~ occursAt s pat k) \/
  (exists k,
      JsString.indexOf s pat position = k /\ start <= k /\
      occursAt s pat k /\
      forall i, start <= i < k -> ~ occursAt s pat i).
Proof.
  intros start. unfold JsString.indexOf.
  fold (JsString.length s). fold start.
  assert (Hstart : 0 <= start <= JsString.length s)
    by (unfold start, JsString.length; lia).
  destruct (JsString.search_up _ _ _) as [j |] eqn:E.
  - right. apply search_up_Some in E. destruct E as (Hj & Hp & Hmin).
    exists (Z.of_nat j). split; [reflexivity |]. split; [lia |]. split.
    + apply occursAt_nat. eauto.
    + intros i Hi Hocc. apply occursAt_nat in Hocc.
      destruct Hocc as (i' & -> & Hocc).
      rewrite Hmin in Hocc; [discriminate | lia].
  - left. split; [reflexivity |].
    intros k Hk Hocc. apply occursAt_nat in Hocc.
    destruct Hocc as (k' & -> & Hocc).
    pose proof (occurs_at_within _ _ _ Hocc) as Hin.
    rewrite (search_up_None _ _ _ E) in Hocc; [discriminate |].
    unfold JsString.length in Hstart. lia.
Qed.

(** [lastIndexOf]: the last occurrence at or before the position, when the
    position is not negative. *)
Lemma lastIndexOf_spec (s pat : string) (position : Z) :
  0 <= position ->
  (JsString.lastIndexOf s pat position = -1 /\
   forall k, k <= position -> ~ occursAt s pat k) \/
  (exists k,
      JsString.lastIndexOf s pat position = k /\ k <= position /\
      occursAt s pat k /\
      forall i, k < i <= position -> ~ occursAt s pat i).
Proof.
  intros Hpos. unfold JsString.lastIndexOf.
  set (start := Z.min (Z.max position 0)
                      (JsString.length s - JsString.length pat)).
  assert (Hocc_le : forall k, occursAt s pat k -> k <= position ->
                              k <= start).
  { intros k Hocc Hk. apply occursAt_nat in Hocc.
    destruct Hocc as (k' & -> & Hocc). apply occurs_at_within in Hocc.
    unfold start, JsString.length. lia. }
  destruct (start <? 0) eqn:Eneg.
  - left. split; [reflexivity |]. intros k Hk Hocc.
    apply Z.ltb_lt in Eneg. pose proof (Hocc_le k Hocc Hk).
    destruct Hocc as [H0 _]. lia.
  - apply Z.ltb_ge in Eneg.
    destruct (JsString.search_down _ _) as [j |] eqn:E.
    + right. apply search_down_Some in E. destruct E as (Hj & Hp & Hmax).
      exists (Z.of_nat j). split; [reflexivity |].
      split; [unfold start in *; lia |]. split.
      * apply occursAt_nat. eauto.
      * intros i Hi Hocc. pose proof (Hocc_le i Hocc (proj2 Hi)) as Hle.
        apply occursAt_nat in Hocc. destruct Hocc as (i' & -> & Hocc).
        rewrite Hmax in Hocc; [discriminate | lia].
    + left. split; [reflexivity |]. intros k Hk Hocc.
      pose proof (Hocc_le k Hocc Hk) as Hle.
      apply occursAt_nat in Hocc. destruct Hocc as (k' & -> & Hocc).
      rewrite (search_down_None _ _ E) in Hocc; [discriminate | lia].
Qed.

Lemma length_zero_empty (s : string) : JsString.length s = 0 -> s = "".
Proof. destruct s; [reflexivity | unfold JsString.length; simpl; lia]. Qed.

Lemma occursAt_within (s pat : string) (k : Z) :
  occursAt s pat k ->
  0 <= k /\ k + JsString.length pat <= JsString.length s.
Proof.
  intros H. apply occursAt_nat in H. destruct H as (j & -> & H).
  apply occurs_at_within in H. unfold JsString.length. lia.
Qed.

Section Expansion.

Variable source : string.
Variable mapper : Mapper.

(** C8: [expandLocationRightThrough] raises the anchor-not-found error
    exactly when the anchor does not occur in the source at or after the
    offset that follows the end of the span, and [expandLocationLeftThrough]
    exactly when it does not occur at or before the offset of the start of
    the span.  The error carries the 1-based line and column searched from
    and the anchor.  On success the other end of the span is unchanged, the
    end moves to the last character of the first occurrence found (the
    exclusive end is just past the anchor), and the start moves to the first
    character of the last occurrence found.  The searched offset is an
    offset of the source: not above its length on the right (or the anchor
    is not empty), not negative on the left. *)
Theorem expandLocation_through_anchor (loc : LocationData)
  (anchor : string) :
  (let offset := offsetOf mapper (last_line loc) (last_column loc) + 1 in
   let r := expandLocationRightThrough source mapper loc anchor in
   offset <= JsString.length source \/ anchor <> "" ->
   ((exists e, r = Err e) <->
    (forall k, offset <= k -> ~ occursAt source anchor k)) /\
   (forall e, r = Err e ->
              e = NotFollowedBy (last_line loc + 1) (last_column loc + 1)
                                anchor) /\
   (forall loc', r = Ok loc' ->
      exists k,
        offset <= k /\ occursAt source anchor k /\
        (forall i, offset <= i < k -> ~ occursAt source anchor i) /\
        loc' = mkLoc (first_line loc) (first_column loc)
                 (fst (invert mapper (k + JsString.length anchor - 1)))
                 (snd (invert mapper (k + JsString.length anchor - 1))))) /\
  (let offset := offsetOf mapper (first_line loc) (first_column loc) in
   let r := expandLocationLeftThrough source mapper loc anchor in
   0 <= offset ->
   ((exists e, r = Err e) <->
    (forall k, k <= offset -> ~ occursAt source anchor k)) /\
   (forall e, r = Err e ->
              e = NotPrecededBy (first_line loc + 1) (first_column loc + 1)
                                anchor) /\
   (forall loc', r = Ok loc' ->
      exists k,
        k <= offset /\ occursAt source anchor k /\
        (forall i, k < i <= offset -> ~ occursAt source anchor i) /\
        loc' = mkLoc (fst (invert mapper k)) (snd (invert mapper k))
                 (last_line loc) (last_column loc))).
Proof.
  split.
  - intros offset r Hvalid. subst r. unfold expandLocationRightThrough.
    fold offset.
    assert (Hge : forall k, occursAt source anchor k ->
                Z.min (Z.max offset 0) (JsString.length source) <= k ->
                offset <= k).
    { intros k Hocc Hk. apply occursAt_within in Hocc.
      destruct Hvalid as [Hle | Hne]; [lia |].
      destruct (Z_le_gt_dec offset (JsString.length source)); [lia |].
      exfalso. apply Hne. apply length_zero_empty.
      unfold JsString.length in *. lia. }
    assert (Hle : forall k, occursAt source anchor k -> offset <= k ->
                Z.min (Z.max offset 0) (JsString.length source) <= k).
    { intros k Hocc Hk. apply occursAt_within in Hocc.
      unfold JsString.length in *. lia. }
    destruct (indexOf_spec source anchor offset)
      as [[Hidx Hnone] | (k & Hidx & Hk & Hocc & Hmin)];
      cbv zeta in *; rewrite Hidx.
    + simpl. split; [| split].
      * split; [| eauto]. intros _ k Hk Hocc.
        apply (Hnone k); [now apply Hle | exact Hocc].
      * intros e H. now injection H as <-.
      * discriminate.
    + assert (H0 : (k <? 0) = false)
        by (apply Z.ltb_ge; now destruct Hocc).
      rewrite H0. split; [| split].
      * split; [intros [e He]; discriminate |].
        intros Hnone. exfalso. apply (Hnone k); [now apply Hge | exact Hocc].
      * discriminate.
      * intros loc' H. injection H as <-. exists k.
        split; [now apply Hge |]. split; [exact Hocc |]. split; [| reflexivity].
        intros i Hi Hocci. apply (Hmin i); [| exact Hocci].
        split; [now apply Hle | lia].
  - intros offset r Hvalid. subst r. unfold expandLocationLeftThrough.
    fold offset.
    destruct (lastIndexOf_spec source anchor offset Hvalid)
      as [[Hidx Hnone] | (k & Hidx & Hk & Hocc & Hmax)]; rewrite Hidx.
    + simpl. split; [| split].
      * split; [| eauto]. intros _. exact Hnone.
      * intros e H. now injection H as <-.
      * discriminate.
    + assert (H0 : (k <? 0) = false)
        by (apply Z.ltb_ge; now destruct Hocc).
      rewrite H0. split; [| split].
      * split; [intros [e He]; discriminate |].
        intros Hnone. exfalso. now apply (Hnone k).
      * discriminate.
      * intros loc' H. injection H as <-. exists k.
        repeat split; try assumption; apply Hocc.
Qed.

End Expansion.

(** * Further properties *)

(** ** The location algebra *)


Lemma earlier_absorbs (p q : Z * Z) : earlier p q = p <-> pos_le p q.
Proof.
  split.
  - intros <-. apply earlier_le_r.
  - intros H. apply pos_le_antisym; auto with spans.
Qed.

Lemma later_absorbs (p q : Z * Z) : later p q = p <-> pos_le q p.
Proof.
  split.
  - intros <-. apply later_ge_r.
  - intros H. apply pos_le_antisym; auto with spans.
Qed.

Lemma covers_refl (a : LocationData) : covers a a.
Proof. split; apply pos_le_refl. Qed.

Lemma covers_trans (a b c : LocationData) :
  covers a b -> covers b c -> covers a c.
Proof.
  intros [H1 H2] [H3 H4]. split; eapply pos_le_trans; eauto.
Qed.

Lemma mergeLocations_covers_l (a b : LocationData) :
  covers (mergeLocations a b) a.
Proof.
  destruct (mergeLocations_earlier_later a b) as [Hs He].
  unfold covers. rewrite Hs, He. split; auto with spans.
Qed.

Lemma mergeLocations_covers_r (a b : LocationData) :
  covers (mergeLocations a b) b.
Proof.
  destruct (mergeLocations_earlier_later a b) as [Hs He].
  unfold covers. rewrite Hs, He. split; auto with spans.
Qed.

Lemma mergeLocations_least (a b s : LocationData) :
  covers s a -> covers s b -> covers s (mergeLocations a b).
Proof.
  destruct (mergeLocations_earlier_later a b) as [Hs He].
  unfold covers. rewrite Hs, He. intros [H1 H2] [H3 H4].
  split; auto with spans.
Qed.

(** X1: [mergeLocations] is idempotent and associative, and merging a span
    with another leaves it unchanged exactly when it covers the other. *)
Theorem mergeLocations_idempotent_assoc_absorb (a b c : LocationData) :
  mergeLocations a a = a /\
  mergeLocations a (mergeLocations b c)
  = mergeLocations (mergeLocations a b) c /\
  (mergeLocations a b = a <-> covers a b).
Proof.
  split; [| split].
  - apply location_eq.
    + rewrite (proj1 (mergeLocations_earlier_later _ _)).
      apply earlier_absorbs, pos_le_refl.
    + rewrite (proj2 (mergeLocations_earlier_later _ _)).
      apply later_absorbs, pos_le_refl.
  - apply location_eq.
    + rewrite !(proj1 (mergeLocations_earlier_later _ _)). apply earlier_assoc.
    + rewrite !(proj2 (mergeLocations_earlier_later _ _)). apply later_assoc.
  - split.
    + intros <-. apply mergeLocations_covers_r.
    + intros [H1 H2]. apply location_eq.
      * rewrite (proj1 (mergeLocations_earlier_later _ _)).
        now apply earlier_absorbs.
      * rewrite (proj2 (mergeLocations_earlier_later _ _)).
        now apply later_absorbs.
Qed.

Section LocationContainingNodesCover.

Variable locations : LocStore.

Local Notation locationOf' := (locationOf locations).
Local Notation locationContainingNodes' := (locationContainingNodes locations).

(** X2: the span [locationContainingNodes] returns covers the span of each
    of the nodes, which then all have location data, and it is the smallest
    such span: every span that covers the span of each node covers it. *)
Theorem locationContainingNodes_smallest_cover (nodes : list CSNode)
  (span : LocationData) :
  locationContainingNodes' nodes = Ok (Some span) ->
  (forall n, In n nodes ->
             exists l, locationOf' n = Some l /\ covers span l) /\
  (forall s,
      (forall n l, In n nodes -> locationOf' n = Some l -> covers s l) ->
      covers s span).
Proof.
  revert span. induction nodes as [| n0 rest IH]; intros span H.
  - discriminate.
  - destruct rest as [| n1 rest].
    + simpl in H. injection H as H. split.
      * intros n [<- | []]. exists span. split; [exact H | apply covers_refl].
      * intros s Hs. apply (Hs n0 span); [now left | exact H].
    + rewrite locationContainingNodes_cons in H.
      destruct (locationContainingNodes' (n1 :: rest)) as [[inner |] |] eqn:E;
        simpl in H; try discriminate.
      * destruct (locationOf' n0) as [l0 |] eqn:E0; simpl in H;
          [| discriminate].
        injection H as <-.
        destruct (IH inner eq_refl) as [Hall Hleast]. split.
        -- intros n [<- | Hin].
           ++ exists l0. split; [exact E0 | apply mergeLocations_covers_l].
           ++ destruct (Hall n Hin) as (l & Hl & Hc). exists l.
              split; [exact Hl |].
              apply covers_trans with inner;
                [apply mergeLocations_covers_r | exact Hc].
        -- intros s Hs. apply mergeLocations_least.
           ++ apply (Hs n0 l0); [now left | exact E0].
           ++ apply Hleast. intros n l Hin. apply Hs. now right.
      * destruct (locationOf' n0); discriminate.
Qed.

Lemma locationContainingNodes_cases (n0 n1 : CSNode) (rest : list CSNode) :
  (Forall (fun n => locationOf' n <> None) (n0 :: n1 :: rest) /\
   exists span, locationContainingNodes' (n0 :: n1 :: rest) = Ok (Some span))
  \/
  (Exists (fun n => locationOf' n = None) (n0 :: n1 :: rest) /\
   locationContainingNodes' (n0 :: n1 :: rest) = Err TypeError).
Proof.
  revert n0 n1. induction rest as [| n2 rest IH]; intros n0 n1.
  - simpl. destruct (locationOf' n0) as [l0 |] eqn:E0;
      [destruct (locationOf' n1) as [l1 |] eqn:E1 |]; simpl.
    + left. split; [| eauto].
      repeat constructor; congruence.
    + right. split; [| reflexivity].
      apply Exists_cons_tl, Exists_cons_hd, E1.
    + right. split; [| reflexivity]. apply Exists_cons_hd, E0.
  - rewrite locationContainingNodes_cons.
    destruct (IH n1 n2) as [[Hall [inner ->]] | [Hex ->]]; simpl.
    + destruct (locationOf' n0) as [l0 |] eqn:E0; simpl.
      * left. split; [| eauto]. constructor; [congruence | exact Hall].
      * right. split; [| reflexivity]. apply Exists_cons_hd, E0.
    + right. split; [| reflexivity]. now apply Exists_cons_tl.
Qed.

(** X3: on two nodes or more, [locationContainingNodes] throws exactly when
    one of the nodes has no location data (a TypeError, from reading a field
    of null), and returns a span otherwise.  On one node it returns the
    node's location data as it is, null included, and never throws. *)
Theorem locationContainingNodes_null_location (nodes : list CSNode) :
  (2 <= List.length nodes)%nat ->
  ((exists e, locationContainingNodes' nodes = Err e) <->
   (exists n, In n nodes /\ locationOf' n = None)) /\
  (forall e, locationContainingNodes' nodes = Err e -> e = TypeError) /\
  (forall r, locationContainingNodes' nodes = Ok r -> r <> None).
Proof.
  destruct nodes as [| n0 [| n1 rest]]; simpl List.length; try lia.
  intros _.
  destruct (locationContainingNodes_cases n0 n1 rest)
    as [[Hall [span E]] | [Hex E]]; rewrite E.
  - split; [| split].
    + split; [intros [e He]; discriminate |].
      intros (n & Hin & Hn). exfalso.
      apply (proj1 (Forall_forall _ _) Hall n Hin Hn).
    + discriminate.
    + intros r H. injection H as <-. discriminate.
  - split; [| split].
    + split; [| eauto]. intros _. apply Exists_exists in Hex. exact Hex.
    + intros e H. now injection H as <-.
    + discriminate.
Qed.

End LocationContainingNodesCover.

(** ** The node builder *)

Lemma take_length (n : nat) (s : string) :
  String.length (JsString.take n s) = Nat.min n (String.length s).
Proof.
  revert s. induction n as [| n IH]; intros s; simpl.
  - reflexivity.
  - destruct s as [| c s]; simpl; [reflexivity | now rewrite IH].
Qed.

(** The number of characters [slice] returns for offsets that are not
    negative. *)
Lemma slice_length (s : string) (a b : Z) :
  0 <= a -> 0 <= b ->
  JsString.length (JsString.slice s a b)
  = Z.max (Z.min b (JsString.length s) - Z.min a (JsString.length s)) 0.
Proof.
  intros Ha Hb. unfold JsString.slice.
  assert (Ea : (a <? 0) = false) by now apply Z.ltb_ge.
  assert (Eb : (b <? 0) = false) by now apply Z.ltb_ge.
  rewrite Ea, Eb. unfold JsString.length.
  rewrite take_length, drop_length. lia.
Qed.

Section NodeBuilderRange.

Variable source : string.
Variable mapper : Mapper.

Local Notation makeNode' := (makeNode source mapper).

Lemma expandRangeAll_Err (l : list (option Node)) (rng : Z * Z) (e : Error) :
  expandRangeAll rng l = Err e <-> e = TypeError /\ In None l.
Proof.
  revert rng. induction l as [| [c |] l IH]; intros rng; simpl.
  - split; [discriminate | tauto].
  - rewrite IH. split; [tauto |]. intros [H [H' | H']]; [discriminate | tauto].
  - split; [intros H; injection H as <-; tauto | now intros [-> _]].
Qed.

Lemma expandRangeForAttr_Err (value : Attr Node) (rng : Z * Z) (e : Error) :
  expandRangeForAttr rng value = Err e <->
  e = TypeError /\ exists l, value = ANodes l /\ In None l.
Proof.
  destruct value as [| | c | l | v]; simpl;
    try (split; [discriminate | intros (_ & l & H & _); discriminate]).
  rewrite expandRangeAll_Err. split.
  - intros [H1 H2]. eauto.
  - intros (H1 & l' & H2 & H3). injection H2 as <-. tauto.
Qed.

Lemma expandRangeForAttrs_Err (l : list (string * Attr Node)) (rng : Z * Z)
  (e : Error) :
  expandRangeForAttrs rng l = Err e <->
  e = TypeError /\ exists key nodes, In (key, ANodes nodes) l /\ In None nodes.
Proof.
  revert rng. induction l as [| [key value] l IH]; intros rng; simpl.
  - split; [discriminate | intros (_ & k & ns & [] & _)].
  - destruct (expandRangeForAttr rng value) as [rng1 | e0] eqn:E; simpl.
    + rewrite IH. split.
      * intros (H1 & k & ns & H2 & H3). split; [exact H1 |].
        exists k, ns. tauto.
      * intros (H1 & k & ns & [H2 | H2] & H3).
        -- injection H2 as -> ->.
           assert (H : expandRangeForAttr rng (ANodes ns) = Err TypeError)
             by (apply expandRangeForAttr_Err; eauto).
           congruence.
        -- split; [exact H1 |]. exists k, ns. tauto.
    + apply expandRangeForAttr_Err in E. destruct E as (-> & ns & -> & Hin).
      split.
      * intros H. injection H as <-. split; [reflexivity |].
        exists key, ns. tauto.
      * now intros [-> _].
Qed.

Lemma makeNode_Err (nodeType : option string) (loc : option LocationData)
  (attributes : list (string * Attr Node)) (e : Error) :
  makeNode' nodeType loc attributes = Err e <->
  e = TypeError /\ loc <> None /\
  exists key nodes, In (key, ANodes nodes) attributes /\ In None nodes.
Proof.
  unfold makeNode. destruct loc as [l |].
  - destruct (expandRangeForAttrs _ attributes) as [rng | e0] eqn:E; simpl.
    + split; [discriminate |]. intros (-> & _ & H).
      assert (H' : expandRangeForAttrs
                     (offsetOf mapper (first_line l) (first_column l),
                      offsetOf mapper (last_line l) (last_column l) + 1)
                     attributes = Err TypeError)
        by (apply expandRangeForAttrs_Err; tauto).
      congruence.
    + apply expandRangeForAttrs_Err in E. destruct E as [-> H]. split.
      * intros H'. injection H' as <-. split; [reflexivity |].
        split; [discriminate | exact H].
      * now intros [-> _].
  - split; [discriminate |]. intros (_ & H & _). now contradiction H.
Qed.

(** X4: [makeNode] throws exactly when it is given a location and an
    attribute that is an array holding null (a TypeError, from reading
    [range] of null).  Without a location it returns a virtual node whatever
    the attributes are, and with attributes that are each a node or null it
    returns a node at any location. *)
Theorem makeNode_throws_iff (nodeType : option string)
  (loc : option LocationData) (attributes : list (string * Attr Node)) :
  (forall e,
      makeNode' nodeType loc attributes = Err e <->
      e = TypeError /\ loc <> None /\
      exists key nodes, In (key, ANodes nodes) attributes /\ In None nodes) /\
  (exists n, makeNode' nodeType None attributes = Ok n /\ virtual n = true) /\
  (forall l : list (string * option Node),
      exists n,
        makeNode' nodeType loc (map (fun kv => (fst kv, attr_of (snd kv))) l)
        = Ok n).
Proof.
  split; [| split].
  - intros e. apply makeNode_Err.
  - eexists. split; reflexivity.
  - intros l.
    destruct (makeNode' nodeType loc
                (map (fun kv => (fst kv, attr_of (snd kv))) l))
      as [n | e] eqn:E; [eauto |].
    apply makeNode_Err in E. destruct E as (_ & _ & key & nodes & Hin & _).
    apply in_map_iff in Hin. destruct Hin as ([k [c |]] & H & _); discriminate.
Qed.

Lemma expandRange_bounded (rng : Z * Z) (child : Node) (x y : Z) :
  x <= fst rng -> snd rng <= y ->
  (forall c0 c1, range child = Some (c0, c1) -> x <= c0 /\ c1 <= y) ->
  x <= fst (expandRange rng child) /\ snd (expandRange rng child) <= y.
Proof.
  intros Hx Hy Hc. unfold expandRange.
  destruct (range child) as [[c0 c1] |]; simpl; [| lia].
  destruct (Hc c0 c1 eq_refl) as [H0 H1].
  destruct (fst rng >? c0), (snd rng <? c1); lia.
Qed.

Lemma expandRangeAll_bounded (l : list (option Node)) (rng rng' : Z * Z)
  (x y : Z) :
  expandRangeAll rng l = Ok rng' ->
  x <= fst rng -> snd rng <= y ->
  (forall c c0 c1, In (Some c) l -> range c = Some (c0, c1) ->
                   x <= c0 /\ c1 <= y) ->
  x <= fst rng' /\ snd rng' <= y.
Proof.
  revert rng. induction l as [| [c |] l IH]; intros rng H Hx Hy Hc;
    simpl in H.
  - injection H as <-. lia.
  - assert (B : x <= fst (expandRange rng c) /\ snd (expandRange rng c) <= y).
    { apply expandRange_bounded; auto. intros c0 c1. apply Hc. now left. }
    apply (IH _ H); [tauto | tauto |].
    intros c' c0 c1 Hin. apply Hc. now right.
  - discriminate.
Qed.

Lemma expandRangeForAttr_bounded (value : Attr Node) (rng rng' : Z * Z)
  (x y : Z) :
  expandRangeForAttr rng value = Ok rng' ->
  x <= fst rng -> snd rng <= y ->
  (forall c c0 c1, In c (attr_children value) -> range c = Some (c0, c1) ->
                   x <= c0 /\ c1 <= y) ->
  x <= fst rng' /\ snd rng' <= y.
Proof.
  destruct value as [| | c | l | v]; simpl; intros H Hx Hy Hc;
    try (injection H as <-; lia).
  - injection H as <-. apply expandRange_bounded; auto.
    intros c0 c1. apply Hc. now left.
  - apply (expandRangeAll_bounded l rng rng' x y H Hx Hy).
    intros c c0 c1 Hin. apply Hc.
    apply (proj2 (attr_children_ANodes l c) Hin).
Qed.

Lemma expandRangeForAttrs_bounded (l : list (string * Attr Node))
  (rng rng' : Z * Z) (x y : Z) :
  expandRangeForAttrs rng l = Ok rng' ->
  x <= fst rng -> snd rng <= y ->
  (forall c c0 c1,
      In c (flat_map (fun kv => attr_children (snd kv)) l) ->
      range c = Some (c0, c1) -> x <= c0 /\ c1 <= y) ->
  x <= fst rng' /\ snd rng' <= y.
Proof.
  revert rng. induction l as [| [key value] l IH]; intros rng H Hx Hy Hc;
    simpl in H.
  - injection H as <-. lia.
  - destruct (expandRangeForAttr rng value) as [rng1 |] eqn:E; simpl in H;
      [| discriminate].
    assert (H1 : x <= fst rng1 /\ snd rng1 <= y).
    { apply (expandRangeForAttr_bounded value rng rng1 x y E Hx Hy).
      intros c c0 c1 Hin. apply Hc. simpl. apply in_or_app. now left. }
    apply (IH rng1 H); [tauto | tauto |].
    intros c c0 c1 Hin. apply Hc. simpl. apply in_or_app. now right.
Qed.

(** X5: the range of a node built at a location, from the offsets [start]
    and [stop] of that location.  It lies within every interval that holds
    [start], [stop] and the range of each node of the attributes, so it is
    the smallest such interval cut to the source; it holds [start] and
    [stop] when they are offsets of the source; and it is ordered when
    [start <= stop] and the two are on the sides of the source they should
    be. *)
Theorem makeNode_range_hull (nodeType : option string) (l : LocationData)
  (attributes : list (string * Attr Node)) (n : Node) :
  let start := offsetOf mapper (first_line l) (first_column l) in
  let stop := offsetOf mapper (last_line l) (last_column l) + 1 in
  makeNode' nodeType (Some l) attributes = Ok n ->
  exists r0 r1,
    range n = Some (r0, r1) /\
    (forall x y,
        x <= start -> stop <= y ->
        (forall c c0 c1, In c (children n) -> range c = Some (c0, c1) ->
                         x <= c0 /\ c1 <= y) ->
        x <= r0 /\ r1 <= y) /\
    (0 <= start -> r0 <= start) /\
    (stop <= JsString.length source -> stop <= r1) /\
    (start <= stop -> start <= JsString.length source -> 0 <= stop ->
     r0 <= r1).
Proof.
  intros start stop H.
  pose proof (makeNode_inv _ _ _ _ _ _ H)
    as (_ & Ha & rng & Hrng & _ & _ & _ & Hr & _).
  fold start stop in Hrng.
  pose proof (expandRangeForAttrs_grows _ _ _ Hrng) as [G0 G1].
  simpl in G0, G1.
  assert (Hlen : 0 <= JsString.length source)
    by (unfold JsString.length; lia).
  exists (fst (shrinkRange source rng)), (snd (shrinkRange source rng)).
  rewrite Hr, <- surjective_pairing. split; [reflexivity |].
  unfold shrinkRange; cbn [fst snd].
  split; [| split; [| split]].
  - intros x y Hx Hy Hc.
    assert (B : x <= fst rng /\ snd rng <= y).
    { apply (expandRangeForAttrs_bounded attributes (start, stop) rng x y Hrng);
        [exact Hx | exact Hy |].
      unfold children in Hc. rewrite Ha in Hc. exact Hc. }
    destruct (fst rng <? 0) eqn:E0, (snd rng >? JsString.length source) eqn:E1;
      rewrite ?Z.gtb_ltb in E1;
      rewrite ?Z.ltb_lt, ?Z.ltb_ge in E0, E1; lia.
  - intros H0. destruct (fst rng <? 0) eqn:E0;
      rewrite ?Z.ltb_lt, ?Z.ltb_ge in E0; lia.
  - intros H1. destruct (snd rng >? JsString.length source) eqn:E1;
      rewrite ?Z.gtb_ltb in E1; rewrite ?Z.ltb_lt, ?Z.ltb_ge in E1; lia.
  - intros H0 H1 H2.
    destruct (fst rng <? 0) eqn:E0, (snd rng >? JsString.length source) eqn:E1;
      rewrite ?Z.gtb_ltb in E1;
      rewrite ?Z.ltb_lt, ?Z.ltb_ge in E0, E1; lia.
Qed.

(** X6: the raw text of a built node with an ordered range
    [range[0] <= range[1]] has [range[1] - range[0]] characters; it is empty
    when the range is not ordered. *)
Theorem Built_raw_length (n : Node) (a b : Z) :
  Built source mapper n ->
  range n = Some (a, b) ->
  exists s,
    raw n = Some s /\
    (a <= b -> JsString.length s = b - a) /\
    (0 <= b < a -> s = "").
Proof.
  intros Hn Hr.
  assert (Hv : virtual n = false).
  { destruct (Built_inv _ _ n Hn) as [(nodeType & loc & H) _].
    pose proof (makeNode_virtual_iff _ _ _ _ _ _ H) as [Hv _].
    destruct (virtual n); [| reflexivity].
    rewrite (proj1 Hv eq_refl) in Hr. discriminate. }
  destruct (Built_raw _ _ n Hn Hv) as (a' & b' & Hr' & Hraw & H0 & H1).
  rewrite Hr in Hr'. injection Hr' as <- <-.
  exists (JsString.slice source a b). split; [exact Hraw |]. split.
  - intros Hab. rewrite slice_length by lia. lia.
  - intros Hab. apply length_zero_empty. rewrite slice_length by lia. lia.
Qed.

End NodeBuilderRange.

(** ** The converter as a whole *)

Section ConversionProperties.

Variable parseLiteral : string -> option string.
Variable JSON_parse : string -> option JsValue.
Variable locations : LocStore.
Variable source : string.
Variable mapper : Mapper.

Local Notation convert' :=
  (convert parseLiteral JSON_parse locations source mapper).
Local Notation parse' :=
  (parse parseLiteral JSON_parse locations source mapper).
Local Notation makeNode' := (makeNode source mapper).
Local Notation makeNode_some' := (makeNode_some source mapper).
Local Notation Built' := (Built source mapper).
Local Notation locationOf' := (locationOf locations).

Lemma convert_irrelevant (node a b : CSNode) (anc anc' : list CSNode) :
  convert' node (a :: anc) = convert' node (b :: anc').
Proof.
  apply (Deep_here _ _
           (convert_ancestors_irrelevant parseLiteral JSON_parse locations
              source mapper node)).
Qed.

(** X7: a node that is not the root is converted in the same way whatever
    its ancestors are: [convert] reads [ancestors] only to tell the root,
    which has none, from the other nodes. *)
Theorem convert_nonroot_ancestors (node a b : CSNode)
  (ancestors ancestors' : list CSNode) :
  convert' node (a :: ancestors) = convert' node (b :: ancestors').
Proof. apply convert_irrelevant. Qed.

Lemma convert_Built_node (node : CSNode) (ancestors : list CSNode) (n : Node) :
  convert' node ancestors = Ok (Some n) -> Built' n.
Proof.
  intros H.
  exact (Deep_here _ _
           (convert_Built parseLiteral JSON_parse locations source mapper node)
           ancestors _ H n eq_refl).
Qed.

(** X8: every node [d] of a tree [convert] returns, the root of the tree or
    a node below it, is well formed.  It is virtual exactly when it has no
    range, and then it has no line, column or raw text either; when it is
    not virtual, its range lies within the source, its raw text is the slice
    of the source at its range, and it has a line and a column; and its
    range, when it has one, contains the range of each of its direct
    children that has one. *)
Theorem convert_tree_well_formed (node : CSNode) (ancestors : list CSNode)
  (n d : Node) :
  convert' node ancestors = Ok (Some n) ->
  d = n \/ descendant n d ->
  (virtual d = true <-> range d = None) /\
  (virtual d = true -> line d = None /\ column d = None /\ raw d = None) /\
  (virtual d = false ->
   exists a b,
     range d = Some (a, b) /\
     raw d = Some (JsString.slice source a b) /\
     0 <= a /\ b <= JsString.length source /\
     line d <> None /\ column d <> None) /\
  (forall c, In c (children d) -> range d <> None -> range c <> None ->
             rangeContains d c).
Proof.
  intros H Hd.
  assert (Bd : Built' d).
  { pose proof (convert_Built_node _ _ _ H) as Bn.
    destruct Hd as [-> | Hd]; [exact Bn |].
    now apply Built_descendant with n. }
  destruct (Built_inv _ _ d Bd) as [(nodeType & loc & Hm) Hch].
  pose proof (makeNode_inv _ _ _ _ _ _ Hm) as (_ & _ & Hloc).
  split; [apply (makeNode_virtual_iff _ _ _ _ _ _ Hm) |].
  split; [| split].
  - intros Hv. destruct loc as [l |].
    + destruct Hloc as (rng & _ & Hv' & _). congruence.
    + tauto.
  - intros Hv.
    destruct (Built_raw _ _ d Bd Hv) as (a & b & Hr & Hraw & H0 & H1).
    exists a, b. repeat split; try assumption.
    + destruct loc as [l |].
      * destruct Hloc as (rng & _ & _ & Hl & _). rewrite Hl. discriminate.
      * destruct Hloc as (Hv' & _). congruence.
    + destruct loc as [l |].
      * destruct Hloc as (rng & _ & _ & _ & Hc & _). rewrite Hc. discriminate.
      * destruct Hloc as (Hv' & _). congruence.
  - intros c Hin Hrd Hrc. now apply (Built_contains_child source mapper).
Qed.

Lemma attr_makeNode (nodeType : option string) (loc : option LocationData)
  (attributes : list (string * Attr Node)) (n : Node) (key : string) :
  makeNode' nodeType loc attributes = Ok n ->
  attr n key = match lookup key attributes with
               | Some v => v
               | None => AUndefined
               end.
Proof.
  intros H. unfold attr.
  now rewrite (proj1 (proj2 (makeNode_inv _ _ _ _ _ _ H))).
Qed.

(** A node built around one child at the location of the child has the
    position, the range and the raw text of the child. *)
Lemma makeNode_around (t t' : option string) (loc : option LocationData)
  (attributes : list (string * Attr Node)) (key : string) (inner outer : Node) :
  makeNode' t loc attributes = Ok inner ->
  makeNode' t' loc [(key, ANode inner)] = Ok outer ->
  line outer = line inner /\ column outer = column inner /\
  range outer = range inner /\ raw outer = raw inner /\
  virtual outer = virtual inner.
Proof.
  intros Hi Ho.
  pose proof (makeNode_inv _ _ _ _ _ _ Hi) as (_ & _ & Li).
  pose proof (makeNode_inv _ _ _ _ _ _ Ho) as (_ & _ & Lo).
  destruct loc as [l |].
  - destruct Li as (rng & Hrng & Hv & Hl & Hc & Hr & Hraw).
    destruct Lo as (rng' & Hrng' & Hv' & Hl' & Hc' & Hr' & Hraw').
    assert (E : shrinkRange source rng' = shrinkRange source rng).
    { simpl in Hrng'. injection Hrng' as <-.
      pose proof (expandRangeForAttrs_grows _ _ _ Hrng) as [G0 G1].
      simpl in G0, G1.
      unfold expandRange. rewrite Hr.
      assert (Hlen : 0 <= JsString.length source)
        by (unfold JsString.length; lia).
      destruct rng as [h0 h1]. unfold shrinkRange; cbn [fst snd] in *.
      clear Hrng Hraw Hraw' Hr Hr'.
      set (start := offsetOf mapper (first_line l) (first_column l)) in *.
      set (stop := offsetOf mapper (last_line l) (last_column l) + 1) in *.
      clearbody start stop.
      repeat (match goal with
              | |- context [if ?c then _ else _] =>
                  lazymatch c with
                  | context [if _ then _ else _] => fail
                  | _ => destruct c eqn:?
                  end
              end; cbn iota);
        repeat match goal with
               | E : (_ >? _) = _ |- _ => rewrite Z.gtb_ltb in E
               | E : (_ <? _) = true |- _ => apply Z.ltb_lt in E
               | E : (_ <? _) = false |- _ => apply Z.ltb_ge in E
               end; f_equal; lia. }
    rewrite Hl, Hl', Hc, Hc', Hr, Hr', Hraw, Hraw', Hv, Hv', E. tauto.
  - destruct Li as (Hv & Hl & Hc & Hr & Hraw).
    destruct Lo as (Hv' & Hl' & Hc' & Hr' & Hraw').
    rewrite Hl, Hl', Hc, Hc', Hr, Hr', Hraw, Hraw', Hv, Hv'. tauto.
Qed.


End ConversionProperties.

(** ** The errors that carry a node, and the null results *)

Lemma inTree_trans (a b c : CSNode) : inTree a b -> inTree b c -> inTree a c.
Proof.
  intros Hab Hbc. induction Hbc as [| top d Hin _ IH].
  - exact Hab.
  - now apply inTree_below with d.
Qed.

Lemma inTree_child (top c : CSNode) : In c (csChildren top) -> inTree c top.
Proof. intros H. apply inTree_below with c; [exact H | constructor]. Qed.

Lemma Deep_map (P Q : CSNode -> Prop) (top : CSNode) :
  Deep P top -> (forall n, inTree n top -> P n -> Q n) -> Deep Q top.
Proof.
  induction 1 as [node Hn _ IH]. intros H. constructor.
  - apply H; [constructor | exact Hn].
  - intros c Hc. apply IH; [exact Hc |].
    intros n Hin. apply H. now apply inTree_below with c.
Qed.

Section CarriedErrors.

Variable top : CSNode.

Lemma carries_Ok {A : Type} (a : A) : carriesTreeNode top (Ok a).
Proof. intros e H. discriminate. Qed.

Lemma carries_bind {A B : Type} (m : result A) (k : A -> result B) :
  carriesTreeNode top m -> (forall x, carriesTreeNode top (k x)) ->
  carriesTreeNode top (bind m k).
Proof.
  intros Hm Hk e H. destruct m as [x | e']; simpl in H.
  - now apply (Hk x).
  - injection H as <-. now apply Hm.
Qed.

Lemma carries_mapResult {A B : Type} (f : A -> result B) (l : list A) :
  (forall x, In x l -> carriesTreeNode top (f x)) ->
  carriesTreeNode top (mapResult f l).
Proof.
  induction l as [| x l IH]; intros H; simpl.
  - apply carries_Ok.
  - apply carries_bind; [apply H; now left |]. intros y.
    apply carries_bind; [| intros ys; apply carries_Ok].
    apply IH. intros z Hz. apply H. now right.
Qed.

Lemma carries_foldResult {A S : Type} (f : S -> A -> result S) (l : list A)
  (s : S) :
  (forall s x, In x l -> carriesTreeNode top (f s x)) ->
  carriesTreeNode top (foldResult f l s).
Proof.
  revert s. induction l as [| x l IH]; intros s H; simpl.
  - apply carries_Ok.
  - apply carries_bind; [apply H; now left |]. intros s'.
    apply IH. intros s0 z Hz. apply H. now right.
Qed.

Lemma carries_quiet {A : Type} (r : result A) :
  quiet r -> carriesTreeNode top r.
Proof.
  intros Hq e H. specialize (Hq e H). destruct e; tauto.
Qed.

End CarriedErrors.

Lemma quiet_Ok {A : Type} (a : A) : quiet (Ok a).
Proof. intros e H. discriminate. Qed.

Lemma quiet_bind {A B : Type} (m : result A) (k : A -> result B) :
  quiet m -> (forall x, quiet (k x)) -> quiet (bind m k).
Proof.
  intros Hm Hk e H. destruct m as [x | e']; simpl in H.
  - now apply (Hk x).
  - injection H as <-. now apply Hm.
Qed.

Lemma quiet_TypeError {A : Type} : quiet (@Err A TypeError).
Proof. intros e H. now injection H as <-. Qed.

Lemma quiet_mergeLocations_nullable (a b : option LocationData) :
  quiet (mergeLocations_nullable a b).
Proof.
  destruct a, b; simpl; first [apply quiet_Ok | apply quiet_TypeError].
Qed.


Lemma carries_lift {A : Type} (top d : CSNode) (r : result A) :
  inTree d top -> carriesTreeNode d r -> carriesTreeNode top r.
Proof.
  intros Hin Hd e H. specialize (Hd e H). destruct e; try exact I.
  - destruct Hd as (H1 & H2 & H3). repeat split; try assumption.
    now apply inTree_trans with d.
  - destruct Hd as (H1 & H2 & loc & base & properties & H3 & H4).
    repeat split; try assumption. exists loc, base, properties.
    split; [now apply inTree_trans with d | exact H4].
Qed.

Lemma bind_ret {A : Type} (m : result A) : bind m (fun x => Ok x) = m.
Proof. now destruct m. Qed.

Lemma neverNull_bind {A : Type} (m : result A)
  (k : A -> result (option Node)) :
  (forall x, neverNull (k x)) -> neverNull (bind m k).
Proof.
  intros H. destruct m as [x |]; simpl; [apply H | discriminate].
Qed.

Lemma neverNull_foldResult {A : Type}
  (f : option Node -> A -> result (option Node)) (l : list A)
  (s : option Node) :
  l <> [] -> (forall s x, neverNull (f s x)) -> neverNull (foldResult f l s).
Proof.
  revert s. induction l as [| x l IH]; intros s Hl Hf; [congruence |].
  simpl. destruct l as [| y l].
  - simpl. destruct (f s x) as [s' |] eqn:E; simpl; [| discriminate].
    rewrite <- E. apply Hf.
  - destruct (f s x) as [s' |]; simpl; [| discriminate].
    apply IH; [discriminate | exact Hf].
Qed.

Section ErrorsAndNull.

Variable parseLiteral : string -> option string.
Variable JSON_parse : string -> option JsValue.
Variable locations : LocStore.
Variable source : string.
Variable mapper : Mapper.

Local Notation convert' :=
  (convert parseLiteral JSON_parse locations source mapper).

Lemma quiet_makeNode nodeType loc attributes :
  quiet (makeNode source mapper nodeType loc attributes).
Proof. intros e H. apply makeNode_Err in H. now destruct H as [-> _]. Qed.

Lemma quiet_makeNode_some nodeType loc attributes :
  quiet (makeNode_some source mapper nodeType loc attributes).
Proof.
  apply quiet_bind; [apply quiet_makeNode | intros n; apply quiet_Ok].
Qed.

Lemma quiet_convertLiteral loc value :
  quiet (convertLiteral parseLiteral JSON_parse source mapper loc value).
Proof.
  unfold convertLiteral. destruct (looks_numeric value).
  - destruct (JSON_parse value) as [data |].
    + apply quiet_bind; [| intros t; apply quiet_makeNode_some].
      destruct data; simpl; intros e H; try discriminate;
        injection H as <-; exact I.
    + intros e H. injection H as <-. exact I.
  - destruct (value =? "this")%string; [apply quiet_makeNode_some |].
    destruct (parseLiteral value); apply quiet_makeNode_some.
Qed.

Lemma quiet_convertBool loc val :
  quiet (convertBool JSON_parse source mapper loc val).
Proof.
  unfold convertBool. destruct (JSON_parse val).
  - apply quiet_makeNode_some.
  - intros e H. injection H as <-. exact I.
Qed.

Lemma quiet_locationContainingNodes nodes :
  quiet (locationContainingNodes locations nodes).
Proof.
  induction nodes as [| n0 rest IH]; [apply quiet_Ok |].
  destruct rest as [| n1 rest]; [apply quiet_Ok |].
  rewrite locationContainingNodes_cons.
  apply quiet_bind; [exact IH | intros inner].
  apply quiet_mergeLocations_nullable.
Qed.

Lemma quiet_expandLocationRightThrough_nullable loc anchor :
  quiet (expandLocationRightThrough_nullable source mapper loc anchor).
Proof.
  destruct loc as [l |]; simpl; [| apply quiet_TypeError].
  apply quiet_bind; [| intros l'; apply quiet_Ok].
  unfold expandLocationRightThrough.
  destruct (_ <? 0); [| apply quiet_Ok].
  intros e H. injection H as <-. exact I.
Qed.

Lemma quiet_expandLocationLeftThrough_nullable loc anchor :
  quiet (expandLocationLeftThrough_nullable source mapper loc anchor).
Proof.
  destruct loc as [l |]; simpl; [| apply quiet_TypeError].
  apply quiet_bind; [| intros l'; apply quiet_Ok].
  unfold expandLocationLeftThrough.
  destruct (_ <? 0); [| apply quiet_Ok].
  intros e H. injection H as <-. exact I.
Qed.

Lemma quiet_classMember st propLoc key value :
  quiet (classMember source mapper st propLoc key value).
Proof.
  unfold classMember. destruct key as [k |]; [| apply quiet_TypeError].
  apply quiet_bind.
  - destruct (isConstructorKey k).
    + apply quiet_bind; [apply quiet_makeNode | intros m; apply quiet_Ok].
    + apply quiet_bind.
      * unfold isThisMember. destruct (node_type k) as [t |];
          [| apply quiet_Ok].
        destruct (t =? "MemberAccessOp")%string; [| apply quiet_Ok].
        destruct (attr k "expression");
          first [apply quiet_Ok | apply quiet_TypeError].
      * intros [|];
          (apply quiet_bind; [apply quiet_makeNode | intros m; apply quiet_Ok]).
  - intros st'. apply quiet_bind.
    + destruct value; [apply quiet_Ok | apply quiet_TypeError].
    + intros [|]; apply quiet_Ok.
Qed.

(** One step through the body of [convert]: the pieces that do not recurse
    raise neither error, and the recursive calls are covered by the
    induction hypothesis. *)
Ltac carry :=
  repeat match goal with
         | H : (fun _ => _) _ |- _ => cbv beta in H
         end;
  match goal with
  | |- carriesTreeNode _ (Ok _) => apply carries_Ok
  | |- carriesTreeNode _ (Err TypeError) =>
      apply carries_quiet, quiet_TypeError
  | |- carriesTreeNode _ (bind _ _) => apply carries_bind; [| intros ?]
  | |- carriesTreeNode _ (mapResult _ _) =>
      apply carries_mapResult; intros ? ?
  | |- carriesTreeNode _ (foldResult _ ?l _) =>
      let Hin := fresh "Hin" in
      let Hkeep := fresh "Hkeep" in
      apply carries_foldResult; intros ? ? Hin;
      pose proof (conj I Hin) as Hkeep
  | |- carriesTreeNode _ (makeNode_some _ _ _ _ _) =>
      apply carries_quiet, quiet_makeNode_some
  | |- carriesTreeNode _ (makeNode _ _ _ _ _) =>
      apply carries_quiet, quiet_makeNode
  | |- carriesTreeNode _ (convertLiteral _ _ _ _ _ _) =>
      apply carries_quiet, quiet_convertLiteral
  | |- carriesTreeNode _ (convertBool _ _ _ _ _) =>
      apply carries_quiet, quiet_convertBool
  | |- carriesTreeNode _ (locationContainingNodes _ _) =>
      apply carries_quiet, quiet_locationContainingNodes
  | |- carriesTreeNode _ (mergeLocations_nullable _ _) =>
      apply carries_quiet, quiet_mergeLocations_nullable
  | |- carriesTreeNode _ (expandLocationRightThrough_nullable _ _ _ _) =>
      apply carries_quiet, quiet_expandLocationRightThrough_nullable
  | |- carriesTreeNode _ (expandLocationLeftThrough_nullable _ _ _ _) =>
      apply carries_quiet, quiet_expandLocationLeftThrough_nullable
  | |- carriesTreeNode _ (classMember _ _ _ _ _ _) =>
      apply carries_quiet, quiet_classMember
  | H : Deep _ ?c |- carriesTreeNode _ (convert _ _ _ _ _ ?c _) =>
      apply (Deep_here _ _ H)
  | H : forall anc, carriesTreeNode _ (convert _ _ _ _ _ ?c anc)
    |- carriesTreeNode _ (convert _ _ _ _ _ ?c _) => apply H
  | |- carriesTreeNode _ (if ?c then _ else _) => destruct c
  | |- carriesTreeNode _ (match ?x with _ => _ end) => destruct x
  | |- carriesTreeNode _ (let (_, _) := ?x in _) => destruct x
  end; deep_expand.

Lemma convert_carries (node : CSNode) :
  Deep (fun node => forall anc, carriesTreeNode node (convert' node anc)) node.
Proof.
  revert node.
  apply (CSNode_deep_ind
           (fun node => forall anc, carriesTreeNode node (convert' node anc))).
  intros node IH.
  assert (IH' : Forall
                  (Deep (fun d => forall anc,
                             carriesTreeNode node (convert' d anc)))
                  (csChildren node)).
  { apply Forall_forall. intros c Hc.
    apply (Deep_map _ _ c (IH c Hc)).
    intros d Hd H anc. apply carries_lift with d; [| apply H].
    now apply inTree_below with c. }
  clear IH. intros anc.
  destruct anc as [| a anc];
    destruct node; cbn [convert app csChildren optionalNode] in *;
    deep_expand.
  all: repeat carry.
  all: intros e He; injection He as <-; cbn;
    (split; [reflexivity |]); (split; [reflexivity |]).
  all: try apply inTree_here.
  all: eexists _, _, _; split; [apply inTree_here | exact (proj2 Hkeep)].
Qed.

(** X10: an error of [convert] that carries a node carries a node of the
    tree being converted, with the name of its class.  An unknown node type
    is of a class [convert] has no case for, and every node of such a class
    that is converted raises it; an unknown property type is a property of
    a [Value] of the tree that is neither an [Access] nor an [Index]. *)
Theorem convert_errors_carry_tree_nodes (node : CSNode)
  (ancestors : list CSNode) :
  (forall typeName n,
      convert' node ancestors = Err (UnknownNodeType typeName n) ->
      typeName = type n /\ hasNoCase n = true /\ inTree n node) /\
  (forall typeName prop,
      convert' node ancestors = Err (UnknownPropertyType typeName prop) ->
      typeName = type prop /\ isAccessor prop = false /\
      exists loc base properties,
        inTree (Value loc base properties) node /\ In prop properties) /\
  (forall a anc,
      hasNoCase node = true ->
      convert' node (a :: anc) = Err (UnknownNodeType (type node) node)).
Proof.
  pose proof (Deep_here _ _ (convert_carries node) ancestors) as H.
  cbv beta in H. split; [| split].
  - intros typeName n E. exact (H _ E).
  - intros typeName prop E. exact (H _ E).
  - intros a anc Hn. destruct node; try discriminate; reflexivity.
Qed.

Lemma neverNull_makeNode_some nodeType loc attributes :
  neverNull (makeNode_some source mapper nodeType loc attributes).
Proof.
  unfold makeNode_some. apply neverNull_bind. intros n. discriminate.
Qed.

Lemma neverNull_convertLiteral loc value :
  neverNull (convertLiteral parseLiteral JSON_parse source mapper loc value).
Proof.
  unfold convertLiteral. destruct (looks_numeric value).
  - destruct (JSON_parse value); [| discriminate].
    apply neverNull_bind. intros t. apply neverNull_makeNode_some.
  - destruct (value =? "this")%string; [apply neverNull_makeNode_some |].
    destruct (parseLiteral value); apply neverNull_makeNode_some.
Qed.

Lemma neverNull_convertBool loc val :
  neverNull (convertBool JSON_parse source mapper loc val).
Proof.
  unfold convertBool. destruct (JSON_parse val); [| discriminate].
  apply neverNull_makeNode_some.
Qed.

(** One step towards a result that is not null: through the binds to the
    [makeNode] that ends the case. *)
Ltac never_null :=
  match goal with
  | |- neverNull (Err _) => discriminate
  | |- neverNull (Ok (Some _)) => discriminate
  | |- neverNull (bind _ _) => apply neverNull_bind; intros ?
  | |- neverNull (makeNode_some _ _ _ _ _) => apply neverNull_makeNode_some
  | |- neverNull (convertLiteral _ _ _ _ _ _) => apply neverNull_convertLiteral
  | |- neverNull (convertBool _ _ _ _ _) => apply neverNull_convertBool
  | |- neverNull (foldResult _ (_ :: _) _) =>
      apply neverNull_foldResult; [discriminate | intros ? ?]
  | |- neverNull (if ?c then _ else _) => destruct c
  | |- neverNull (match ?x with _ => _ end) => destruct x
  end.

Ltac not_null :=
  split; [| discriminate];
  let H := fresh in
  intros H; exfalso; revert H;
  match goal with
  | |- ?r = Ok None -> False => change (neverNull r)
  end;
  repeat never_null.

Lemma convert_null (node : CSNode) :
  Deep (fun node => forall a anc,
            convert' node (a :: anc) = Ok None <-> holdsNothing node = true)
       node.
Proof.
  revert node.
  apply (CSNode_deep_ind
           (fun node => forall a anc,
                convert' node (a :: anc) = Ok None
                <-> holdsNothing node = true)).
  intros node IH. apply Forall_forall in IH. intros a anc.
  destruct node; cbn [convert app holdsNothing csChildren optionalNode] in *;
    deep_expand.
  all: try solve [not_null].
  - destruct properties as [| prop properties]; [| not_null].
    cbn [foldResult]. rewrite bind_ret. apply (Deep_here _ _ H).
  - destruct node; try solve [not_null].
    destruct expressions as [| expression rest]; [not_null |].
    deep_expand.
    match goal with
    | Hd : Deep _ expression |- _ => apply (Deep_here _ _ Hd)
    end.
  - destruct value as [value |]; [not_null |].
    rewrite bind_ret. apply (Deep_here _ _ H).
  - destruct expressions; [tauto | not_null].
Qed.

(** X11: a node that is not the root converts to null exactly when it holds
    nothing to convert: an empty block, or a parenthesized expression, a
    parameter without a default or a value without properties around such a
    node.  Every other node converts to a node or raises an error. *)
Theorem convert_null_iff_holdsNothing (node a : CSNode)
  (ancestors : list CSNode) :
  convert' node (a :: ancestors) = Ok None <-> holdsNothing node = true.
Proof. apply (Deep_here _ _ (convert_null node)). Qed.

End ErrorsAndNull.

(** ** The cases of [convert] *)

Lemma bind_assoc {A B C : Type} (m : result A) (f : A -> result B)
  (g : B -> result C) :
  bind (bind m f) g = bind m (fun x => bind (f x) g).
Proof. now destruct m. Qed.

Lemma bind_Ok_inv {A B : Type} (m : result A) (k : A -> result B) (b : B) :
  bind m k = Ok b -> exists a, m = Ok a /\ k a = Ok b.
Proof. destruct m as [a |]; simpl; [eauto | discriminate]. Qed.

Lemma foldResult_snoc {A S : Type} (f : S -> A -> result S) (l : list A)
  (x : A) (s : S) :
  foldResult f (l ++ [x]) s = bind (foldResult f l s) (fun s' => f s' x).
Proof.
  revert s. induction l as [| y l IH]; intros s; simpl.
  - now rewrite bind_ret.
  - destruct (f s y) as [s' |]; simpl; [apply IH | reflexivity].
Qed.

Lemma lookup_In {A : Type} (key : string) (l : list (string * A)) (v : A) :
  lookup key l = Some v -> In (key, v) l.
Proof.
  induction l as [| [k w] l IH]; simpl; [discriminate |].
  destruct (String.eqb k key) eqn:E.
  - intros H. injection H as <-. apply String.eqb_eq in E. subst. now left.
  - intros H. right. now apply IH.
Qed.

Lemma covers_antisym (a b : LocationData) :
  covers a b -> covers b a -> a = b.
Proof.
  intros [H1 H2] [H3 H4].
  apply location_eq; apply pos_le_antisym; assumption.
Qed.

(** The merge of nodes that lie within a span that covers the last of them
    lies within that span. *)
Lemma locationContainingNodes_within (locations : LocStore)
  (others : list CSNode) (body : CSNode) (bodyLoc hull : LocationData) :
  locationOf locations body = Some bodyLoc ->
  covers hull bodyLoc ->
  (forall c, In c others ->
             exists l, locationOf locations c = Some l /\ covers hull l) ->
  exists inner,
    locationContainingNodes locations (others ++ [body]) = Ok (Some inner) /\
    covers hull inner /\ covers inner bodyLoc.
Proof.
  intros Hb Hhull. induction others as [| c others IH]; intros Hc.
  - exists bodyLoc. simpl. rewrite Hb.
    split; [reflexivity |]. split; [exact Hhull | apply covers_refl].
  - destruct IH as (inner & Hi & Hin & Hbody).
    { intros c' Hc'. apply Hc. now right. }
    destruct (Hc c (or_introl eq_refl)) as (l & Hl & Hcov).
    change ((c :: others) ++ [body]) with (c :: (others ++ [body])).
    destruct (others ++ [body]) as [| n1 rest] eqn:E.
    + now destruct others.
    + rewrite locationContainingNodes_cons, Hi, Hl. cbn.
      exists (mergeLocations l inner). split; [reflexivity |]. split.
      * now apply mergeLocations_least.
      * apply covers_trans with inner;
          [apply mergeLocations_covers_r | exact Hbody].
Qed.

(** The merge of all the conditions of a case and of its body is the merge
    of the first condition and of the body when the other conditions are
    written between the two. *)
Lemma locationContainingNodes_case (locations : LocStore)
  (first : CSNode) (others : list CSNode) (body : CSNode)
  (firstLoc bodyLoc : LocationData) :
  locationOf locations first = Some firstLoc ->
  locationOf locations body = Some bodyLoc ->
  (forall c, In c others ->
             exists l, locationOf locations c = Some l /\
                       covers (mergeLocations firstLoc bodyLoc) l) ->
  locationContainingNodes locations ((first :: others) ++ [body])
  = Ok (Some (mergeLocations firstLoc bodyLoc)).
Proof.
  intros Hf Hb Hc.
  destruct (locationContainingNodes_within locations others body bodyLoc
              (mergeLocations firstLoc bodyLoc) Hb
              (mergeLocations_covers_r _ _) Hc)
    as (inner & Hi & Hin & Hbody).
  change ((first :: others) ++ [body]) with (first :: (others ++ [body])).
  destruct (others ++ [body]) as [| n1 rest] eqn:E.
  - now destruct others.
  - rewrite locationContainingNodes_cons, Hi, Hf. cbn.
    do 2 f_equal. apply covers_antisym.
    + apply mergeLocations_least; [apply mergeLocations_covers_l |].
      apply covers_trans with inner;
        [apply mergeLocations_covers_r | exact Hbody].
    + apply mergeLocations_least; [apply mergeLocations_covers_l | exact Hin].
Qed.

Lemma Forall2_impl_In {A B : Type} (P Q : A -> B -> Prop) (l : list A)
  (l' : list B) :
  (forall x y, In x l -> P x y -> Q x y) -> Forall2 P l l' -> Forall2 Q l l'.
Proof.
  intros H HP. induction HP as [| x y l l' Hxy _ IH]; constructor.
  - apply H; [now left | exact Hxy].
  - apply IH. intros x' y' Hin. apply H. now right.
Qed.

Section CaseProperties.

Variable parseLiteral : string -> option string.
Variable JSON_parse : string -> option JsValue.
Variable locations : LocStore.
Variable source : string.
Variable mapper : Mapper.

Local Notation convert' :=
  (convert parseLiteral JSON_parse locations source mapper).
Local Notation makeNode' := (makeNode source mapper).
Local Notation makeNode_some' := (makeNode_some source mapper).
Local Notation locationOf' := (locationOf locations).
Local Notation irrelevant' :=
  (convert_irrelevant parseLiteral JSON_parse locations source mapper).

Lemma makeNode_some_inv (nodeType : string) (loc : option LocationData)
  (attributes : list (string * Attr Node)) (r : option Node) :
  makeNode_some' nodeType loc attributes = Ok r ->
  exists n, r = Some n /\ makeNode' (Some nodeType) loc attributes = Ok n.
Proof.
  unfold makeNode_some. intros H. apply bind_Ok_inv in H.
  destruct H as (n & Hn & H). injection H as <-. eauto.
Qed.

(** What a case that converts a list of children into an array attribute
    gives. *)
Lemma array_attribute (f : CSNode -> result (option Node)) (l : list CSNode)
  (ms : list (option Node)) (t : option string) (loc : option LocationData)
  (attributes : list (string * Attr Node)) (key : string) (n : Node)
  (a : CSNode) (anc : list CSNode) :
  (forall c, In c l -> exists b anc', f c = convert' c (b :: anc')) ->
  mapResult f l = Ok ms ->
  makeNode' t loc attributes = Ok n ->
  lookup key attributes = Some (ANodes ms) ->
  attr n key = ANodes ms /\
  Forall2 (fun c m => convert' c (a :: anc) = Ok m) l ms /\
  (loc <> None -> forall m, In m ms -> m <> None).
Proof.
  intros Hf Hms Hn Hk. split; [| split].
  - rewrite (attr_makeNode _ _ _ _ _ _ key Hn). now rewrite Hk.
  - apply mapResult_Forall2 in Hms. clear Hk Hn.
    induction Hms as [| c m l ms Hc _ IH]; constructor.
    + destruct (Hf c (or_introl eq_refl)) as (b & anc' & E).
      rewrite <- Hc, E. apply irrelevant'.
    + apply IH. intros c' Hc'. apply Hf. now right.
  - intros Hloc m Hin ->.
    assert (E : makeNode' t loc attributes = Err TypeError).
    { apply makeNode_Err. split; [reflexivity |]. split; [exact Hloc |].
      exists key, ms. split; [now apply lookup_In | exact Hin]. }
    congruence.
Qed.

(** X12: the cases that convert a list of children (the members of an
    array, the arguments of a call, the statements of a block that is not
    the root, the parameters of a function) store the conversions of the
    children in order, one for one.  When the node has location data none
    of them is null: a child that converts to null makes [makeNode] throw. *)
Theorem convert_list_children (a : CSNode) (anc : list CSNode) (n : Node) :
  (forall loc objects,
      convert' (Arr loc objects) (a :: anc) = Ok (Some n) ->
      exists ms,
        attr n "members" = ANodes ms /\
        Forall2 (fun c m => convert' c (a :: anc) = Ok m) objects ms /\
        (loc <> None -> forall m, In m ms -> m <> None)) /\
  (forall loc variable args,
      convert' (Call loc variable args) (a :: anc) = Ok (Some n) ->
      exists ms,
        attr n "arguments" = ANodes ms /\
        Forall2 (fun c m => convert' c (a :: anc) = Ok m) args ms /\
        (loc <> None -> forall m, In m ms -> m <> None)) /\
  (forall loc expressions,
      convert' (Block loc expressions) (a :: anc) = Ok (Some n) ->
      exists ms,
        attr n "statements" = ANodes ms /\
        Forall2 (fun c m => convert' c (a :: anc) = Ok m) expressions ms /\
        (loc <> None -> forall m, In m ms -> m <> None)) /\
  (forall loc bound body params,
      convert' (Code loc bound body params) (a :: anc) = Ok (Some n) ->
      exists ms,
        attr n "parameters" = ANodes ms /\
        Forall2 (fun c m => convert' c (a :: anc) = Ok m) params ms /\
        (loc <> None -> forall m, In m ms -> m <> None)).
Proof.
  assert (Hloc : forall node loc,
             locationData node = loc -> loc <> None ->
             locationOf' node <> None).
  { intros node loc <- H. unfold locationOf.
    destruct (locationData node); [discriminate | congruence]. }
  split; [| split; [| split]].
  - intros loc objects H. cbn [convert app] in H.
    apply bind_Ok_inv in H. destruct H as (ms & Hms & H).
    apply makeNode_some_inv in H. destruct H as (n' & Hn & H).
    injection Hn as <-. exists ms.
    destruct (array_attribute _ _ _ _ _ _ "members" _ a anc
                (fun c _ => ex_intro _ _ (ex_intro _ _ eq_refl)) Hms H eq_refl)
      as (H1 & H2 & H3).
    split; [exact H1 |]. split; [exact H2 |].
    intros Hl. apply H3. now apply (Hloc _ loc).
  - intros loc variable args H. cbn [convert app] in H.
    apply bind_Ok_inv in H. destruct H as (fn & _ & H).
    apply bind_Ok_inv in H. destruct H as (ms & Hms & H).
    apply makeNode_some_inv in H. destruct H as (n' & Hn & H).
    injection Hn as <-. exists ms.
    destruct (array_attribute _ _ _ _ _ _ "arguments" _ a anc
                (fun c _ => ex_intro _ _ (ex_intro _ _ eq_refl)) Hms H eq_refl)
      as (H1 & H2 & H3).
    split; [exact H1 |]. split; [exact H2 |].
    intros Hl. apply H3. now apply (Hloc _ loc).
  - intros loc expressions H. cbn [convert app] in H.
    destruct expressions as [| e es]; [discriminate |].
    apply bind_Ok_inv in H. destruct H as (ms & Hms & H).
    apply makeNode_some_inv in H. destruct H as (n' & Hn & H).
    injection Hn as <-. exists ms.
    destruct (array_attribute _ _ _ _ _ _ "statements" _ a anc
                (fun c _ => ex_intro _ _ (ex_intro _ _ eq_refl)) Hms H eq_refl)
      as (H1 & H2 & H3).
    split; [exact H1 |]. split; [exact H2 |].
    intros Hl. apply H3. now apply (Hloc _ loc).
  - intros loc bound body params H. cbn [convert app] in H.
    apply bind_Ok_inv in H. destruct H as (body' & _ & H).
    apply bind_Ok_inv in H. destruct H as (ms & Hms & H).
    apply makeNode_some_inv in H. destruct H as (n' & Hn & H).
    injection Hn as <-. exists ms.
    destruct (array_attribute _ _ _ _ _ _ "parameters" _ a anc
                (fun c _ => ex_intro _ _ (ex_intro _ _ eq_refl)) Hms H eq_refl)
      as (H1 & H2 & H3).
    split; [exact H1 |]. split; [exact H2 |].
    intros Hl. apply H3. now apply (Hloc _ loc).
Qed.

(** The conversion of a value with one more property, from the conversion
    of the value without it. *)
Lemma convert_Value_snoc (loc : option LocRef) (base : CSNode)
  (properties : list CSNode) (prop : CSNode) (a : CSNode)
  (anc : list CSNode) :
  convert' (Value loc base (properties ++ [prop])) (a :: anc) =
  (value <- convert' (Value loc base properties) (a :: anc);;
   match prop with
   | Access _ name =>
       loc' <- mergeLocations_nullable (locationOf' base) (locationOf' prop);;
       makeNode_some' "MemberAccessOp" loc'
         [("expression", attr_of value); ("memberName", memberNameOf name)]
   | Index _ index =>
       merged <- mergeLocations_nullable (locationOf' base)
                   (locationOf' prop);;
       loc' <- expandLocationRightThrough_nullable source mapper merged "]";;
       indexingExpr <- convert' index (a :: anc);;
       makeNode_some' "DynamicMemberAccessOp" loc'
         [("expression", attr_of value);
          ("indexingExpr", attr_of indexingExpr)]
   | _ => Err (UnknownPropertyType (type prop) prop)
   end).
Proof.
  cbn [convert app]. rewrite bind_assoc.
  apply bind_ext; [apply irrelevant' |]. intros value.
  rewrite foldResult_snoc. apply bind_ext.
  - apply foldResult_ext_in. intros s x _.
    destruct x; try reflexivity.
    apply bind_ext; [reflexivity |]. intros merged.
    apply bind_ext; [reflexivity |]. intros loc'.
    apply bind_ext; [apply irrelevant' | reflexivity].
  - intros s. destruct prop; try reflexivity.
    apply bind_ext; [reflexivity |]. intros merged.
    apply bind_ext; [reflexivity |]. intros loc'.
    apply bind_ext; [apply irrelevant' | reflexivity].
Qed.

(** X13: a value without properties converts to the conversion of its
    base, and each property wraps the conversion of the value without it:
    the conversion of a value with the properties [properties ++ [prop]] is
    the access node for [prop] built around the conversion of the value with
    the properties [properties].  The span of every access node is merged
    from the span of the base, not from the span of the access it wraps. *)
Theorem convert_Value_property_chain (loc : option LocRef) (base : CSNode)
  (properties : list CSNode) (prop : CSNode) (a : CSNode)
  (anc : list CSNode) :
  convert' (Value loc base []) (a :: anc) = convert' base (a :: anc) /\
  convert' (Value loc base (properties ++ [prop])) (a :: anc) =
  (value <- convert' (Value loc base properties) (a :: anc);;
   match prop with
   | Access _ name =>
       loc' <- mergeLocations_nullable (locationOf' base) (locationOf' prop);;
       makeNode_some' "MemberAccessOp" loc'
         [("expression", attr_of value); ("memberName", memberNameOf name)]
   | Index _ index =>
       merged <- mergeLocations_nullable (locationOf' base)
                   (locationOf' prop);;
       loc' <- expandLocationRightThrough_nullable source mapper merged "]";;
       indexingExpr <- convert' index (a :: anc);;
       makeNode_some' "DynamicMemberAccessOp" loc'
         [("expression", attr_of value);
          ("indexingExpr", attr_of indexingExpr)]
   | _ => Err (UnknownPropertyType (type prop) prop)
   end).
Proof.
  split; [| apply convert_Value_snoc].
  cbn [convert app foldResult]. rewrite bind_ret. apply irrelevant'.
Qed.

Lemma mergeLocations_nullable_inv (a b : option LocationData)
  (r : option LocationData) :
  mergeLocations_nullable a b = Ok r ->
  exists la lb, a = Some la /\ b = Some lb /\ r = Some (mergeLocations la lb).
Proof.
  destruct a as [la |], b as [lb |]; simpl; intros H; try discriminate.
  injection H as <-. eauto.
Qed.

(** A successful expansion to the right through an anchor that is not
    empty: the anchor was found at or after the offset that follows the
    span. *)
Lemma expandLocationRightThrough_inv (loc loc' : LocationData)
  (anchor : string) :
  anchor <> "" ->
  expandLocationRightThrough source mapper loc anchor = Ok loc' ->
  exists k,
    offsetOf mapper (last_line loc) (last_column loc) + 1 <= k /\
    occursAt source anchor k /\
    (forall i, offsetOf mapper (last_line loc) (last_column loc) + 1 <= i < k ->
               ~ occursAt source anchor i) /\
    loc' = mkLoc (first_line loc) (first_column loc)
             (fst (invert mapper (k + JsString.length anchor - 1)))
             (snd (invert mapper (k + JsString.length anchor - 1))).
Proof.
  intros Hne. unfold expandLocationRightThrough.
  set (offset := offsetOf mapper (last_line loc) (last_column loc) + 1).
  assert (Hlen : 0 < JsString.length anchor).
  { destruct anchor; [congruence | unfold JsString.length; simpl; lia]. }
  destruct (indexOf_spec source anchor offset)
    as [[Hidx Hnone] | (k & Hidx & Hk & Hocc & Hmin)];
    cbv zeta in *; rewrite Hidx.
  - simpl. discriminate.
  - assert (H0 : (k <? 0) = false) by (apply Z.ltb_ge; now destruct Hocc).
    rewrite H0. intros H. injection H as <-.
    pose proof (occursAt_within _ _ _ Hocc) as Hin.
    exists k. split; [lia |]. split; [exact Hocc |]. split; [| reflexivity].
    intros i Hi Hocci. apply (Hmin i); [| exact Hocci].
    pose proof (occursAt_within _ _ _ Hocci). lia.
Qed.

(** X14: an indexed access that is converted.  Its span is the merge of
    the spans of the base and of the index property, expanded to the right
    through the first closing bracket found after it: the node has the line
    and the column of the start of the merge, and when the mapper gives back
    the offset of that bracket, the range of the node ends after it. *)
Theorem convert_Index_closing_bracket (loc : option LocRef) (base : CSNode)
  (properties : list CSNode) (propLoc : option LocRef) (index : CSNode)
  (a : CSNode) (anc : list CSNode) (n : Node) :
  convert' (Value loc base (properties ++ [Index propLoc index])) (a :: anc)
  = Ok (Some n) ->
  exists baseLoc indexLoc k,
    locationOf' base = Some baseLoc /\
    locationOf' (Index propLoc index) = Some indexLoc /\
    let merged := mergeLocations baseLoc indexLoc in
    let offset := offsetOf mapper (last_line merged) (last_column merged) + 1 in
    offset <= k /\
    occursAt source "]" k /\
    (forall i, offset <= i < k -> ~ occursAt source "]" i) /\
    node_type n = Some "DynamicMemberAccessOp" /\
    line n = Some (first_line merged + 1) /\
    column n = Some (first_column merged + 1) /\
    (offsetOf mapper (fst (invert mapper k)) (snd (invert mapper k)) = k ->
     exists r0 r1,
       range n = Some (r0, r1) /\ k + 1 <= r1 <= JsString.length source).
Proof.
  rewrite convert_Value_snoc. intros H.
  apply bind_Ok_inv in H. destruct H as (value & _ & H).
  apply bind_Ok_inv in H. destruct H as (merged & Hm & H).
  apply mergeLocations_nullable_inv in Hm.
  destruct Hm as (baseLoc & indexLoc & Hb & Hi & ->).
  apply bind_Ok_inv in H. destruct H as (loc' & Hl & H).
  cbn [expandLocationRightThrough_nullable] in Hl.
  apply bind_Ok_inv in Hl. destruct Hl as (l' & Hl & Hl').
  injection Hl' as <-.
  apply expandLocationRightThrough_inv in Hl; [| discriminate].
  destruct Hl as (k & Hk & Hocc & Hmin & ->).
  apply bind_Ok_inv in H. destruct H as (indexingExpr & _ & H).
  apply makeNode_some_inv in H. destruct H as (n' & Hn & H).
  injection Hn as <-.
  pose proof (makeNode_inv _ _ _ _ _ _ H)
    as (Ht & _ & rng & Hrng & _ & Hline & Hcol & Hr & _).
  cbn [first_line first_column last_line last_column] in *.
  exists baseLoc, indexLoc, k. cbv zeta.
  repeat (split; [assumption |]).
  intros Hround.
  change (JsString.length "]") with 1 in Hrng.
  replace (k + 1 - 1) with k in Hrng by lia.
  rewrite Hround in Hrng.
  pose proof (expandRangeForAttrs_grows _ _ _ Hrng) as [_ G1].
  cbn [snd] in G1.
  pose proof (occursAt_within _ _ _ Hocc) as [_ Hin].
  change (JsString.length "]") with 1 in Hin.
  exists (fst (shrinkRange source rng)), (snd (shrinkRange source rng)).
  rewrite Hr, <- surjective_pairing. split; [reflexivity |].
  unfold shrinkRange; cbn [snd].
  destruct (snd rng >? JsString.length source) eqn:E;
    rewrite ?Z.gtb_ltb in E; rewrite ?Z.ltb_lt, ?Z.ltb_ge in E; lia.
Qed.

(** X15: a loop that is converted.  The node, its condition and its body
    all have location data, and the While node has the line and the column
    of the earliest of the three starts; when one of the three has no
    location data a TypeError is raised before anything is converted. *)
Theorem convert_While_span (loc : option LocRef) (condition body : CSNode)
  (a : CSNode) (anc : list CSNode) :
  (forall n,
      convert' (While loc condition body) (a :: anc) = Ok (Some n) ->
      exists l lc lb cond body',
        locationOf' (While loc condition body) = Some l /\
        locationOf' condition = Some lc /\
        locationOf' body = Some lb /\
        node_type n = Some "While" /\
        (let start :=
           earlier (startOf l) (earlier (startOf lc) (startOf lb)) in
         line n = Some (fst start + 1) /\ column n = Some (snd start + 1)) /\
        convert' condition (a :: anc) = Ok cond /\
        convert' body (a :: anc) = Ok body' /\
        attr n "condition" = attr_of cond /\
        attr n "body" = attr_of body') /\
  (locationOf' (While loc condition body) = None \/
   locationOf' condition = None \/ locationOf' body = None ->
   convert' (While loc condition body) (a :: anc) = Err TypeError).
Proof.
  split.
  - intros n H. cbn [convert app] in H.
    apply bind_Ok_inv in H. destruct H as (span & Hs & H).
    rewrite locationContainingNodes_cons in Hs.
    apply bind_Ok_inv in Hs. destruct Hs as (inner & Hi & Hs).
    cbn [locationContainingNodes] in Hi.
    apply mergeLocations_nullable_inv in Hi.
    destruct Hi as (lc & lb & Hc & Hb & ->).
    apply mergeLocations_nullable_inv in Hs.
    destruct Hs as (l & inner & Hl & Hinner & ->).
    injection Hinner as <-.
    apply bind_Ok_inv in H. destruct H as (cond & Hcond & H).
    apply bind_Ok_inv in H. destruct H as (body' & Hbody & H).
    apply makeNode_some_inv in H. destruct H as (n' & Hn & H).
    injection Hn as <-.
    pose proof (makeNode_inv _ _ _ _ _ _ H)
      as (Ht & _ & rng & _ & _ & Hline & Hcol & _).
    exists l, lc, lb, cond, body'.
    split; [exact Hl |]. split; [exact Hc |]. split; [exact Hb |].
    split; [exact Ht |]. split.
    + cbv zeta.
      rewrite <- !(proj1 (mergeLocations_earlier_later _ _)).
      split; [exact Hline | exact Hcol].
    + split; [rewrite <- Hcond; apply irrelevant' |].
      split; [rewrite <- Hbody; apply irrelevant' |].
      split; [apply (attr_makeNode _ _ _ _ _ _ "condition" H) |].
      apply (attr_makeNode _ _ _ _ _ _ "body" H).
  - intros Hnone. cbn [convert app].
    rewrite locationContainingNodes_cons. cbn [locationContainingNodes].
    destruct (locationOf' condition) as [lc |]; cbn;
      [| reflexivity].
    destruct (locationOf' body) as [lb |]; cbn; [| reflexivity].
    destruct (locationOf' (While loc condition body)) as [l |]; cbn;
      [| reflexivity].
    destruct Hnone as [H | [H | H]]; discriminate.
Qed.

(** X16: an object literal that is converted holds one member for each of
    its properties, in order.  A property that is a bare value (the
    shorthand [{a}]) gives an ObjectInitialiserMember at the location of the
    property whose key and expression are one and the same conversion of the
    property; any other property gives its own conversion. *)
Theorem convert_Obj_members (loc : option LocRef) (properties : list CSNode)
  (a : CSNode) (anc : list CSNode) (n : Node) :
  convert' (Obj loc properties) (a :: anc) = Ok (Some n) ->
  node_type n = Some "ObjectInitialiser" /\
  exists ms,
    attr n "members" = ANodes ms /\
    Forall2
      (fun property m =>
         match property with
         | Value _ _ _ =>
             exists keyValue member,
               convert' property (a :: anc) = Ok keyValue /\
               m = Some member /\
               makeNode' (Some "ObjectInitialiserMember")
                 (locationOf' property)
                 [("key", attr_of keyValue); ("expression", attr_of keyValue)]
               = Ok member /\
               attr member "key" = attr_of keyValue /\
               attr member "expression" = attr_of keyValue
         | _ => convert' property (a :: anc) = Ok m
         end)
      properties ms.
Proof.
  intros H. cbn [convert app] in H.
  apply bind_Ok_inv in H. destruct H as (ms & Hms & H).
  apply makeNode_some_inv in H. destruct H as (n' & Hn & H).
  injection Hn as <-.
  split; [apply (makeNode_inv _ _ _ _ _ _ H) |].
  exists ms. split; [apply (attr_makeNode _ _ _ _ _ _ "members" H) |].
  apply mapResult_Forall2 in Hms.
  eapply Forall2_impl; [| exact Hms].
  intros property m Hp. cbv beta in Hp.
  destruct property; try (rewrite <- Hp; apply irrelevant').
  apply bind_Ok_inv in Hp. destruct Hp as (keyValue & Hk & Hp).
  apply makeNode_some_inv in Hp. destruct Hp as (member & -> & Hm).
  exists keyValue, member.
  split; [rewrite <- Hk; apply irrelevant' |].
  split; [reflexivity |]. split; [exact Hm |].
  split; [apply (attr_makeNode _ _ _ _ _ _ "key" Hm) |].
  apply (attr_makeNode _ _ _ _ _ _ "expression" Hm).
Qed.

(** X21: a switch that is converted holds the conversion of its subject,
    one SwitchCase for each of its cases, in order, and the conversion of
    its default branch or null.  Every case has at least one condition, and
    its SwitchCase holds the conversions of all the conditions of the case,
    in order, and the conversion of its body. *)
Theorem convert_Switch_cases (loc : option LocRef) (subject : CSNode)
  (cases : list ((CSNode + list CSNode) * CSNode))
  (otherwise : option CSNode) (a : CSNode) (anc : list CSNode) (n : Node) :
  convert' (Switch loc subject cases otherwise) (a :: anc) = Ok (Some n) ->
  node_type n = Some "Switch" /\
  (exists expression,
      convert' subject (a :: anc) = Ok expression /\
      attr n "expression" = attr_of expression) /\
  (exists cs,
      attr n "cases" = ANodes cs /\
      Forall2
        (fun case c =>
           exists node conds consequent,
             c = Some node /\ node_type node = Some "SwitchCase" /\
             conditionsOf (fst case) <> [] /\
             attr node "conditions" = ANodes conds /\
             Forall2 (fun cond r => convert' cond (a :: anc) = Ok r)
                     (conditionsOf (fst case)) conds /\
             convert' (snd case) (a :: anc) = Ok consequent /\
             attr node "consequent" = attr_of consequent)
        cases cs) /\
  match otherwise with
  | Some branch =>
      exists alternate,
        convert' branch (a :: anc) = Ok alternate /\
        attr n "alternate" = attr_of alternate
  | None => attr n "alternate" = ANull
  end.
Proof.
  intros H. cbn [convert app] in H.
  apply bind_Ok_inv in H. destruct H as (expression & He & H).
  apply bind_Ok_inv in H. destruct H as (cs & Hcs & H).
  apply bind_Ok_inv in H. destruct H as (alternate & Ha & H).
  apply makeNode_some_inv in H. destruct H as (n' & Hn & H).
  injection Hn as <-.
  split; [apply (makeNode_inv _ _ _ _ _ _ H) |].
  split; [| split].
  - exists expression. split; [rewrite <- He; apply irrelevant' |].
    apply (attr_makeNode _ _ _ _ _ _ "expression" H).
  - exists cs. split; [apply (attr_makeNode _ _ _ _ _ _ "cases" H) |].
    apply mapResult_Forall2 in Hcs.
    eapply Forall2_impl; [| exact Hcs].
    intros [conditions body] c Hc. cbv beta iota in Hc. cbn [fst snd].
    apply bind_Ok_inv in Hc. destruct Hc as (first & Hfirst & Hc).
    apply bind_Ok_inv in Hc. destruct Hc as (merged & _ & Hc).
    apply bind_Ok_inv in Hc. destruct Hc as (span & _ & Hc).
    apply bind_Ok_inv in Hc. destruct Hc as (conds & Hconds & Hc).
    apply bind_Ok_inv in Hc. destruct Hc as (consequent & Hbody & Hc).
    apply makeNode_some_inv in Hc. destruct Hc as (node & -> & Hnode).
    exists node, conds, consequent.
    split; [reflexivity |].
    split; [apply (makeNode_inv _ _ _ _ _ _ Hnode) |].
    split.
    { destruct conditions as [c0 | [| c0 others]]; simpl in *; discriminate. }
    split; [apply (attr_makeNode _ _ _ _ _ _ "conditions" Hnode) |].
    split.
    { destruct conditions as [c0 | conditions]; cbn [conditionsOf].
      - apply bind_Ok_inv in Hconds. destruct Hconds as (c' & Hc' & Hconds).
        injection Hconds as <-. constructor; [| constructor].
        rewrite <- Hc'. apply irrelevant'.
      - apply mapResult_Forall2 in Hconds.
        eapply Forall2_impl; [| exact Hconds].
        intros cond r Hr. cbv beta in Hr. rewrite <- Hr. apply irrelevant'. }
    split; [rewrite <- Hbody; apply irrelevant' |].
    apply (attr_makeNode _ _ _ _ _ _ "consequent" Hnode).
  - rewrite (attr_makeNode _ _ _ _ _ _ "alternate" H).
    cbn [lookup String.eqb Ascii.eqb Bool.eqb].
    destruct otherwise as [branch |].
    + exists alternate. split; [rewrite <- Ha; apply irrelevant' | reflexivity].
    + now injection Ha as <-.
Qed.

(** The conversion of an operator node, whatever its location is. *)
Lemma convert_Op_steps (loc : option LocRef) (operator : string)
  (first : CSNode) (second : option CSNode) (a : CSNode)
  (anc : list CSNode) :
  convert' (Op loc operator first second) (a :: anc) =
  match second with
  | Some second' =>
      left <- convert' first (a :: anc);;
      right <- convert' second' (a :: anc);;
      n <- makeNode' (binaryNodeType operator)
             (locationOf' (Op loc operator first second))
             [("left", attr_of left); ("right", attr_of right)];;
      Ok (Some n)
  | None =>
      expression <- convert' first (a :: anc);;
      n <- makeNode' (unaryNodeType operator)
             (locationOf' (Op loc operator first second))
             [("expression", attr_of expression)];;
      Ok (Some n)
  end.
Proof.
  cbn [convert app]. destruct second as [second |].
  - apply bind_ext; [apply irrelevant' |]. intros left.
    apply bind_ext; [apply irrelevant' | reflexivity].
  - apply bind_ext; [apply irrelevant' | reflexivity].
Qed.

(** X22: an operator node never converts to null and raises nothing of its
    own: an error comes from the conversion of the first operand, or, when
    that one converts, from the conversion of the second.  When the node
    converts, its type is the one the operator has in the table of
    [convertOperator] for the number of operands (none for an operator
    outside the table), and it holds the conversions of its operands under
    [left] and [right], or under [expression] when there is one operand. *)
Theorem convert_Op_operands (loc : option LocRef) (operator : string)
  (first : CSNode) (second : option CSNode) (a : CSNode)
  (anc : list CSNode) :
  let r := convert' (Op loc operator first second) (a :: anc) in
  (forall e,
      r = Err e <->
      convert' first (a :: anc) = Err e \/
      exists x second',
        convert' first (a :: anc) = Ok x /\ second = Some second' /\
        convert' second' (a :: anc) = Err e) /\
  (forall o,
      r = Ok o ->
      exists n,
        o = Some n /\
        match second with
        | Some second' =>
            node_type n = binaryNodeType operator /\
            exists left right,
              convert' first (a :: anc) = Ok left /\
              convert' second' (a :: anc) = Ok right /\
              attrs n = [("left", attr_of left); ("right", attr_of right)]
        | None =>
            node_type n = unaryNodeType operator /\
            exists expression,
              convert' first (a :: anc) = Ok expression /\
              attrs n = [("expression", attr_of expression)]
        end).
Proof.
  cbv zeta. rewrite convert_Op_steps.
  destruct second as [second |].
  - destruct (convert' first (a :: anc)) as [left | e1] eqn:E1; cbn [bind].
    + destruct (convert' second (a :: anc)) as [right | e2] eqn:E2;
        cbn [bind].
      * destruct (makeNode_attr_of source mapper (binaryNodeType operator)
                    (locationOf' (Op loc operator first (Some second)))
                    [("left", left); ("right", right)]) as [n Hn].
        cbn [map fst snd] in Hn. rewrite Hn. cbn [bind]. split.
        -- intros e. split; [discriminate |].
           intros [H | (x & s & _ & Hs & H)]; [discriminate |].
           injection Hs as <-. congruence.
        -- intros o H. injection H as <-. exists n. split; [reflexivity |].
           pose proof (makeNode_inv _ _ _ _ _ _ Hn) as (Ht & Ha & _).
           split; [exact Ht |]. now exists left, right.
      * split; [| discriminate].
        intros e. split.
        -- intros H. injection H as <-. right. now exists left, second.
        -- intros [H | (x & s & _ & Hs & H)]; [discriminate |].
           injection Hs as <-. congruence.
    + split; [| discriminate].
      intros e. split.
      * intros H. injection H as <-. now left.
      * intros [H | (x & s & H & _)]; [exact H | discriminate].
  - destruct (convert' first (a :: anc)) as [expression | e1] eqn:E1;
      cbn [bind].
    + destruct (makeNode_attr_of source mapper (unaryNodeType operator)
                  (locationOf' (Op loc operator first None))
                  [("expression", expression)]) as [n Hn].
      cbn [map fst snd] in Hn. rewrite Hn. cbn [bind]. split.
      * intros e. split; [discriminate |].
        intros [H | (x & s & _ & Hs & _)]; discriminate.
      * intros o H. injection H as <-. exists n. split; [reflexivity |].
        pose proof (makeNode_inv _ _ _ _ _ _ Hn) as (Ht & Ha & _).
        split; [exact Ht |]. now exists expression.
    + split; [| discriminate].
      intros e. split.
      * intros H. injection H as <-. now left.
      * intros [H | (x & s & H & _)]; [exact H | discriminate].
Qed.

(** X23: a conditional that is converted holds the conversion of its body
    as consequent and the conversion of its else branch, or null, as
    alternate.  Its condition is the conversion of the condition of the
    node, unless that one is a logical-not operator holding the location
    data object of the conditional; whenever the condition of the node
    converts to a node, the condition held has the type and the attributes
    of that node: taking the location away from the operator changes
    nothing else. *)
Theorem convert_If_branches (loc : option LocRef) (condition body : CSNode)
  (elseBody : option CSNode) (a : CSNode) (anc : list CSNode) (n : Node) :
  convert' (If loc condition body elseBody) (a :: anc) = Ok (Some n) ->
  node_type n = Some "Conditional" /\
  (exists consequent,
      convert' body (a :: anc) = Ok consequent /\
      attr n "consequent" = attr_of consequent) /\
  match elseBody with
  | Some branch =>
      exists alternate,
        convert' branch (a :: anc) = Ok alternate /\
        attr n "alternate" = attr_of alternate
  | None => attr n "alternate" = ANull
  end /\
  exists cond,
    attr n "condition" = attr_of cond /\
    ((forall condLoc first second,
         condition = Op condLoc "!" first second ->
         same_object loc condLoc = false) ->
     convert' condition (a :: anc) = Ok cond) /\
    (forall c',
        convert' condition (a :: anc) = Ok (Some c') ->
        exists c,
          cond = Some c /\ node_type c = node_type c' /\ attrs c = attrs c').
Proof.
  rewrite convert_If. intros H.
  apply bind_Ok_inv in H. destruct H as (cond & Hcond & H).
  apply bind_Ok_inv in H. destruct H as (consequent & Hbody & H).
  apply bind_Ok_inv in H. destruct H as (alternate & Helse & H).
  apply makeNode_some_inv in H. destruct H as (n' & Hn & H).
  injection Hn as <-.
  split; [apply (makeNode_inv _ _ _ _ _ _ H) |].
  split; [| split].
  - exists consequent. split; [rewrite <- Hbody; apply irrelevant' |].
    apply (attr_makeNode _ _ _ _ _ _ "consequent" H).
  - rewrite (attr_makeNode _ _ _ _ _ _ "alternate" H).
    cbn [lookup String.eqb Ascii.eqb Bool.eqb].
    destruct elseBody as [branch |].
    + exists alternate. split; [rewrite <- Helse; apply irrelevant' |].
      reflexivity.
    + now injection Helse as <-.
  - exists cond. split; [apply (attr_makeNode _ _ _ _ _ _ "condition" H) |].
    assert (plain : convert' condition
                      (a :: anc ++ [If loc condition body elseBody]) = Ok cond ->
                    (convert' condition (a :: anc) = Ok cond) /\
                    (forall c',
                        convert' condition (a :: anc) = Ok (Some c') ->
                        exists c,
                          cond = Some c /\ node_type c = node_type c' /\
                          attrs c = attrs c')).
    { intros E. rewrite (irrelevant' condition _ a _ anc) in E. split; [exact E |].
      intros c' Hc'. rewrite Hc' in E. injection E as <-. now exists c'. }
    destruct condition;
      try (destruct (plain Hcond) as [P1 P2]; split; [intros _; exact P1 | exact P2]).
    destruct ((operator =? "!")%string && same_object loc loc0) eqn:Eneg;
      [| destruct (plain Hcond) as [P1 P2];
         split; [intros _; exact P1 | exact P2]].
    apply andb_true_iff in Eneg. destruct Eneg as [Eop Esame].
    apply String.eqb_eq in Eop. subst operator.
    split.
    + intros Hno. rewrite (Hno loc0 condition second eq_refl) in Esame.
      discriminate.
    + intros c' Hc'.
      rewrite convert_Op_steps in Hcond.
      rewrite convert_Op_steps in Hc'.
      destruct second as [second |].
      * apply bind_Ok_inv in Hcond. destruct Hcond as (l & Hl & Hcond).
        apply bind_Ok_inv in Hcond. destruct Hcond as (r & Hr & Hcond).
        apply bind_Ok_inv in Hcond. destruct Hcond as (c & Hc & Hcond).
        injection Hcond as <-.
        apply bind_Ok_inv in Hc'. destruct Hc' as (l' & Hl' & Hc').
        apply bind_Ok_inv in Hc'. destruct Hc' as (r' & Hr' & Hc').
        apply bind_Ok_inv in Hc'. destruct Hc' as (c0 & Hc0 & Hc').
        injection Hc' as <-.
        rewrite (irrelevant' _ _ a _ anc) in Hl.
        rewrite (irrelevant' _ _ a _ anc) in Hr.
        rewrite Hl in Hl'. injection Hl' as <-.
        rewrite Hr in Hr'. injection Hr' as <-.
        exists c. split; [reflexivity |].
        pose proof (makeNode_inv _ _ _ _ _ _ Hc) as (Ht & Hat & _).
        pose proof (makeNode_inv _ _ _ _ _ _ Hc0) as (Ht' & Hat' & _).
        split; congruence.
      * apply bind_Ok_inv in Hcond. destruct Hcond as (x & Hx & Hcond).
        apply bind_Ok_inv in Hcond. destruct Hcond as (c & Hc & Hcond).
        injection Hcond as <-.
        apply bind_Ok_inv in Hc'. destruct Hc' as (x' & Hx' & Hc').
        apply bind_Ok_inv in Hc'. destruct Hc' as (c0 & Hc0 & Hc').
        injection Hc' as <-.
        rewrite (irrelevant' _ _ a _ anc) in Hx.
        rewrite Hx in Hx'. injection Hx' as <-.
        exists c. split; [reflexivity |].
        pose proof (makeNode_inv _ _ _ _ _ _ Hc) as (Ht & Hat & _).
        pose proof (makeNode_inv _ _ _ _ _ _ Hc0) as (Ht' & Hat' & _).
        split; congruence.
Qed.


(** C3: a conditional and its condition, a logical-not operator node, that
    both have location data, where two location data objects are never two
    copies of the same coordinates (upstream the conditional and the negation
    it makes share one object).  When the span of the condition has exactly
    the line and column values of the span of the conditional, the condition
    of the produced Conditional is virtual: no line, column, range or raw.
    When the values differ, it is not virtual. *)
Theorem convert_If_negation_same_span (r r' : LocRef)
  (first : CSNode) (second : option CSNode) (body : CSNode)
  (elseBody : option CSNode) (a : CSNode) (anc : list CSNode) (n : Node) :
  (locations r = locations r' -> r = r') ->
  convert' (If (Some r) (Op (Some r') "!" first second) body elseBody)
          (a :: anc) = Ok (Some n) ->
  exists c,
    attr n "condition" = ANode c /\
    (locations r = locations r' ->
     virtual c = true /\ line c = None /\ column c = None /\
     range c = None /\ raw c = None) /\
    (locations r <> locations r' ->
     virtual c = false /\ range c <> None).
Proof.
  intros Hone H.
  destruct (convert_If_negation_virtual _ _ _ _ _ _ _ _ _ _ _ _ _ _ H)
    as (c & Hc & Hsame & Hother).
  exists c. split; [exact Hc |]. split.
  - intros Heq. apply Hsame. cbn [same_object].
    apply Nat.eqb_eq. now apply Hone.
  - intros Hne. apply (Hother r' eq_refl).
    intros Heq. injection Heq as ->. now apply Hne.
Qed.

End CaseProperties.

(** ** Literals *)

Lemma rev_chars_rev (s : string) (acc : list ascii) :
  rev_chars s acc = rev (list_ascii_of_string s) ++ acc.
Proof.
  revert acc. induction s as [| c s IH]; intros acc; simpl.
  - reflexivity.
  - rewrite IH, <- app_assoc. reflexivity.
Qed.

Lemma skip_digits_split (l : list ascii) :
  exists digits,
    l = digits ++ skip_digits l /\ forallb is_digit digits = true.
Proof.
  induction l as [| c l (digits & Hl & Hd)]; simpl.
  - now exists [].
  - destruct (is_digit c) eqn:E.
    + exists (c :: digits). simpl. rewrite E, Hd. split; [| reflexivity].
      now f_equal.
    + now exists [].
Qed.

Lemma skip_digits_app (digits rest : list ascii) (c : ascii) :
  forallb is_digit digits = true -> is_digit c = false ->
  skip_digits (digits ++ c :: rest) = c :: rest.
Proof.
  intros Hd Hc. induction digits as [| d digits IH]; simpl.
  - now rewrite Hc.
  - simpl in Hd. apply andb_true_iff in Hd. destruct Hd as [-> Hd]. auto.
Qed.

Lemma list_ascii_of_string_app (s t : string) :
  list_ascii_of_string (s ++ t)
  = list_ascii_of_string s ++ list_ascii_of_string t.
Proof. induction s as [| c s IH]; simpl; [reflexivity | now rewrite IH]. Qed.

Lemma string_of_list_ascii_app (l l' : list ascii) :
  string_of_list_ascii (l ++ l')
  = (string_of_list_ascii l ++ string_of_list_ascii l')%string.
Proof. induction l as [| c l IH]; simpl; [reflexivity | now rewrite IH]. Qed.

Lemma forallb_rev {A : Type} (p : A -> bool) (l : list A) :
  forallb p (rev l) = forallb p l.
Proof.
  induction l as [| x l IH]; simpl; [reflexivity |].
  rewrite forallb_app, IH. simpl. rewrite andb_true_r. apply andb_comm.
Qed.

(** X19: the test [convert] makes on the text of a literal accepts exactly
    the texts that start with a digit and the texts that end with a dot
    followed by one or more digits, whatever else they hold. *)
Theorem looks_numeric_spec (value : string) :
  looks_numeric value = true <->
  (exists c rest, value = String c rest /\ is_digit c = true) \/
  (exists before digits,
      value = (before ++ "." ++ digits)%string /\ digits <> "" /\
      forallb is_digit (list_ascii_of_string digits) = true).
Proof.
  unfold looks_numeric. rewrite orb_true_iff, rev_chars_rev, app_nil_r.
  assert (Hstart : match value with
                   | String c _ => is_digit c
                   | EmptyString => false
                   end = true <->
                   exists c rest, value = String c rest /\ is_digit c = true).
  { destruct value as [| c rest]; split.
    - discriminate.
    - intros (c & rest & H & _). discriminate.
    - eauto.
    - intros (c' & rest' & H & Hc). now injection H as -> ->. }
  rewrite Hstart. apply or_iff_compat_l. split.
  - destruct (rev (list_ascii_of_string value)) as [| c t] eqn:Er;
      [discriminate |].
    rewrite andb_true_iff. intros [Hc Hdot].
    destruct (skip_digits t) as [| d rest] eqn:Es; [discriminate |].
    apply Ascii.eqb_eq in Hdot. subst d.
    destruct (skip_digits_split t) as (ds & Ht & Hds). rewrite Es in Ht.
    assert (Hl : list_ascii_of_string value
                 = rev rest ++ "."%char :: (rev ds ++ [c])).
    { rewrite <- (rev_involutive (list_ascii_of_string value)), Er, Ht.
      simpl. rewrite rev_app_distr. simpl. now rewrite <- !app_assoc. }
    exists (string_of_list_ascii (rev rest)),
           (string_of_list_ascii (rev ds ++ [c])).
    split; [| split].
    + rewrite <- (string_of_list_ascii_of_string value), Hl.
      now rewrite string_of_list_ascii_app.
    + intros H. apply (f_equal list_ascii_of_string) in H.
      rewrite list_ascii_of_string_of_list_ascii in H.
      now destruct (rev ds).
    + rewrite list_ascii_of_string_of_list_ascii, forallb_app, forallb_rev, Hds.
      simpl. now rewrite Hc.
  - intros (before & digits & -> & Hne & Hd).
    rewrite list_ascii_of_string_app. simpl.
    rewrite rev_app_distr. simpl. rewrite <- app_assoc. simpl.
    rewrite <- forallb_rev in Hd.
    destruct (rev (list_ascii_of_string digits)) as [| c t] eqn:Er.
    + exfalso. apply Hne.
      rewrite <- (string_of_list_ascii_of_string digits),
        <- (rev_involutive (list_ascii_of_string digits)), Er.
      reflexivity.
    + simpl in Hd. apply andb_true_iff in Hd. destruct Hd as [Hc Ht].
      simpl. rewrite Hc. simpl.
      rewrite (skip_digits_app t _ "."%char Ht eq_refl). reflexivity.
Qed.

Section LiteralAndClass.

Variable parseLiteral : string -> option string.
Variable JSON_parse : string -> option JsValue.
Variable locations : LocStore.
Variable source : string.
Variable mapper : Mapper.

Local Notation convert' :=
  (convert parseLiteral JSON_parse locations source mapper).
Local Notation makeNode' := (makeNode source mapper).
Local Notation makeNode_some' := (makeNode_some source mapper).
Local Notation locationOf' := (locationOf locations).
Local Notation irrelevant' :=
  (convert_irrelevant parseLiteral JSON_parse locations source mapper).

(** A node whose only attribute is a scalar is always built. *)
Lemma makeNode_some_data (nodeType : string) (loc : option LocationData)
  (attributes : list (string * Attr Node)) :
  (forall key nodes, ~ In (key, ANodes nodes) attributes) ->
  exists n,
    makeNode_some' nodeType loc attributes = Ok (Some n) /\
    node_type n = Some nodeType /\ attrs n = attributes.
Proof.
  intros Ha. unfold makeNode_some.
  destruct (makeNode' (Some nodeType) loc attributes) as [n | e] eqn:E.
  - exists n. split; [reflexivity |].
    pose proof (makeNode_inv _ _ _ _ _ _ E) as (Ht & Hattrs & _). now split.
  - apply makeNode_Err in E. destruct E as (_ & _ & key & nodes & Hin & _).
    now contradiction (Ha key nodes).
Qed.

(** [Math.floor(value) === value] holds of a finite number exactly when it
    is an integer. *)
Lemma is_integral_spec (num : Z) (den : positive) :
  is_integral num den = true <-> exists k, num = k * Z.pos den.
Proof.
  unfold is_integral. rewrite Z.eqb_eq.
  apply Z.mod_divide. discriminate.
Qed.

(** X18: a literal never converts to null.  A text that the numeric test
    rejects always converts, and raises nothing: [this] to a This node
    without attributes, a text the classifier decodes to a String node
    holding the decoded string, and any other text to an Identifier holding
    the text.  A text that the test accepts is given to [JSON.parse], and
    what [JSON.parse] does decides the result: a SyntaxError is passed on; a
    number always gives a node holding it, an Int when the number is an
    integer or infinite and a Float otherwise; any other value gives the
    unimplemented-node-type error carrying it. *)
Theorem convert_Literal_kinds (loc : option LocRef) (value : string)
  (a : CSNode) (anc : list CSNode) :
  let r := convert' (Literal loc value) (a :: anc) in
  r <> Ok None /\
  (looks_numeric value = false ->
   exists n,
     r = Ok (Some n) /\
     ((value = "this" /\ node_type n = Some "This" /\ attrs n = []) \/
      (exists s,
          value <> "this" /\ parseLiteral value = Some s /\
          node_type n = Some "String" /\
          attrs n = [("data", AData (JString s))]) \/
      (value <> "this" /\ parseLiteral value = None /\
       node_type n = Some "Identifier" /\
       attrs n = [("data", AData (JString value))]))) /\
  (looks_numeric value = true ->
   match JSON_parse value with
   | None => r = Err SyntaxError
   | Some data =>
       match data with
       | JNumber _ _ | JInfinity _ | JNaN =>
           exists n,
             r = Ok (Some n) /\
             attrs n = [("data", AData data)] /\
             (node_type n = Some "Int" \/ node_type n = Some "Float") /\
             (node_type n = Some "Int" <->
              (exists negative, data = JInfinity negative) \/
              (exists num den k,
                  data = JNumber num den /\ num = k * Z.pos den))
       | JString _ | JBool _ | JNull => r = Err (UnimplementedNodeType data)
       end
   end).
Proof.
  assert (scalar : forall v key nodes,
             ~ In (key, @ANodes Node nodes) [("data", AData v)]).
  { intros v key nodes [H | []]. discriminate. }
  cbv zeta. cbn [convert app].
  split; [apply neverNull_convertLiteral |].
  unfold convertLiteral. split.
  - intros ->. destruct (value =? "this")%string eqn:Ethis.
    + apply String.eqb_eq in Ethis.
      destruct (makeNode_some_data "This" (locationOf' (Literal loc value)) [])
        as (n & -> & Ht & Ha); [intros key nodes [] |].
      exists n. split; [reflexivity |]. left. tauto.
    + apply String.eqb_neq in Ethis.
      destruct (parseLiteral value) as [s |].
      * destruct (makeNode_some_data "String"
                    (locationOf' (Literal loc value))
                    [("data", AData (JString s))])
          as (n & -> & Ht & Ha); [apply scalar |].
        exists n. split; [reflexivity |]. right. left. exists s. tauto.
      * destruct (makeNode_some_data "Identifier"
                    (locationOf' (Literal loc value))
                    [("data", AData (JString value))])
          as (n & -> & Ht & Ha); [apply scalar |].
        exists n. split; [reflexivity |]. right. right. tauto.
  - intros ->. destruct (JSON_parse value) as [data |]; [| reflexivity].
    destruct data as [num den | negative | | s | b |];
      cbn [nodeTypeForLiteral bind]; try reflexivity.
    + destruct (makeNode_some_data
                  (if is_integral num den then "Int" else "Float")
                  (locationOf' (Literal loc value))
                  [("data", AData (JNumber num den))])
        as (n & -> & Ht & Ha); [apply scalar |].
      exists n. split; [reflexivity |]. split; [exact Ha |].
      rewrite Ht.
      destruct (is_integral num den) eqn:Eint.
      * split; [now left |]. split; [| reflexivity].
        intros _. right. apply is_integral_spec in Eint.
        destruct Eint as [k Hk]. now exists num, den, k.
      * split; [now right |]. split; [discriminate |].
        intros [[negative H] | (num' & den' & k & H & Hk)];
          [discriminate |].
        injection H as <- <-.
        assert (Hint : is_integral num den = true)
          by (apply is_integral_spec; now exists k).
        congruence.
    + destruct (makeNode_some_data "Int" (locationOf' (Literal loc value))
                  [("data", AData (JInfinity negative))])
        as (n & -> & Ht & Ha); [apply scalar |].
      exists n. split; [reflexivity |]. split; [exact Ha |].
      rewrite Ht. split; [now left |]. split; [| reflexivity].
      intros _. left. now exists negative.
    + destruct (makeNode_some_data "Float" (locationOf' (Literal loc value))
                  [("data", AData JNaN)])
        as (n & -> & Ht & Ha); [apply scalar |].
      exists n. split; [reflexivity |]. split; [exact Ha |].
      rewrite Ht. split; [now right |]. split; [discriminate |].
      intros [[negative H] | (num' & den' & k & H & _)]; discriminate.
Qed.

(** What the accumulators of the [Class] case hold after each member: the
    bound members are statements of the body whose expression is a bound
    function, and the constructor is a Constructor statement of the body. *)
Local Notation classInvariant st :=
  ((forall m,
       In m (boundMembers st) ->
       In m (statements st) /\
       exists member f,
         m = Some member /\ attr member "expression" = ANode f /\
         node_type f = Some "BoundFunction") /\
   (forall c,
       ctor st = Some c ->
       In (Some c) (statements st) /\ node_type c = Some "Constructor")).

Lemma isBoundFunction_true (value : option Node) :
  isBoundFunction value = Ok true ->
  exists f, value = Some f /\ node_type f = Some "BoundFunction".
Proof.
  destruct value as [f |]; simpl; [| discriminate].
  intros H. injection H as H. exists f. split; [reflexivity |].
  destruct (node_type f) as [t |]; [| discriminate].
  apply String.eqb_eq in H. now subst.
Qed.

Lemma classMember_invariant (st st' : ClassState)
  (propLoc : option LocationData) (key value : option Node) :
  classInvariant st ->
  classMember source mapper st propLoc key value = Ok st' ->
  classInvariant st'.
Proof.
  intros [Hb Hc] H. unfold classMember in H.
  destruct key as [k |]; [| discriminate].
  apply bind_Ok_inv in H. destruct H as (st1 & H1 & H).
  assert (S1 : exists member c1,
             st1 = mkClassState (statements st ++ [Some member]) c1
                                (boundMembers st) /\
             attr member "expression" = attr_of value /\
             (c1 = ctor st \/
              c1 = Some member /\ node_type member = Some "Constructor")).
  { destruct (isConstructorKey k).
    - apply bind_Ok_inv in H1. destruct H1 as (member & Hm & H1).
      injection H1 as <-. exists member, (Some member).
      split; [reflexivity |].
      split; [apply (attr_makeNode _ _ _ _ _ _ "expression" Hm) |].
      right. split; [reflexivity | apply (makeNode_inv _ _ _ _ _ _ Hm)].
    - apply bind_Ok_inv in H1. destruct H1 as (this & _ & H1).
      destruct this;
        apply bind_Ok_inv in H1; destruct H1 as (member & Hm & H1);
        injection H1 as <-; exists member, (ctor st);
        (split; [reflexivity |]);
        (split; [apply (attr_makeNode _ _ _ _ _ _ "expression" Hm) |]);
        now left. }
  destruct S1 as (member & c1 & -> & He & Hc1).
  assert (I1 : classInvariant
                 (mkClassState (statements st ++ [Some member]) c1
                               (boundMembers st))).
  { cbn [statements ctor boundMembers]. split.
    - intros m Hm. destruct (Hb m Hm) as [Hin Hex].
      split; [apply in_or_app; now left | exact Hex].
    - intros c Hcc. destruct Hc1 as [-> | [-> Ht]].
      + destruct (Hc c Hcc) as [Hin Ht].
        split; [apply in_or_app; now left | exact Ht].
      + injection Hcc as <-.
        split; [apply in_or_app; right; now left | exact Ht]. }
  apply bind_Ok_inv in H. destruct H as (bound & Hbound & H).
  destruct bound; injection H as <-; [| exact I1].
  cbn [statements ctor boundMembers] in *.
  destruct I1 as [Ib Ic]. split; [| exact Ic].
  intros m Hm. apply in_app_or in Hm. destruct Hm as [Hm | [<- | []]].
  - now apply Ib.
  - rewrite last_last. split; [apply in_or_app; right; now left |].
    apply isBoundFunction_true in Hbound. destruct Hbound as (f & -> & Hf).
    exists member, f. now repeat split.
Qed.

(** X17: a class that is converted.  Its [name] and [nameAssignee] are the
    same conversion of the name.  Every bound member is one of the
    statements of the body, and its expression is a bound function; the
    constructor, when there is one, is a Constructor statement of the body.
    A class without a body, or with an empty one, has a null body, no bound
    member and no constructor. *)
Theorem convert_Class_members (loc : option LocRef)
  (variable body parent : option CSNode) (a : CSNode) (anc : list CSNode)
  (n : Node) :
  convert' (Class loc variable body parent) (a :: anc) = Ok (Some n) ->
  node_type n = Some "Class" /\
  attr n "nameAssignee" = attr n "name" /\
  exists stmts bound,
    ((attr n "body" = ANull /\ stmts = []) \/
     (exists block,
         attr n "body" = ANode block /\ node_type block = Some "Block" /\
         attr block "statements" = ANodes stmts)) /\
    ((body = None \/ exists l, body = Some (Block l [])) ->
     attr n "body" = ANull) /\
    attr n "boundMembers" = ANodes bound /\
    (forall m,
        In m bound ->
        In m stmts /\
        exists member f,
          m = Some member /\ attr member "expression" = ANode f /\
          node_type f = Some "BoundFunction") /\
    (attr n "ctor" = ANull \/
     exists c,
       attr n "ctor" = ANode c /\ In (Some c) stmts /\
       node_type c = Some "Constructor").
Proof.
  intros H. cbn [convert app] in H.
  apply bind_Ok_inv in H. destruct H as (nameNode & _ & H).
  apply bind_Ok_inv in H. destruct H as ([body' st] & Hbody & H).
  apply bind_Ok_inv in H. destruct H as (parent' & _ & H).
  apply makeNode_some_inv in H. destruct H as (n' & Hn & H).
  injection Hn as <-. cbn [fst snd] in H.
  split; [apply (makeNode_inv _ _ _ _ _ _ H) |].
  split.
  { rewrite (attr_makeNode _ _ _ _ _ _ "nameAssignee" H).
    now rewrite (attr_makeNode _ _ _ _ _ _ "name" H). }
  rewrite (attr_makeNode _ _ _ _ _ _ "body" H).
  rewrite (attr_makeNode _ _ _ _ _ _ "boundMembers" H).
  rewrite (attr_makeNode _ _ _ _ _ _ "ctor" H).
  cbn [lookup String.eqb Ascii.eqb Bool.eqb].
  assert (Hst : classInvariant st /\
                ((body' = None /\ statements st = []) \/
                 exists block,
                   body' = Some block /\ node_type block = Some "Block" /\
                   attr block "statements" = ANodes (statements st)) /\
                ((body = None \/ exists l, body = Some (Block l [])) ->
                 body' = None)).
  { assert (I0 : classInvariant (mkClassState [] None [])).
    { split; [intros m [] | discriminate]. }
    destruct body as [bodyNode |].
    - destruct bodyNode; try discriminate.
      destruct expressions as [| expression rest].
      + injection Hbody as <- <-.
        split; [exact I0 |]. split; [left; now split | reflexivity].
      + apply bind_Ok_inv in Hbody. destruct Hbody as (st0 & Hfold & Hbody).
        apply bind_Ok_inv in Hbody. destruct Hbody as (block & Hblock & Hbody).
        injection Hbody as <- <-.
        split; [| split].
        * revert Hfold.
          apply (foldResult_invariant (fun st => classInvariant st));
            [| exact I0].
          intros s expr s' _ Is Hs.
          assert (push : forall x,
                     classInvariant
                       (mkClassState (statements s ++ [x]) (ctor s)
                                     (boundMembers s))).
          { intros x. cbn [statements ctor boundMembers].
            destruct Is as [Ib Ic]. split.
            - intros m Hm. destruct (Ib m Hm) as [Hin Hex].
              split; [apply in_or_app; now left | exact Hex].
            - intros c Hc. destruct (Ic c Hc) as [Hin Ht].
              split; [apply in_or_app; now left | exact Ht]. }
          assert (other : forall e,
                     (x <- convert' e (a :: anc ++
                                         [Class loc variable
                                            (Some (Block loc0
                                                     (expression :: rest)))
                                            parent]);;
                      Ok (mkClassState (statements s ++ [x]) (ctor s)
                                       (boundMembers s))) = Ok s' ->
                     classInvariant s').
          { intros e He. apply bind_Ok_inv in He.
            destruct He as (x & _ & He). injection He as <-. apply push. }
          destruct expr; try (now apply (other _ Hs)).
          destruct expr; try (now apply (other _ Hs)).
          revert Hs.
          apply (foldResult_invariant (fun st => classInvariant st));
            [| exact Is].
          intros s0 property s0' _ Is0 Hs0.
          apply bind_Ok_inv in Hs0. destruct Hs0 as (kv & _ & Hs0).
          now apply (classMember_invariant s0 s0' _ _ _ Is0 Hs0).
        * right. exists block. split; [reflexivity |].
          split; [apply (makeNode_inv _ _ _ _ _ _ Hblock) |].
          apply (attr_makeNode _ _ _ _ _ _ "statements" Hblock).
        * intros [Hnone | [l Hl]]; [discriminate |].
          injection Hl as _ Hl. discriminate.
    - injection Hbody as <- <-.
      split; [exact I0 |]. split; [left; now split | reflexivity]. }
  destruct Hst as ([Ib Ic] & Hbody' & Hnone).
  exists (statements st), (boundMembers st).
  split; [| split; [| split; [| split]]].
  - destruct Hbody' as [[-> Hs] | (block & -> & Hb)].
    + left. now split.
    + right. exists block. now split.
  - intros Hb. now rewrite (Hnone Hb).
  - reflexivity.
  - exact Ib.
  - destruct (ctor st) as [c |] eqn:Ec; [| now left].
    right. exists c. split; [reflexivity |]. now apply Ic.
Qed.

End LiteralAndClass.

(** ** The types of the converted nodes *)

(** A property that holds deep in a tree under a hypothesis that holds deep
    in it. *)
Lemma Deep_mp (R Q : CSNode -> Prop) (node : CSNode) :
  Deep (fun c => Deep R c -> Q c) node -> Deep R node -> Deep Q node.
Proof.
  induction 1 as [node Hn _ IH]. intros HR. constructor.
  - now apply Hn.
  - intros c Hc. apply IH; [exact Hc |].
    apply (proj1 (Forall_forall _ _) (Deep_children _ _ HR) c Hc).
Qed.

Lemma Typed_descendant (n d : Node) : Typed n -> descendant n d -> Typed d.
Proof.
  intros Hn Hd. induction Hd as [p c Hin | p c d Hin _ IH].
  - destruct Hn as [p _ Hc]. now apply Hc.
  - apply IH. destruct Hn as [p _ Hc]. now apply Hc.
Qed.

Section TypedNodes.

Variable parseLiteral : string -> option string.
Variable JSON_parse : string -> option JsValue.
Variable locations : LocStore.
Variable source : string.
Variable mapper : Mapper.

Local Notation convert' :=
  (convert parseLiteral JSON_parse locations source mapper).
Local Notation convertsToTyped' :=
  (convertsToTyped parseLiteral JSON_parse locations source mapper).
Local Notation makeNode' := (makeNode source mapper).
Local Notation makeNode_some' := (makeNode_some source mapper).

Lemma TypedOption_None : TypedOption None.
Proof. intros n H. discriminate. Qed.

Lemma makeNode_TypedOption nodeType loc attributes n :
  makeNode' (Some nodeType) loc attributes = Ok n ->
  (forall c, In c (flat_map (fun kv => attr_children (snd kv)) attributes) ->
             Typed c) ->
  TypedOption (Some n).
Proof.
  intros H Hc n' Hn. injection Hn as <-.
  pose proof (makeNode_inv _ _ _ _ _ _ H) as (Ht & Ha & _).
  constructor.
  - rewrite Ht. discriminate.
  - unfold children. now rewrite Ha.
Qed.

Lemma makeNode_some_TypedResult nodeType loc attributes :
  (forall c, In c (flat_map (fun kv => attr_children (snd kv)) attributes) ->
             Typed c) ->
  TypedResult (makeNode_some' nodeType loc attributes).
Proof.
  intros Hc o H. unfold makeNode_some in H.
  destruct (makeNode' (Some nodeType) loc attributes) as [n |] eqn:E;
    simpl in H; [| discriminate].
  injection H as <-.
  now apply makeNode_TypedOption with nodeType loc attributes.
Qed.

Lemma mapResult_TypedOption {A : Type} (f : A -> result (option Node))
  (l : list A) (rs : list (option Node)) :
  mapResult f l = Ok rs ->
  (forall x, In x l -> TypedResult (f x)) ->
  Forall TypedOption rs.
Proof.
  revert rs. induction l as [| x l IH]; intros rs H Hf; simpl in H.
  - injection H as <-. constructor.
  - destruct (f x) as [y |] eqn:E; simpl in H; [| discriminate].
    destruct (mapResult f l) as [ys |] eqn:E'; simpl in H; [| discriminate].
    injection H as <-. constructor.
    + apply (Hf x (or_introl eq_refl) y E).
    + apply IH; [reflexivity |]. intros z Hz. apply Hf. now right.
Qed.

Lemma TypedResult_Err e : TypedResult (Err e).
Proof. intros o H. discriminate. Qed.

Lemma TypedResult_Ok o : TypedOption o -> TypedResult (Ok o).
Proof. intros Ho o' H. now injection H as <-. Qed.

Lemma TypedResult_bind {A : Type} (m : result A)
  (k : A -> result (option Node)) :
  (forall x, m = Ok x -> TypedResult (k x)) -> TypedResult (bind m k).
Proof.
  intros H o Ho. destruct m as [x |]; simpl in Ho; [| discriminate].
  now apply (H x eq_refl).
Qed.

Lemma TypedResult_foldResult {A : Type}
  (f : option Node -> A -> result (option Node))
  (l : list A) (s : option Node) :
  TypedOption s ->
  (forall s x, In x l -> TypedOption s -> TypedResult (f s x)) ->
  TypedResult (foldResult f l s).
Proof.
  intros Hs Hf o H.
  apply (foldResult_invariant TypedOption f l) with s; auto.
  intros s0 x s' Hx Hs0 E. now apply (Hf s0 x Hx Hs0).
Qed.

Lemma Forall_TypedOption_In (l : list (option Node)) (c : Node) :
  Forall TypedOption l -> In c (attr_children (ANodes l)) -> Typed c.
Proof.
  intros Hl Hc. apply In_ANodes in Hc.
  now apply (proj1 (Forall_forall _ _) Hl (Some c) Hc c).
Qed.

Lemma TypedOption_In (o : option Node) (c : Node) :
  TypedOption o -> In c (attr_children (attr_of o)) -> Typed c.
Proof. intros Ho Hc. apply Ho. now apply In_attr_of. Qed.

Lemma convertLiteral_Typed loc value :
  TypedResult (convertLiteral parseLiteral JSON_parse source mapper loc value).
Proof.
  unfold convertLiteral.
  destruct (looks_numeric value).
  - destruct (JSON_parse value); [| apply TypedResult_Err].
    apply TypedResult_bind. intros x _.
    apply makeNode_some_TypedResult. simpl. tauto.
  - destruct (value =? "this")%string.
    + apply makeNode_some_TypedResult. simpl. tauto.
    + destruct (parseLiteral value);
        apply makeNode_some_TypedResult; simpl; tauto.
Qed.

Lemma convertBool_Typed loc val :
  TypedResult (convertBool JSON_parse source mapper loc val).
Proof.
  unfold convertBool. destruct (JSON_parse val); [| apply TypedResult_Err].
  apply makeNode_some_TypedResult. simpl. tauto.
Qed.

Lemma classMember_Typed st propLoc key value st' :
  TypedClassState st -> TypedOption key -> TypedOption value ->
  classMember source mapper st propLoc key value = Ok st' ->
  TypedClassState st'.
Proof.
  intros (Hs & Hct & Hb) Hk Hv H. unfold classMember in H.
  destruct key as [k |]; [| discriminate].
  assert (Bk : Typed k) by now apply Hk.
  assert (step : forall ty attributes member,
             makeNode' (Some ty) propLoc attributes = Ok member ->
             (forall c,
                 In c (flat_map (fun kv => attr_children (snd kv))
                                attributes) -> Typed c) ->
             TypedOption (Some member)).
  { intros ty attributes member Hm Hch.
    now apply makeNode_TypedOption with ty propLoc attributes. }
  assert (Hval : forall c, In c (attr_children (attr_of value)) -> Typed c)
    by (intros c; apply TypedOption_In, Hv).
  match type of H with
  | bind ?m _ = _ => destruct m as [st1 |] eqn:E; simpl in H; [| discriminate]
  end.
  assert (H1 : TypedClassState st1).
  { destruct (isConstructorKey k).
    - destruct (makeNode' (Some "Constructor") propLoc _) as [member |] eqn:Em;
        simpl in E; [| discriminate].
      injection E as <-.
      assert (Bm : TypedOption (Some member)).
      { apply (step _ _ _ Em). simpl. intros c Hc.
        rewrite app_nil_r in Hc. now apply Hval. }
      (split; [| split]); simpl; auto.
      apply Forall_app. split; [exact Hs | now constructor].
    - destruct (isThisMember k) as [[|] |]; simpl in E; [| | discriminate].
      + destruct (makeNode' (Some "AssignOp") propLoc _) as [member |] eqn:Em;
          simpl in E; [| discriminate].
        injection E as <-.
        assert (Bm : TypedOption (Some member)).
        { apply (step _ _ _ Em). simpl. intros c [<- | Hc]; [exact Bk |].
          rewrite app_nil_r in Hc. now apply Hval. }
        (split; [| split]); simpl; auto.
        apply Forall_app. split; [exact Hs | now constructor].
      + destruct (makeNode' (Some "ClassProtoAssignOp") propLoc _)
          as [member |] eqn:Em;
          simpl in E; [| discriminate].
        injection E as <-.
        assert (Bm : TypedOption (Some member)).
        { apply (step _ _ _ Em). simpl. intros c [<- | Hc]; [exact Bk |].
          rewrite app_nil_r in Hc. now apply Hval. }
        (split; [| split]); simpl; auto.
        apply Forall_app. split; [exact Hs | now constructor]. }
  destruct (isBoundFunction value) as [[|] |]; simpl in H; [| | discriminate];
    injection H as <-; [| exact H1].
  destruct H1 as (Hs1 & Hc1 & Hb1). (split; [| split]); simpl; auto.
  apply Forall_app. split; [exact Hb1 |]. constructor; [| constructor].
  destruct (statements st1) as [| s0 ss _] using rev_ind.
  - simpl. apply TypedOption_None.
  - rewrite last_last. apply Forall_app in Hs1. destruct Hs1 as [_ Hl].
    now inversion Hl.
Qed.

Lemma TypedOption_ANode (n c : Node) :
  TypedOption (Some n) -> In c (attr_children (ANode n)) -> Typed c.
Proof. intros Hn [<- | []]. now apply Hn. Qed.

Lemma TypedResult_bind_option (m : result (option Node))
  (k : option Node -> result (option Node)) :
  TypedResult m -> (forall x, TypedOption x -> TypedResult (k x)) ->
  TypedResult (bind m k).
Proof.
  intros Hm Hk. apply TypedResult_bind. intros x E. apply Hk. now apply Hm.
Qed.

Lemma TypedClassState_push (st : ClassState) (s : option Node) :
  TypedClassState st -> TypedOption s ->
  TypedClassState
    (mkClassState (statements st ++ [s]) (ctor st) (boundMembers st)).
Proof.
  intros (Hs & Hc & Hb) H. (split; [| split]); simpl; auto.
  apply Forall_app. split; [exact Hs | now constructor].
Qed.

Lemma TypedClassState_empty : TypedClassState (mkClassState [] None []).
Proof. (split; [| split]); simpl; auto. apply TypedOption_None. Qed.

Lemma TypedClassState_foldResult {A : Type}
  (f : ClassState -> A -> result ClassState) (l : list A) (s s' : ClassState) :
  foldResult f l s = Ok s' ->
  (forall s x s', In x l -> TypedClassState s -> f s x = Ok s' ->
                  TypedClassState s') ->
  TypedClassState s ->
  TypedClassState s'.
Proof.
  intros H Hf Hs. now apply (foldResult_invariant TypedClassState f l Hf s).
Qed.

(** The nodes placed in the attributes of a new node have a type: each
    comes from a conversion or a [makeNode] already known to give typed
    nodes. *)
Ltac typed_kids :=
  repeat match goal with
  | Hc : context [fst (_, _)] |- _ => cbn [fst snd] in Hc
  | Hc : context [snd (_, _)] |- _ => cbn [fst snd] in Hc
  | Hc : context [boundMembers (mkClassState _ _ _)] |- _ =>
      cbn [boundMembers] in Hc
  | Hc : context [statements (mkClassState _ _ _)] |- _ =>
      cbn [statements] in Hc
  | Hc : context [ctor (mkClassState _ _ _)] |- _ => cbn [ctor] in Hc
  | Hc : In _ (_ ++ _) |- _ => apply in_app_or in Hc; destruct Hc as [Hc | Hc]
  | Hc : In _ [] |- _ => destruct Hc
  | Hc : In _ (attr_children (ANodes [])) |- _ => destruct Hc
  | Hc : In ?c (attr_children (attr_of ?o)), H : TypedOption ?o |- Typed ?c =>
      exact (TypedOption_In o c H Hc)
  | Hc : In ?c (attr_children (attr_of (ctor ?st))), H : TypedClassState ?st
    |- Typed ?c => exact (TypedOption_In _ c (proj1 (proj2 H)) Hc)
  | Hc : In ?c (attr_children (ANodes (statements ?st))),
    H : TypedClassState ?st
    |- Typed ?c => exact (Forall_TypedOption_In _ c (proj1 H) Hc)
  | Hc : In ?c (attr_children (ANodes (boundMembers ?st))),
    H : TypedClassState ?st
    |- Typed ?c => exact (Forall_TypedOption_In _ c (proj2 (proj2 H)) Hc)
  | Hc : In ?c (attr_children (attr_of None)) |- _ => destruct Hc
  | Hc : In ?c (attr_children (ANodes ?l)), H : Forall TypedOption ?l
    |- Typed ?c => exact (Forall_TypedOption_In l c H Hc)
  | Hc : In ?c (attr_children (ANodes [?o])), H : TypedOption ?o
    |- Typed ?c =>
      exact (Forall_TypedOption_In [o] c
               (Forall_cons o H (Forall_nil TypedOption)) Hc)
  | Hc : In ?c (attr_children (ANode ?n)), H : TypedOption (Some ?n)
    |- Typed ?c => exact (TypedOption_ANode n c H Hc)
  | Hc : In _ (attr_children (AData _)) |- _ => destruct Hc
  | Hc : In _ (attr_children (memberNameOf ?name)) |- _ =>
      destruct name; destruct Hc
  end.

(** Turns what is known of the steps already run (a conversion, a
    [makeNode], a map or a fold that returned) into facts about typed
    nodes. *)
Ltac typed_facts :=
  repeat match goal with
  | _ => progress deep_expand
  | E : Ok _ = Ok _ |- _ => injection E as E; try subst
  | E : Err _ = Ok _ |- _ => discriminate E
  | E : convert _ _ _ _ _ ?n _ = Ok ?x, H : Deep convertsToTyped' ?n |- _ =>
      pose proof (Deep_here _ _ H _ _ E); clear E
  | E : convert _ _ _ _ _ ?n _ = Ok ?x, H : convertsToTyped' ?n |- _ =>
      pose proof (H _ _ E); clear E
  | E : makeNode _ _ _ _ _ = Ok ?n |- _ =>
      apply makeNode_TypedOption in E;
      [| solve [cbn [flat_map snd]; intros ? ?; typed_kids]]
  | E : mapResult _ _ = Ok ?rs |- _ =>
      apply mapResult_TypedOption in E; [| clear E; intros ? ?; cbn beta]
  | E : classMember _ _ _ _ _ _ = Ok _ |- _ =>
      apply classMember_Typed in E; [| assumption | assumption | assumption]
  | E : foldResult _ _ _ = Ok ?st |- _ =>
      apply TypedClassState_foldResult in E;
      [| clear E; intros ? ? ? ? ? ?; cbn beta in *
       | first [assumption | apply TypedClassState_empty]]
  | E : bind ?m _ = Ok _ |- _ =>
      let E' := fresh "E" in
      destruct m eqn:E'; cbn [bind] in E; [| discriminate E]
  | E : match ?x with _ => _ end = Ok _ |- _ => destruct x
  | E : context [fst (_, _)] |- _ => cbn [fst snd] in E
  | E : context [snd (_, _)] |- _ => cbn [fst snd] in E
  end.

(** One step through the body of [convert], following its binds and
    case analyses. *)
Ltac typed_step :=
  match goal with
  | |- TypedResult (Err _) => apply TypedResult_Err
  | |- TypedResult (Ok None) => apply TypedResult_Ok, TypedOption_None
  | H : TypedOption ?o |- TypedResult (Ok ?o) => apply TypedResult_Ok, H
  | |- TypedResult (bind _ _) =>
      first [ apply TypedResult_bind_option; [| intros ? ?]
            | apply TypedResult_bind; intros ? ? ]
  | |- TypedResult (makeNode_some _ _ _ _ _) =>
      apply makeNode_some_TypedResult; cbn [flat_map snd]; intros ? ?; typed_kids
  | |- TypedResult (convertLiteral _ _ _ _ _ _) => apply convertLiteral_Typed
  | |- TypedResult (convertBool _ _ _ _ _) => apply convertBool_Typed
  | H : Deep convertsToTyped' ?n |- TypedResult (convert _ _ _ _ _ ?n _) =>
      apply (Deep_here _ _ H)
  | H : convertsToTyped' ?n |- TypedResult (convert _ _ _ _ _ ?n _) =>
      apply H
  | |- TypedResult (foldResult _ _ _) =>
      apply TypedResult_foldResult; [assumption | intros ? ? ? ?]
  | |- TypedResult (if ?c then _ else _) => destruct c
  | |- TypedResult (match ?x with _ => _ end) => destruct x
  | |- TypedResult (let (_, _) := ?x in _) => destruct x
  | |- TypedClassState _ =>
      first [ assumption | apply TypedClassState_push; assumption ]
  end; deep_expand; typed_facts; deep_expand.

(** The node types [convertOperator] leaves undefined are ruled out by the
    hypothesis on the operators. *)
Ltac typed_operator :=
  match goal with
  | H : recognizedOperator (Op _ _ _ (Some _)) |- _ =>
      cbn [recognizedOperator] in H
  | H : recognizedOperator (Op _ _ _ None) |- _ =>
      cbn [recognizedOperator] in H
  | H : binaryNodeType ?o <> None |- _ =>
      destruct (binaryNodeType o); [clear H | now contradiction H]
  | H : unaryNodeType ?o <> None |- _ =>
      destruct (unaryNodeType o); [clear H | now contradiction H]
  | H : recognizedOperator ?n |- _ =>
      tryif is_var n then fail
      else lazymatch n with
           | Op _ _ _ _ => fail
           | _ => clear H
           end
  end.

Lemma convert_Typed (node : CSNode) :
  Deep recognizedOperator node -> Deep convertsToTyped' node.
Proof.
  apply (Deep_mp recognizedOperator). revert node.
  apply (CSNode_deep_ind
           (fun c => Deep recognizedOperator c -> convertsToTyped' c)).
  intros node IH Hrec.
  assert (IH' : Forall (Deep convertsToTyped') (csChildren node)).
  { apply Forall_forall. intros c Hc.
    apply (Deep_mp recognizedOperator); [now apply IH |].
    apply (proj1 (Forall_forall _ _) (Deep_children _ _ Hrec) c Hc). }
  pose proof (Deep_here _ _ Hrec) as Hop.
  assert (Hkids : forall c, In c (csChildren node) -> recognizedOperator c).
  { intros c Hc. apply Deep_here.
    apply (proj1 (Forall_forall _ _) (Deep_children _ _ Hrec) c Hc). }
  clear IH Hrec.
  intros anc.
  destruct anc as [| a anc];
  destruct node; cbn [convert app csChildren optionalNode] in *;
    try (pose proof (Hkids _ (or_introl eq_refl)) as Hfirst); clear Hkids;
    deep_expand.
  all: repeat first [typed_operator | typed_step].
Qed.

(** X20: when every operator node of the tree has an operator that
    [convertOperator] has a case for, every node of the tree [convert]
    returns, the root or a node below it, has a type. *)
Theorem convert_typed_nodes (node : CSNode) (ancestors : list CSNode)
  (n d : Node) :
  Deep recognizedOperator node ->
  convert' node ancestors = Ok (Some n) ->
  d = n \/ descendant n d ->
  node_type d <> None.
Proof.
  intros Hrec H Hd.
  assert (Hn : Typed n).
  { exact (Deep_here _ _ (convert_Typed node Hrec) ancestors _ H n eq_refl). }
  assert (Ht : Typed d).
  { destruct Hd as [-> | Hd]; [exact Hn | now apply Typed_descendant with n]. }
  now destruct Ht.
Qed.

End TypedNodes.

(** * The properties on the sample trees *)

(** C1: the code on an operator outside the recognized set.  For [a && b]
    no error is raised: [convertOperator] leaves [nodeType] undefined and
    [makeNode] returns a node that has no type. *)
Theorem convert_unrecognized_operator_returns_node :
  binaryNodeType "&&" = None /\
  sample_convert and_locations and_source and_op [and_tree] =
  Ok (Some
        (mkNode None (Some 1) (Some 1) (Some (0, 6)) false (Some "a && b")
           [("left",
             ANode (mkNode (Some "Identifier") (Some 1) (Some 1)
                           (Some (0, 1)) false (Some "a")
                           [("data", AData (JString "a"))]));
            ("right",
             ANode (mkNode (Some "Identifier") (Some 1) (Some 6)
                           (Some (5, 6)) false (Some "b")
                           [("data", AData (JString "b"))]))])).
Proof. split; vm_compute; reflexivity. Qed.

(** The same for the logical not, on which the [If] case relies. *)
Lemma convert_logical_not_returns_node :
  unaryNodeType "!" = None /\
  exists n,
    sample_convert unless_locations unless_source
      (Op (Some 1%nat) "!" unless_operand None)
      [unless_tree 1%nat 1%nat] = Ok (Some n) /\
    node_type n = None /\ virtual n = false.
Proof.
  split; [reflexivity |].
  remember (sample_convert _ _ _ _) as r eqn:E. vm_compute in E. subst r.
  eexists. split; [reflexivity |]. split; reflexivity.
Qed.


(** The hypothesis on the conditions of a case is needed: the span the code
    computes comes from the first condition and the body only.  On a
    hand-built tree where the second condition of the second case has its
    location data in the first case, the merge of all the conditions and the
    body, expanded through "when ", starts on line 2, and the node the code
    produces is on line 3. *)
Lemma switch_case_span_ignores_later_conditions :
  exists n c0 c1 span,
    sample_convert switch_locations switch_source
      (Switch (Some 0%nat) switch_subject
              (switch_cases switch_conditions_astray) None)
      [Null None] = Ok (Some n) /\
    attr n "cases" = ANodes [Some c0; Some c1] /\
    specifiedCaseSpan switch_locations switch_source
      (lineColumnMapper switch_source)
      (inr switch_conditions_astray)
      switch_second_body = Ok (Some span) /\
    first_line span + 1 = 2 /\
    line c1 = Some 3 /\
    (forall nodeType attributes node,
        makeNode switch_source (lineColumnMapper switch_source) nodeType
                 (Some span) attributes = Ok node ->
        node <> c1).
Proof.
  remember (sample_convert _ _ _ _) as r eqn:E. vm_compute in E. subst r.
  remember (specifiedCaseSpan _ _ _ _ _) as s eqn:Es. vm_compute in Es.
  subst s.
  eexists. eexists. eexists. eexists.
  split; [reflexivity |]. split; [reflexivity |]. split; [reflexivity |].
  split; [reflexivity |]. split; [reflexivity |].
  intros nodeType attributes node H Heq.
  apply makeNode_inv in H. destruct H as (_ & _ & rng & _ & _ & Hl & _).
  rewrite Heq in Hl. discriminate Hl.
Qed.

(** On [b unless a]: with the object shared by the conditional and the
    negation the condition is virtual; with a negation whose span stops
    before that of the conditional it is not. *)
Lemma convert_If_negation_same_span_witness :
  (exists n c,
      sample_convert unless_locations unless_source
        (If (Some 1%nat) (Op (Some 1%nat) "!" unless_operand None)
            unless_body None)
        [unless_tree 1%nat 1%nat] = Ok (Some n) /\
      attr n "condition" = ANode c /\
      virtual c = true /\ range c = None /\ raw c = None) /\
  (exists n c,
      sample_convert unless_locations unless_source
        (If (Some 1%nat) (Op (Some 5%nat) "!" unless_operand None)
            unless_body None)
        [unless_tree 1%nat 5%nat] = Ok (Some n) /\
      attr n "condition" = ANode c /\
      virtual c = false /\ range c <> None).
Proof.
  split.
  - destruct (sample_convert unless_locations unless_source
                (If (Some 1%nat) (Op (Some 1%nat) "!" unless_operand None)
            unless_body None)
        [unless_tree 1%nat 1%nat])
      as [[n |] |] eqn:E;
      [| vm_compute in E; discriminate E | vm_compute in E; discriminate E].
    destruct (convert_If_negation_same_span _ _ _ _ _ _ _ _ _ _ _ _ _ _
                (fun _ => eq_refl) E)
      as (c & Hc & Hsame & _).
    exists n, c. split; [reflexivity |]. split; [exact Hc |].
    destruct (Hsame eq_refl) as (H1 & _ & _ & H4 & H5). now repeat split.
  - assert (Hne : unless_locations 1%nat <> unless_locations 5%nat)
      by (vm_compute; discriminate).
    destruct (sample_convert unless_locations unless_source
                (If (Some 1%nat) (Op (Some 5%nat) "!" unless_operand None)
            unless_body None)
        [unless_tree 1%nat 5%nat])
      as [[n |] |] eqn:E;
      [| vm_compute in E; discriminate E | vm_compute in E; discriminate E].
    destruct (convert_If_negation_same_span _ _ _ _ _ _ _ _ _ _ _ _ _ _
                (fun H => False_ind _ (Hne H)) E)
      as (c & Hc & _ & Hother).
    exists n, c. split; [reflexivity |]. split; [exact Hc |].
    now apply Hother.
Defined.

(** The hypothesis on the location data objects is needed: the code
    compares the objects, not their coordinates.  On a hand-built tree where
    the conditional holds the object at address 1 and the negation the
    object at address 4, both spanning 0:0 to 0:9, the condition is not
    virtual. *)
Lemma unless_equal_coordinates_not_virtual :
  unless_locations 1%nat = unless_locations 4%nat /\
  exists n c,
    sample_convert unless_locations unless_source
      (If (Some 1%nat) (Op (Some 4%nat) "!" unless_operand None)
            unless_body None)
        [unless_tree 1%nat 4%nat] = Ok (Some n) /\
    attr n "condition" = ANode c /\
    virtual c = false /\ range c = Some (0, 10).
Proof.
  split; [reflexivity |].
  remember (sample_convert _ _ _ _) as r eqn:E. vm_compute in E. subst r.
  eexists. eexists.
  split; [reflexivity |]. split; [reflexivity |]. split; reflexivity.
Qed.



(** On one identifier and on the converted tree of [b unless a]. *)
Lemma makeNode_raw_slice_exact_witness :
  (exists n,
      makeNode unless_source (lineColumnMapper unless_source)
        (Some "Identifier") (Some (mkLoc 0 9 0 9))
        [("data", AData (JString "a"))] = Ok n /\
      range n = Some (9, 10) /\
      raw n = Some (JsString.slice unless_source 9 10)) /\
  (exists program d a b,
      sample_convert unless_locations unless_source
        (unless_tree 1%nat 1%nat) [] = Ok (Some program) /\
      descendant program d /\
      range d = Some (a, b) /\
      raw d = Some (JsString.slice unless_source a b) /\
      0 <= a /\ b <= JsString.length unless_source).
Proof.
  split.
  - destruct (makeNode unless_source (lineColumnMapper unless_source)
                (Some "Identifier") (Some (mkLoc 0 9 0 9))
                [("data", AData (JString "a"))]) as [n |] eqn:E;
      [| vm_compute in E; discriminate E].
    destruct (proj1 (makeNode_raw_slice_exact unless_source
                       (lineColumnMapper unless_source)) _ _ _ n E)
      as [_ Hraw].
    vm_compute in E. injection E as <-.
    destruct (Hraw eq_refl) as (a & b & Hr & Hs & _).
    simpl in Hr. injection Hr as <- <-.
    eexists. split; [reflexivity |]. split; [reflexivity | exact Hs].
  - destruct (sample_convert unless_locations unless_source
                (unless_tree 1%nat 1%nat) [])
      as [[program |] |] eqn:E;
      [| vm_compute in E; discriminate E | vm_compute in E; discriminate E].
    pose proof (Deep_here _ _
                  (convert_Built _ _ _ _ _ (unless_tree 1%nat 1%nat))
                  [] _ E program eq_refl) as HB.
    vm_compute in E. injection E as <-.
    match type of HB with
    | Built _ _ ?p =>
        assert (H : exists d, descendant p d /\ virtual d = false)
    end.
    { eexists. split.
      - apply descendant_child. simpl. left. reflexivity.
      - reflexivity. }
    destruct H as (d & Hd & Hv).
    destruct (proj2 (makeNode_raw_slice_exact unless_source
                       (lineColumnMapper unless_source))
                _ d HB (or_intror Hd) Hv)
      as (a & b & Hr & Hs & H0 & H1).
    eexists. exists d, a, b. split; [reflexivity |]. split; [exact Hd |].
    repeat split; assumption.
Defined.

(** On [a[b]] through the closing bracket, and on the second case of the
    switch through "when ". *)
Lemma expandLocation_through_anchor_witness :
  (exists k,
      3 <= k /\ occursAt index_source "]" k /\
      expandLocationRightThrough index_source (lineColumnMapper index_source)
        (mkLoc 0 0 0 2) "]" = Ok (mkLoc 0 0 0 3)) /\
  (exists k,
      k <= 32 /\ occursAt switch_source "when " k /\
      expandLocationLeftThrough switch_source (lineColumnMapper switch_source)
        (mkLoc 2 7 2 17) "when " = Ok (mkLoc 2 2 2 17)).
Proof.
  split.
  - destruct (expandLocation_through_anchor index_source
                (lineColumnMapper index_source) (mkLoc 0 0 0 2) "]")
      as [R _].
    cbv zeta in R.
    assert (E : expandLocationRightThrough index_source
                  (lineColumnMapper index_source) (mkLoc 0 0 0 2) "]"
                = Ok (mkLoc 0 0 0 3)) by (vm_compute; reflexivity).
    match type of R with
    | ?A -> _ => assert (Hvalid : A) by (left; vm_compute; discriminate)
    end.
    destruct (R Hvalid) as (_ & _ & Hok).
    destruct (Hok _ E) as (k & Hk & Hocc & _).
    exists k. split; [| split; [exact Hocc | exact E]].
    vm_compute in Hk. exact Hk.
  - destruct (expandLocation_through_anchor switch_source
                (lineColumnMapper switch_source) (mkLoc 2 7 2 17) "when ")
      as [_ L].
    cbv zeta in L.
    assert (E : expandLocationLeftThrough switch_source
                  (lineColumnMapper switch_source) (mkLoc 2 7 2 17) "when "
                = Ok (mkLoc 2 2 2 17)) by (vm_compute; reflexivity).
    match type of L with
    | ?A -> _ => assert (Hvalid : A) by (vm_compute; discriminate)
    end.
    destruct (L Hvalid) as (_ & _ & Hok).
    destruct (Hok _ E) as (k & Hk & Hocc & _).
    exists k. split; [| split; [exact Hocc | exact E]].
    vm_compute in Hk. exact Hk.
Defined.

(** * The further properties on sample trees *)

(** On three nodes, the last spanning the other two. *)
Lemma locationContainingNodes_smallest_cover_witness :
  let locations := storeOf [mkLoc 2 2 2 8; mkLoc 2 8 2 13; mkLoc 1 4 3 9] in
  locationContainingNodes locations
    [Null (Some 0%nat); Null (Some 1%nat); Null (Some 2%nat)]
  = Ok (Some (mkLoc 1 4 3 9)) /\
  covers (mkLoc 1 4 3 9) (mkLoc 2 8 2 13).
Proof.
  intros locations. split; [reflexivity |].
  destruct (proj1 (locationContainingNodes_smallest_cover locations
                     [Null (Some 0%nat); Null (Some 1%nat); Null (Some 2%nat)]
                     (mkLoc 1 4 3 9) eq_refl)
              (Null (Some 1%nat)) (or_intror (or_introl eq_refl)))
    as (l & Hl & Hc).
  simpl in Hl. injection Hl as <-. exact Hc.
Defined.

(** On three nodes, the second without location data. *)
Lemma locationContainingNodes_null_location_witness :
  let locations := storeOf [mkLoc 2 2 2 8] in
  locationContainingNodes locations
    [Null (Some 0%nat); Null None; Null (Some 0%nat)]
  = Err TypeError.
Proof.
  intros locations.
  assert (Hlen : (2 <= List.length
                         [Null (Some 0%nat); Null None; Null (Some 0%nat)])%nat)
    by (simpl; lia).
  destruct (locationContainingNodes_null_location locations
              [Null (Some 0%nat); Null None; Null (Some 0%nat)] Hlen)
    as (Hiff & Herr & _).
  destruct (proj2 Hiff
              (ex_intro _ (Null None)
                 (conj (or_intror (or_introl eq_refl)) eq_refl)))
    as [e He].
  rewrite He. f_equal. exact (Herr e He).
Defined.

(** On a node built at the first character of [b unless a] around a child
    at its last character. *)
Lemma makeNode_range_hull_witness :
  exists n r0 r1,
    makeNode unless_source (lineColumnMapper unless_source)
      (Some "Conditional") (Some (mkLoc 0 0 0 0))
      [("condition",
        ANode (mkNode (Some "Identifier") (Some 1) (Some 10) (Some (9, 10))
                      false (Some "a") [("data", AData (JString "a"))]))]
    = Ok n /\
    range n = Some (r0, r1) /\ r0 <= 0 /\ r0 <= r1 /\ 10 <= r1.
Proof.
  destruct (makeNode unless_source (lineColumnMapper unless_source)
              (Some "Conditional") (Some (mkLoc 0 0 0 0))
              [("condition",
                ANode (mkNode (Some "Identifier") (Some 1) (Some 10)
                              (Some (9, 10)) false (Some "a")
                              [("data", AData (JString "a"))]))])
    as [n |] eqn:E; [| vm_compute in E; discriminate E].
  destruct (makeNode_range_hull _ _ _ _ _ _ E)
    as (r0 & r1 & Hr & _ & Hstart & _ & Hordered).
  exists n, r0, r1. split; [reflexivity |]. split; [exact Hr |].
  split; [apply Hstart; vm_compute; discriminate |].
  split; [apply Hordered; vm_compute; discriminate |].
  vm_compute in E. injection E as <-. simpl in Hr. injection Hr as <- <-.
  lia.
Defined.

(** On the node for [unless] in [b unless a]. *)
Lemma Built_raw_length_witness :
  exists n s,
    makeNode unless_source (lineColumnMapper unless_source)
      (Some "Identifier") (Some (mkLoc 0 2 0 7)) [] = Ok n /\
    raw n = Some s /\ JsString.length s = 8 - 2.
Proof.
  destruct (makeNode unless_source (lineColumnMapper unless_source)
              (Some "Identifier") (Some (mkLoc 0 2 0 7)) [])
    as [n |] eqn:E; [| vm_compute in E; discriminate E].
  pose proof (Built_makeNode _ _ (Some "Identifier") (Some (mkLoc 0 2 0 7))
                [] n (fun c H => False_ind _ H) E) as HB.
  vm_compute in E. injection E as <-.
  destruct (Built_raw_length _ _ _ 2 8 HB eq_refl) as (s & Hs & Hlen & _).
  eexists. exists s. split; [reflexivity |]. split; [exact Hs |].
  apply Hlen. lia.
Defined.

(** On the converted tree of [b unless a]: the virtual condition of the
    Conditional, three levels below the Program. *)
Lemma convert_tree_well_formed_witness :
  exists program d,
    sample_convert unless_locations unless_source
      (unless_tree 1%nat 1%nat) [] = Ok (Some program) /\
    descendant program d /\
    virtual d = true /\ range d = None /\ line d = None /\ raw d = None.
Proof.
  destruct (sample_convert unless_locations unless_source
              (unless_tree 1%nat 1%nat) [])
    as [[program |] |] eqn:E;
    [| vm_compute in E; discriminate E | vm_compute in E; discriminate E].
  pose proof (fun d => convert_tree_well_formed _ _ _ _ _ _ _ _ d E) as H.
  vm_compute in E. injection E as <-.
  match type of H with
  | forall d, _ = ?p \/ _ -> _ =>
      assert (Hd : exists d, descendant p d /\ virtual d = true)
  end.
  { eexists. split.
    - eapply descendant_step; [simpl; left; reflexivity |].
      eapply descendant_step; [simpl; left; reflexivity |].
      apply descendant_child. simpl. left. reflexivity.
    - reflexivity. }
  destruct Hd as (d & Hd & Hv).
  destruct (H d (or_intror Hd)) as (Hiff & Hvirtual & _).
  eexists. exists d. split; [reflexivity |]. split; [exact Hd |].
  split; [exact Hv |]. split; [apply Hiff, Hv |].
  destruct (Hvirtual Hv) as (Hl & _ & Hraw). now split.
Defined.


(** On [[a...]]: the splat, an element of the array, is carried by the
    error. *)
Lemma convert_errors_carry_tree_nodes_witness :
  exists n,
    sample_convert array_locations splat_source
      (Arr (Some 0%nat) [splat]) [Null None]
    = Err (UnknownNodeType "Splat" n) /\
    hasNoCase n = true /\
    inTree n (Arr (Some 0%nat) [splat]).
Proof.
  destruct (sample_convert array_locations splat_source
              (Arr (Some 0%nat) [splat]) [Null None])
    as [r | e] eqn:E; [vm_compute in E; discriminate E |].
  destruct e as [typeName n | | | | | |];
    try (vm_compute in E; discriminate E).
  destruct (proj1 (convert_errors_carry_tree_nodes _ _ _ _ _ _ _) _ _ E)
    as (_ & Hcase & Hin).
  vm_compute in E. injection E as <- <-.
  eexists. split; [reflexivity |]. split; [exact Hcase | exact Hin].
Defined.

(** On [[a, b]]. *)
Lemma convert_list_children_witness :
  exists n ms,
    sample_convert array_locations array_source
      (Arr (Some 0%nat) [identifier 1%nat "a"; identifier 2%nat "b"])
      [Null None] = Ok (Some n) /\
    attr n "members" = ANodes ms /\
    List.length ms = 2%nat /\
    (forall m, In m ms -> m <> None).
Proof.
  destruct (sample_convert array_locations array_source
              (Arr (Some 0%nat) [identifier 1%nat "a"; identifier 2%nat "b"])
              [Null None])
    as [[n |] |] eqn:E;
    [| vm_compute in E; discriminate E | vm_compute in E; discriminate E].
  destruct (proj1 (convert_list_children _ _ _ _ _ _ _ _) _ _ E)
    as (ms & Hms & Hall & Hnone).
  exists n, ms. split; [reflexivity |]. split; [exact Hms |]. split.
  - apply Forall2_length in Hall. simpl in Hall. now rewrite <- Hall.
  - apply Hnone. discriminate.
Defined.

(** On [a[b]]: the bracket is at the offset 3 and the range ends at 4. *)
Lemma convert_Index_closing_bracket_witness :
  exists n r0 r1,
    sample_convert index_locations index_source
      (Value (Some 0%nat) (Literal (Some 1%nat) "a")
         ([] ++ [Index (Some 2%nat) (identifier 3%nat "b")]))
      [Null None] = Ok (Some n) /\
    occursAt index_source "]" 3 /\
    range n = Some (r0, r1) /\ 3 + 1 <= r1.
Proof.
  destruct (sample_convert index_locations index_source
              (Value (Some 0%nat) (Literal (Some 1%nat) "a")
                 ([] ++ [Index (Some 2%nat) (identifier 3%nat "b")]))
              [Null None])
    as [[n |] |] eqn:E;
    [| vm_compute in E; discriminate E | vm_compute in E; discriminate E].
  destruct (convert_Index_closing_bracket _ _ _ _ _ _ _ _ _ _ _ _ _ E)
    as (baseLoc & indexLoc & k & Hb & Hi & H).
  vm_compute in Hb. injection Hb as <-.
  vm_compute in Hi. injection Hi as <-.
  cbv zeta in H. destruct H as (Hk & Hocc & _ & _ & _ & _ & Hrange).
  assert (Ek : k = 3).
  { pose proof (occursAt_within _ _ _ Hocc) as [_ Hin].
    match type of Hk with
    | ?o <= k =>
        assert (Ho : o = 3) by (vm_compute; reflexivity); rewrite Ho in Hk
    end.
    match type of Hin with
    | k + ?x <= ?y =>
        assert (Hx : x = 1) by (vm_compute; reflexivity);
        assert (Hy : y = 4) by (vm_compute; reflexivity);
        rewrite Hx, Hy in Hin
    end.
    lia. }
  subst k.
  destruct (Hrange eq_refl) as (r0 & r1 & Hr & Hle & _).
  exists n, r0, r1. split; [reflexivity |]. split; [exact Hocc |].
  split; [exact Hr | exact Hle].
Defined.

(** On [b while a]: the loop starts where its body starts. *)
Lemma convert_While_span_witness :
  exists n,
    sample_convert while_locations while_source
      (While (Some 1%nat) (identifier 2%nat "a")
             (Block (Some 3%nat) [identifier 3%nat "b"]))
      [Null None] = Ok (Some n) /\
    line n = Some 1 /\ column n = Some 1.
Proof.
  destruct (sample_convert while_locations while_source
              (While (Some 1%nat) (identifier 2%nat "a")
                     (Block (Some 3%nat) [identifier 3%nat "b"]))
              [Null None])
    as [[n |] |] eqn:E;
    [| vm_compute in E; discriminate E | vm_compute in E; discriminate E].
  destruct (proj1 (convert_While_span _ _ _ _ _ _ _ _ _ _) _ E)
    as (l & lc & lb & cond & body' & Hl & Hc & Hb & _ & Hstart & _).
  vm_compute in Hl. injection Hl as <-.
  vm_compute in Hc. injection Hc as <-.
  vm_compute in Hb. injection Hb as <-.
  cbv zeta in Hstart. destruct Hstart as [Hline Hcol].
  exists n. split; [reflexivity |]. split; [exact Hline | exact Hcol].
Defined.

(** On [{a, b: c}]: the key and the expression of the first member are the
    same. *)
Lemma convert_Obj_members_witness :
  exists n ms member,
    sample_convert object_locations object_source
      (Obj (Some 0%nat) object_properties) [Null None] = Ok (Some n) /\
    attr n "members" = ANodes ms /\
    List.length ms = 2%nat /\
    nth 0 ms None = Some member /\
    attr member "key" = attr member "expression".
Proof.
  destruct (sample_convert object_locations object_source
              (Obj (Some 0%nat) object_properties) [Null None])
    as [[n |] |] eqn:E;
    [| vm_compute in E; discriminate E | vm_compute in E; discriminate E].
  destruct (convert_Obj_members _ _ _ _ _ _ _ _ _ _ E)
    as (_ & ms & Hms & Hall).
  pose proof (Forall2_length Hall) as Hlen.
  unfold object_properties in Hall.
  destruct ms as [| m ms]; [discriminate Hlen |].
  apply Forall2_cons_iff in Hall. destruct Hall as [Hfirst _].
  cbv beta iota delta [identifier] in Hfirst.
  destruct Hfirst as (keyValue & member & _ & -> & _ & Hkey & Hexpr).
  exists n, (Some member :: ms), member.
  split; [reflexivity |]. split; [exact Hms |].
  split; [now rewrite <- Hlen |]. split; [reflexivity |].
  now rewrite Hkey, Hexpr.
Defined.

(** On the class with a constructor and a bound method. *)
Lemma convert_Class_members_witness :
  exists n bound c,
    sample_convert class_locations class_source
      (Class (Some 0%nat) (Some (identifier 1%nat "A")) (Some class_body)
             None)
      [Null None] = Ok (Some n) /\
    attr n "nameAssignee" = attr n "name" /\
    attr n "boundMembers" = ANodes bound /\
    List.length bound = 1%nat /\
    (forall m, In m bound ->
       exists member f,
         m = Some member /\ attr member "expression" = ANode f /\
         node_type f = Some "BoundFunction") /\
    attr n "ctor" = ANode c /\ node_type c = Some "Constructor".
Proof.
  destruct (sample_convert class_locations class_source
              (Class (Some 0%nat) (Some (identifier 1%nat "A"))
                     (Some class_body) None)
              [Null None])
    as [[n |] |] eqn:E;
    [| vm_compute in E; discriminate E | vm_compute in E; discriminate E].
  destruct (convert_Class_members _ _ _ _ _ _ _ _ _ _ _ _ E)
    as (_ & Hname & stmts & bound & _ & _ & Hbound & Hall & Hctor).
  vm_compute in E. injection E as <-.
  cbn in Hbound. injection Hbound as <-.
  destruct Hctor as [Hnull | (c & Hc & _ & Ht)]; [discriminate Hnull |].
  eexists. eexists. exists c.
  split; [reflexivity |]. split; [exact Hname |].
  split; [reflexivity |]. split; [reflexivity |].
  split; [| split; [exact Hc | exact Ht]].
  intros m Hm. now apply Hall.
Defined.

(** On the identifier [a], on the number [42], and on [1e400] with a
    [JSON.parse] that returns [Infinity] for it. *)
Lemma convert_Literal_kinds_witness :
  (exists n,
      sample_convert unless_locations unless_source
        (Literal (Some 3%nat) "a") [Null None] = Ok (Some n) /\
      node_type n = Some "Identifier" /\
      attrs n = [("data", AData (JString "a"))]) /\
  (exists n,
      sample_convert unless_locations unless_source
        (Literal (Some 3%nat) "42") [Null None] = Ok (Some n) /\
      node_type n = Some "Int" /\
      attrs n = [("data", AData (JNumber 42 1))]) /\
  (exists n,
      convert sample_parseLiteral (fun _ => Some (JInfinity false))
        unless_locations unless_source (lineColumnMapper unless_source)
        (Literal (Some 3%nat) "1e400") [Null None] = Ok (Some n) /\
      node_type n = Some "Int" /\
      attrs n = [("data", AData (JInfinity false))]).
Proof.
  split; [| split].
  - destruct (proj1 (proj2 (convert_Literal_kinds sample_parseLiteral
                              sample_JSON_parse unless_locations
                              unless_source
                              (lineColumnMapper unless_source)
                              (Some 3%nat) "a" (Null None) []))
                eq_refl)
      as (n & Hn & [(Hthis & _) | [(s & _ & Hs & _) | (_ & _ & Ht & Ha)]]).
    + discriminate Hthis.
    + discriminate Hs.
    + exists n. split; [exact Hn |]. split; [exact Ht | exact Ha].
  - pose proof (proj2 (proj2 (convert_Literal_kinds sample_parseLiteral
                                sample_JSON_parse unless_locations
                                unless_source
                                (lineColumnMapper unless_source)
                                (Some 3%nat) "42" (Null None) []))
                  eq_refl) as H.
    assert (EJ : sample_JSON_parse "42" = Some (JNumber 42 1))
      by (vm_compute; reflexivity).
    rewrite EJ in H. cbv beta iota in H.
    destruct H as (n & Hn & Ha & _ & Hint).
    exists n. split; [exact Hn |]. split; [| exact Ha].
    apply Hint. right. exists 42, 1%positive, 42. split; reflexivity.
  - pose proof (proj2 (proj2 (convert_Literal_kinds sample_parseLiteral
                                (fun _ => Some (JInfinity false))
                                unless_locations unless_source
                                (lineColumnMapper unless_source)
                                (Some 3%nat) "1e400" (Null None) []))
                  eq_refl) as H.
    cbv beta iota in H.
    destruct H as (n & Hn & Ha & _ & Hint).
    exists n. split; [exact Hn |]. split; [| exact Ha].
    apply Hint. left. now exists false.
Defined.

(** On [a + b]: the operator node and its operands have a type. *)
Lemma convert_typed_nodes_witness :
  exists n,
    sample_convert plus_locations plus_source
      (Op (Some 0%nat) "+" (identifier 1%nat "a")
          (Some (identifier 2%nat "b")))
      [Null None] = Ok (Some n) /\
    node_type n <> None /\
    (forall d, descendant n d -> node_type d <> None).
Proof.
  destruct (sample_convert plus_locations plus_source
              (Op (Some 0%nat) "+" (identifier 1%nat "a")
                  (Some (identifier 2%nat "b")))
              [Null None])
    as [[n |] |] eqn:E;
    [| vm_compute in E; discriminate E | vm_compute in E; discriminate E].
  assert (Hrec : Deep recognizedOperator
                   (Op (Some 0%nat) "+" (identifier 1%nat "a")
                       (Some (identifier 2%nat "b")))).
  { constructor; [discriminate |].
    cbn [csChildren optionalNode]. intros c Hc. split_In; unfold identifier.
    all: repeat (constructor; [exact I |];
                 cbn [csChildren optionalNode]; intros ? ?; split_In). }
  pose proof (fun d => convert_typed_nodes _ _ _ _ _ _ _ n d Hrec E) as H.
  exists n. split; [reflexivity |]. split.
  - apply H. now left.
  - intros d Hd. apply H. now right.
Defined.

(** On the switch with two cases: the second case holds its two
    conditions. *)
Lemma convert_Switch_cases_witness :
  exists n cs node conds,
    sample_convert switch_locations switch_source
      (Switch (Some 0%nat) switch_subject (switch_cases switch_conditions)
              None)
      [Null None] = Ok (Some n) /\
    attr n "cases" = ANodes cs /\
    nth 1 cs None = Some node /\
    attr node "conditions" = ANodes conds /\
    List.length conds = 2%nat /\
    attr n "alternate" = ANull.
Proof.
  destruct (sample_convert switch_locations switch_source
              (Switch (Some 0%nat) switch_subject
                      (switch_cases switch_conditions) None)
              [Null None])
    as [[n |] |] eqn:E;
    [| vm_compute in E; discriminate E | vm_compute in E; discriminate E].
  destruct (convert_Switch_cases _ _ _ _ _ _ _ _ _ _ _ _ E)
    as (_ & _ & (cs & Hcs & Hall) & Halt).
  unfold switch_cases in Hall.
  destruct cs as [| c0 [| c1 cs]];
    try (apply Forall2_length in Hall; discriminate Hall).
  apply Forall2_cons_iff in Hall. destruct Hall as [_ Hall].
  apply Forall2_cons_iff in Hall. destruct Hall as [Hsecond _].
  destruct Hsecond as (node & conds & consequent & -> & _ & _ & Hconds
                       & Hlen & _).
  apply Forall2_length in Hlen. cbn [fst conditionsOf] in Hlen.
  exists n, (c0 :: Some node :: cs), node, conds.
  split; [reflexivity |]. split; [exact Hcs |]. split; [reflexivity |].
  split; [exact Hconds |]. split; [now rewrite <- Hlen | exact Halt].
Defined.

(** On [a + b]. *)
Lemma convert_Op_operands_witness :
  exists n,
    sample_convert plus_locations plus_source
      (Op (Some 0%nat) "+" (identifier 1%nat "a")
          (Some (identifier 2%nat "b")))
      [Null None] = Ok (Some n) /\
    node_type n = Some "PlusOp" /\
    List.length (attrs n) = 2%nat.
Proof.
  destruct (sample_convert plus_locations plus_source
              (Op (Some 0%nat) "+" (identifier 1%nat "a")
                  (Some (identifier 2%nat "b")))
              [Null None])
    as [[n |] |] eqn:E;
    [| vm_compute in E; discriminate E | vm_compute in E; discriminate E].
  destruct (proj2 (convert_Op_operands _ _ _ _ _ _ _ _ _ _ _) _ E)
    as (n' & Hn & Ht & left & right & _ & _ & Ha).
  injection Hn as <-.
  exists n. split; [reflexivity |]. split; [exact Ht |].
  now rewrite Ha.
Defined.

(** On [b unless a]: no else branch, and the body as consequent. *)
Lemma convert_If_branches_witness :
  exists n consequent,
    sample_convert unless_locations unless_source
      (If (Some 1%nat) (Op (Some 1%nat) "!" unless_operand None)
          unless_body None)
      [unless_tree 1%nat 1%nat] = Ok (Some n) /\
    node_type n = Some "Conditional" /\
    attr n "consequent" = attr_of consequent /\
    attr n "alternate" = ANull.
Proof.
  destruct (sample_convert unless_locations unless_source
              (If (Some 1%nat) (Op (Some 1%nat) "!" unless_operand None)
                  unless_body None)
              [unless_tree 1%nat 1%nat])
    as [[n |] |] eqn:E;
    [| vm_compute in E; discriminate E | vm_compute in E; discriminate E].
  destruct (convert_If_branches _ _ _ _ _ _ _ _ _ _ _ _ E)
    as (Ht & (consequent & _ & Hc) & Halt & _).
  exists n, consequent. split; [reflexivity |]. split; [exact Ht |].
  split; [exact Hc | exact Halt].
Defined.
